(** * Leftover: the rules engine of the 6x6 block-placement puzzle

    A shallow embedding of [src/utils/gameLogic.ts] and of the parts of
    [src/constants.ts] and of the type declarations it relies on, with
    the properties of the engine proved over it.

    Conventions of the embedding.
    - A JavaScript [number] that holds a grid coordinate, an offset, a
      score or a combo counter is an integer of [Z] (doubles are exact on
      integers below 2^53 in magnitude).
    - An optional field ([color?], [blockId?], [basePoints?]) is an
      [option]; [undefined] is [None].  A key that is present with the
      value [undefined] reads the same as an absent key and is [None] too.
    - A JavaScript array is a [list]; [a[i]] is a lookup that yields
      [None] for [undefined].
    - A function of the source that can throw a [TypeError] (a property
      read on [undefined]) returns an [option]; [None] is the exception.
    - Record projections share one name space, so the fields [id] and
      [color] are [cell_id] and [cell_color] in [CellData], [block_id]
      and [block_color] in [BlockDefinition], and [x], [y] are [coord_x],
      [coord_y] in [Coordinate].
    - [generateHand] draws from [Math.random]; its embedding takes the
      draws as an argument.  All the engine reads of a drawn shape is
      its identifier, its offsets and its colour, which the properties
      of the engine quantify over.
    - The handlers of the App component are embedded as functions on
      the record of its state cells; what they hand to the sound manager
      is a list they return.  Pixel arithmetic, [localStorage] and the
      Web Audio calls are not embedded. *)

From stdpp Require Import base decidable option list numbers strings
  gmap sets fin_maps sorting.

Local Open Scope Z_scope.

(* [naive_solver] clears hypotheses it has consumed and says so. *)
#[local] Set Warnings "-clear-no-such-hyp".

(** ** types.ts *)

Inductive CellStatus := empty | filled | junk.

#[global] Instance CellStatus_eq_dec : EqDecision CellStatus.
Proof. solve_decision. Defined.

Record Coordinate := mkCoordinate { coord_x : Z; coord_y : Z }.

#[global] Instance Coordinate_eq_dec : EqDecision Coordinate.
Proof. solve_decision. Defined.

(** [CellData]: [id] is the React key, [blockId] the owner of the cell. *)
Record CellData := mkCell {
  cell_id : string;
  status : CellStatus;
  cell_color : option string;
  blockId : option string
}.

#[global] Instance CellData_eq_dec : EqDecision CellData.
Proof. solve_decision. Defined.

Record BlockDefinition := mkBlock {
  block_id : string;
  cells : list Coordinate;
  block_color : string;
  basePoints : option Z
}.

(** [CellData[][]]: [grid[y][x]], a list of rows. *)
Abbreviation Grid := (list (list CellData)).

(** ** constants.ts *)

Definition GRID_SIZE : Z := 6.

(** '#475569' *)
Definition JUNK_COLOR : string := "#475569"%string.

(** The loop [for (let i = 0; i < GRID_SIZE; i++)]. *)
Definition indices : list Z := seqZ 0 GRID_SIZE.

(** [`cell-${x}-${y}`]; only the fact that it is some string matters
    to the engine, the decimal rendering is kept for the two digits a
    6x6 grid needs. *)
Definition digit (n : Z) : string :=
  String (Ascii.ascii_of_nat (48 + Z.to_nat n)) EmptyString.

Definition cellKey (x y : Z) : string :=
  ("cell-" +:+ digit x +:+ "-" +:+ digit y)%string.

(** [createEmptyGrid]: GRID_SIZE rows of GRID_SIZE cells
    [{ id, status: 'empty' }], with neither colour nor owner. *)
Definition createEmptyGrid : Grid :=
  (fun y => (fun x => mkCell (cellKey x y) empty None None) <$> indices)
    <$> indices.

(** ** Array reads *)

(** [a[i]] for an integer [i]: [undefined] below 0 and from the length on. *)
Definition lookupZ {A} (a : list A) (i : Z) : option A :=
  if decide (0 ≤ i) then a !! Z.to_nat i else None.

(** [grid[y][x]]; [None] when [grid[y]] is [undefined] (the read of [[x]]
    throws) or when [grid[y][x]] is (the read of a field of it throws). *)
Definition cellAt (grid : Grid) (x y : Z) : option CellData :=
  row ← lookupZ grid y; lookupZ row x.

(** ** gameLogic.ts: rotateBlockDefinition *)

(** [Math.min(...l)].  On the empty list JavaScript yields [Infinity];
    [rotateBlockDefinition] then maps over no cell at all and the value is
    never used, so the model returns an arbitrary number there. *)
Definition Math_min (l : list Z) : Z :=
  match l with
  | [] => 0
  | z :: l' => foldl Z.min z l'
  end.

(** The comparator [(a, b) => (a.y - b.y) || (a.x - b.x)]: the first
    difference unless it is zero. *)
Definition compareCells (a b : Coordinate) : Z :=
  if decide (coord_y a - coord_y b = 0)
  then coord_x a - coord_x b
  else coord_y a - coord_y b.

(** [a] may stay before [b]. *)
Definition cellsOrdered (a b : Coordinate) : Prop := compareCells a b ≤ 0.

#[global] Instance cellsOrdered_dec : RelDecision cellsOrdered.
Proof. intros a b. unfold cellsOrdered. apply _. Defined.

(** [Array.prototype.sort] with that comparator.  The comparator is a
    total order on coordinates in which only equal coordinates tie, so
    the sorted array is the same whatever algorithm the engine runs
    (see [sort_cells_unique]). *)
Definition sortCells (l : list Coordinate) : list Coordinate :=
  merge_sort cellsOrdered l.

Definition rotateBlockDefinition (block : BlockDefinition) : BlockDefinition :=
  let rotatedCells :=
    (fun cell => mkCoordinate (- coord_y cell) (coord_x cell)) <$> cells block in
  let minX := Math_min (coord_x <$> rotatedCells) in
  let minY := Math_min (coord_y <$> rotatedCells) in
  let normalizedCells :=
    (fun cell => mkCoordinate (coord_x cell - minX) (coord_y cell - minY))
      <$> rotatedCells in
  mkBlock (block_id block) (sortCells normalizedCells)
          (block_color block) (basePoints block).

(** ** gameLogic.ts: canPlaceBlock *)

Definition outOfBounds (x y : Z) : bool :=
  bool_decide (x < 0) || bool_decide (GRID_SIZE ≤ x)
  || bool_decide (y < 0) || bool_decide (GRID_SIZE ≤ y).

(** The body of the [for ... of] loop over [block.cells], with its two
    early [return false]. *)
Fixpoint canPlaceCells (grid : Grid) (cs : list Coordinate)
    (targetX targetY : Z) : option bool :=
  match cs with
  | [] => Some true
  | cell :: rest =>
      let x := targetX + coord_x cell in
      let y := targetY + coord_y cell in
      if outOfBounds x y then Some false
      else
        c ← cellAt grid x y;
        if decide (status c ≠ empty) then Some false
        else canPlaceCells grid rest targetX targetY
  end.

Definition canPlaceBlock (grid : Grid) (block : BlockDefinition)
    (targetX targetY : Z) : option bool :=
  canPlaceCells grid (cells block) targetX targetY.

(** ** gameLogic.ts: canPlaceInAnyOrientation and canPlaceAny *)

(** The two inner loops, [x] inside [y], leaving at the first anchor that
    fits.  [xs] is what is left of the current row of anchors. *)
Fixpoint scanAnchorsX (grid : Grid) (block : BlockDefinition) (y : Z)
    (xs : list Z) : option bool :=
  match xs with
  | [] => Some false
  | x :: xs' =>
      b ← canPlaceBlock grid block x y;
      if b : bool then Some true else scanAnchorsX grid block y xs'
  end.

Fixpoint scanAnchorsY (grid : Grid) (block : BlockDefinition)
    (ys : list Z) : option bool :=
  match ys with
  | [] => Some false
  | y :: ys' =>
      b ← scanAnchorsX grid block y indices;
      if b : bool then Some true else scanAnchorsY grid block ys'
  end.

(** The outer loop [for (let i = 0; i < 4; i++)]; [n] is the number of
    orientations still to try. *)
Fixpoint tryOrientations (grid : Grid) (currentBlock : BlockDefinition)
    (n : nat) : option bool :=
  match n with
  | O => Some false
  | S n' =>
      b ← scanAnchorsY grid currentBlock indices;
      if b : bool then Some true
      else tryOrientations grid (rotateBlockDefinition currentBlock) n'
  end.

Definition canPlaceInAnyOrientation (grid : Grid) (block : BlockDefinition)
    : option bool :=
  tryOrientations grid block 4.

Fixpoint canPlaceAnyLoop (grid : Grid) (hand : list BlockDefinition)
    : option bool :=
  match hand with
  | [] => Some false
  | block :: rest =>
      b ← canPlaceInAnyOrientation grid block;
      if b : bool then Some true else canPlaceAnyLoop grid rest
  end.

Definition canPlaceAny (grid : Grid) (hand : list BlockDefinition)
    : option bool :=
  if decide (length hand = 0%nat) then Some true
  else canPlaceAnyLoop grid hand.

(** ** gameLogic.ts: placeBlockAndProcess, on board values *)

Record PlacementResult := mkResult {
  newGrid : Grid;
  linesCleared : Z;
  junkCreated : Z;
  points : Z;
  newCombo : Z
}.

(** [grid[y][x] = { ...grid[y][x], <overrides> }], the one form of write
    the function uses; [f] is the object expression as a function of the
    cell that is spread.  [None] when [grid[y]] is [undefined] (a
    [TypeError]) and also when [grid[y][x]] is: JavaScript would then
    store a cell without [id] past the end of the row, a board this model
    does not represent.  A legal placement never gets there. *)
Definition writeCell (grid : Grid) (x y : Z) (f : CellData → CellData)
    : option Grid :=
  row ← lookupZ grid y;
  old ← lookupZ row x;
  Some (<[Z.to_nat y := <[Z.to_nat x := f old]> row]> grid).

(** [{ ...cell, status: 'filled', color: block.color, blockId: block.id }] *)
Definition stampCell (block : BlockDefinition) (cell : CellData) : CellData :=
  mkCell (cell_id cell) filled (Some (block_color block)) (Some (block_id block)).

(** Step 2, the loop over [block.cells]. *)
Fixpoint placeCells (grid : Grid) (block : BlockDefinition)
    (cs : list Coordinate) (targetX targetY : Z) : option Grid :=
  match cs with
  | [] => Some grid
  | cell :: rest =>
      g ← writeCell grid (targetX + coord_x cell) (targetY + coord_y cell)
            (stampCell block);
      placeCells g block rest targetX targetY
  end.

(** [cell => cell.status !== 'empty'] *)
Definition nonEmpty (cell : CellData) : bool :=
  bool_decide (status cell ≠ empty).

(** [newGrid[y].every(cell => cell.status !== 'empty')] *)
Definition rowIsFull (grid : Grid) (y : Z) : option bool :=
  row ← lookupZ grid y; Some (forallb nonEmpty row).

(** [newGrid.every(row => row[x].status !== 'empty')]; [every] stops at
    the first row that fails. *)
Fixpoint colIsFull (rows : Grid) (x : Z) : option bool :=
  match rows with
  | [] => Some true
  | row :: rest =>
      cell ← lookupZ row x;
      if nonEmpty cell then colIsFull rest x else Some false
  end.

(** [for (let i = 0; ...) { if (isFull(i)) full.push(i); }] *)
Fixpoint collectFull (isFull : Z → option bool) (idxs : list Z)
    : option (list Z) :=
  match idxs with
  | [] => Some []
  | i :: rest =>
      b ← isFull i;
      r ← collectFull isFull rest;
      Some (if b : bool then i :: r else r)
  end.

(** [if (cell.blockId) affectedBlockIds.add(cell.blockId)]: the test is
    JavaScript truthiness, which [undefined] and the empty string fail. *)
Definition addOwner (affected : gset string) (cell : CellData) : gset string :=
  match blockId cell with
  | Some i => if decide (i = EmptyString) then affected else {[ i ]} ∪ affected
  | None => affected
  end.

(** [fullRows.forEach(y => newGrid[y].forEach(cell => ...))] *)
Fixpoint ownersInRows (grid : Grid) (fullRows : list Z)
    (affected : gset string) : option (gset string) :=
  match fullRows with
  | [] => Some affected
  | y :: rest =>
      row ← lookupZ grid y;
      ownersInRows grid rest (foldl addOwner affected row)
  end.

(** [newGrid.forEach(row => { if (row[x].blockId) ... })] *)
Fixpoint ownersInCol (rows : Grid) (x : Z) (affected : gset string)
    : option (gset string) :=
  match rows with
  | [] => Some affected
  | row :: rest =>
      cell ← lookupZ row x;
      ownersInCol rest x (addOwner affected cell)
  end.

Fixpoint ownersInCols (grid : Grid) (fullCols : list Z)
    (affected : gset string) : option (gset string) :=
  match fullCols with
  | [] => Some affected
  | x :: rest =>
      a ← ownersInCol grid x affected;
      ownersInCols grid rest a
  end.

(** The set [clearedCells] of keys [`${x},${y}`].  Two integer pairs give
    the same key only if they are equal, so the set of keys is the set of
    pairs. *)
Definition clearedCells (fullRows fullCols : list Z) : gset (Z * Z) :=
  let rowsDone :=
    foldl (fun s y => foldl (fun s x => {[ (x, y) ]} ∪ s) s indices)
          ∅ fullRows in
  foldl (fun s x => foldl (fun s y => {[ (x, y) ]} ∪ s) s indices)
        rowsDone fullCols.

(** An element of [updates]. *)
Record Update := mkUpdate {
  upd_x : Z;
  upd_y : Z;
  upd_status : CellStatus;
  upd_color : option string
}.

(** [cell.blockId && affectedBlockIds.has(cell.blockId)] *)
Definition ownerAffected (affected : gset string) (cell : CellData) : bool :=
  match blockId cell with
  | Some i => bool_decide (i ≠ EmptyString) && bool_decide (i ∈ affected)
  | None => false
  end.

(** The body of the double loop of step 5 for one cell; the accumulator
    is [updates] and [junkCreated]. *)
Definition visitCell (cleared : gset (Z * Z)) (affected : gset string)
    (x y : Z) (cell : CellData) (acc : list Update * Z) : list Update * Z :=
  match status cell with
  | junk => acc
  | filled =>
      if decide ((x, y) ∈ cleared)
      then (acc.1 ++ [mkUpdate x y empty None], acc.2)
      else if ownerAffected affected cell
      then (acc.1 ++ [mkUpdate x y junk (Some JUNK_COLOR)], acc.2 + 1)
      else acc
  | empty => acc
  end.

Fixpoint visitRow (grid : Grid) (cleared : gset (Z * Z))
    (affected : gset string) (y : Z) (xs : list Z) (acc : list Update * Z)
    : option (list Update * Z) :=
  match xs with
  | [] => Some acc
  | x :: rest =>
      cell ← cellAt grid x y;
      visitRow grid cleared affected y rest
               (visitCell cleared affected x y cell acc)
  end.

Fixpoint visitGrid (grid : Grid) (cleared : gset (Z * Z))
    (affected : gset string) (ys : list Z) (acc : list Update * Z)
    : option (list Update * Z) :=
  match ys with
  | [] => Some acc
  | y :: rest =>
      acc' ← visitRow grid cleared affected y indices acc;
      visitGrid grid cleared affected rest acc'
  end.

(** [{ ...cell, status: u.status, color: u.color, blockId: undefined }] *)
Definition applyUpdate (u : Update) (cell : CellData) : CellData :=
  mkCell (cell_id cell) (upd_status u) (upd_color u) None.

(** [updates.forEach(u => { newGrid[u.y][u.x] = ... })] *)
Fixpoint applyUpdates (grid : Grid) (us : list Update) : option Grid :=
  match us with
  | [] => Some grid
  | u :: rest =>
      g ← writeCell grid (upd_x u) (upd_y u) (applyUpdate u);
      applyUpdates g rest
  end.

(** The scoring block of the branch [linesCleared > 0]. *)
Definition comboAfterClear (junkCreated currentCombo : Z) : Z :=
  if decide (junkCreated = 0) then currentCombo + 1 else 0.

Definition pointsAfterClear (linesCleared junkCreated newCombo : Z) : Z :=
  let points := 0 + linesCleared * 100 in
  let points :=
    if decide (junkCreated = 0) then points + 50 * linesCleared else points in
  if decide (newCombo > 1) then points + (newCombo - 1) * 100 else points.

(** The read-only part of steps 4 and 5: the owners met in the full
    lines, the cleared coordinates, and the double loop that fills
    [updates] and counts [junkCreated]. *)
Definition leftoverUpdates (grid : Grid) (fullRows fullCols : list Z)
    : option (list Update * Z) :=
  inRows ← ownersInRows grid fullRows ∅;
  affectedBlockIds ← ownersInCols grid fullCols inRows;
  visitGrid grid (clearedCells fullRows fullCols) affectedBlockIds
            indices ([], 0).

(** Steps 3 to 5 and the scoring, on the board [stamped] that step 2
    leaves. *)
Definition processLines (stamped : Grid) (block : BlockDefinition)
    (currentCombo : Z) : option PlacementResult :=
  fullRows ← collectFull (rowIsFull stamped) indices;
  fullCols ← collectFull (colIsFull stamped) indices;
  let linesCleared :=
    Z.of_nat (length fullRows) + Z.of_nat (length fullCols) in
  if decide (linesCleared > 0) then
    '(updates, junkCreated) ← leftoverUpdates stamped fullRows fullCols;
    grid ← applyUpdates stamped updates;
    let newCombo := comboAfterClear junkCreated currentCombo in
    Some (mkResult grid linesCleared junkCreated
            (pointsAfterClear linesCleared junkCreated newCombo) newCombo)
  else
    Some (mkResult stamped linesCleared 0
            (0 + Z.of_nat (length (cells block)) * 10) 0).

(** The whole function on values.  The deep copy of step 1 is the
    identity on values; [placeBlockAndProcessH] below runs the same steps
    on a store of arrays and objects, where the copy matters.  The
    default [currentCombo = 0] is for a caller that omits the argument;
    the model takes the number. *)
Definition placeBlockAndProcess (currentGrid : Grid) (block : BlockDefinition)
    (targetX targetY currentCombo : Z) : option PlacementResult :=
  stamped ← placeCells currentGrid block (cells block) targetX targetY;
  processLines stamped block currentCombo.

(** ** The same functions on a store

    Boards are arrays of arrays of objects, and [placeBlockAndProcess]
    assigns into arrays.  Whether the caller's board survives the call is
    a question about references, so this section runs the function on a
    store: a finite map from references to objects, where an array holds
    references.  A function here takes the store and returns the store it
    leaves. *)

Definition loc := positive.

Inductive Obj :=
  | ObjCell (c : CellData)
  | ObjArray (elems : list loc).

Abbreviation Store := (gmap loc Obj).

(** An object or array literal: a reference that the store does not
    hold yet. *)
Definition alloc (o : Obj) (h : Store) : loc * Store :=
  let l := fresh (dom h) in (l, <[l := o]> h).

Definition readCell (h : Store) (l : loc) : option CellData :=
  match h !! l with Some (ObjCell c) => Some c | _ => None end.

Definition readArray (h : Store) (l : loc) : option (list loc) :=
  match h !! l with Some (ObjArray a) => Some a | _ => None end.

(** The board value an array of rows stands for. *)
Definition readRow (h : Store) (r : loc) : option (list CellData) :=
  row ← readArray h r; mapM (readCell h) row.

Definition readGrid (h : Store) (g : loc) : option Grid :=
  rows ← readArray h g; mapM (readRow h) rows.

(** [grid[y][x]] through the references. *)
Definition cellAtH (h : Store) (g : loc) (x y : Z) : option CellData :=
  rows ← readArray h g;
  r ← lookupZ rows y;
  row ← readArray h r;
  cl ← lookupZ row x;
  readCell h cl.

(** [canPlaceBlock] on the store. *)
Fixpoint canPlaceCellsH (h : Store) (grid : loc) (cs : list Coordinate)
    (targetX targetY : Z) : option (bool * Store) :=
  match cs with
  | [] => Some (true, h)
  | cell :: rest =>
      let x := targetX + coord_x cell in
      let y := targetY + coord_y cell in
      if outOfBounds x y then Some (false, h)
      else
        c ← cellAtH h grid x y;
        if decide (status c ≠ empty) then Some (false, h)
        else canPlaceCellsH h grid rest targetX targetY
  end.

Definition canPlaceBlockH (h : Store) (grid : loc) (block : BlockDefinition)
    (targetX targetY : Z) : option (bool * Store) :=
  canPlaceCellsH h grid (cells block) targetX targetY.

(** [row.map(cell => ({ ...cell }))]: a new object for every cell. *)
Fixpoint copyCells (h : Store) (row : list loc) : option (list loc * Store) :=
  match row with
  | [] => Some ([], h)
  | cl :: rest =>
      c ← readCell h cl;
      let '(cl', h1) := alloc (ObjCell c) h in
      '(rest', h2) ← copyCells h1 rest;
      Some (cl' :: rest', h2)
  end.

(** [currentGrid.map(row => row.map(...))]: a new array for every row. *)
Fixpoint copyRows (h : Store) (rows : list loc) : option (list loc * Store) :=
  match rows with
  | [] => Some ([], h)
  | r :: rest =>
      row ← readArray h r;
      '(row', h1) ← copyCells h row;
      let '(r', h2) := alloc (ObjArray row') h1 in
      '(rest', h3) ← copyRows h2 rest;
      Some (r' :: rest', h3)
  end.

(** Step 1: the deep copy, itself a new array. *)
Definition copyGrid (h : Store) (currentGrid : loc) : option (loc * Store) :=
  rows ← readArray h currentGrid;
  '(rows', h1) ← copyRows h rows;
  Some (alloc (ObjArray rows') h1).

(** [grid[y][x] = { ...grid[y][x], <overrides> }]: a new object, and the
    row array [grid[y]] updated in place.  [None] as for [writeCell]. *)
Definition writeCellH (h : Store) (grid : loc) (x y : Z)
    (f : CellData → CellData) : option Store :=
  rows ← readArray h grid;
  r ← lookupZ rows y;
  row ← readArray h r;
  cl ← lookupZ row x;
  old ← readCell h cl;
  let '(cl', h1) := alloc (ObjCell (f old)) h in
  Some (<[r := ObjArray (<[Z.to_nat x := cl']> row)]> h1).

Fixpoint placeCellsH (h : Store) (grid : loc) (block : BlockDefinition)
    (cs : list Coordinate) (targetX targetY : Z) : option Store :=
  match cs with
  | [] => Some h
  | cell :: rest =>
      h1 ← writeCellH h grid (targetX + coord_x cell) (targetY + coord_y cell)
             (stampCell block);
      placeCellsH h1 grid block rest targetX targetY
  end.

Fixpoint applyUpdatesH (h : Store) (grid : loc) (us : list Update)
    : option Store :=
  match us with
  | [] => Some h
  | u :: rest =>
      h1 ← writeCellH h grid (upd_x u) (upd_y u) (applyUpdate u);
      applyUpdatesH h1 grid rest
  end.

(** The result object, with a reference for [newGrid]. *)
Record PlacementResultH := mkResultH {
  newGridH : loc;
  linesClearedH : Z;
  junkCreatedH : Z;
  pointsH : Z;
  newComboH : Z
}.

(** [placeBlockAndProcess] on the store.  Steps 3 to 5 only read
    [newGrid] until [updates] is complete, so they run on the board value
    [newGrid] stands for at that point; the writes of step 2 and of
    "Apply updates" go through the references. *)
Definition placeBlockAndProcessH (h : Store) (currentGrid : loc)
    (block : BlockDefinition) (targetX targetY currentCombo : Z)
    : option (PlacementResultH * Store) :=
  '(grid, h1) ← copyGrid h currentGrid;
  h2 ← placeCellsH h1 grid block (cells block) targetX targetY;
  stamped ← readGrid h2 grid;
  fullRows ← collectFull (rowIsFull stamped) indices;
  fullCols ← collectFull (colIsFull stamped) indices;
  let linesCleared :=
    Z.of_nat (length fullRows) + Z.of_nat (length fullCols) in
  if decide (linesCleared > 0) then
    '(updates, junkCreated) ← leftoverUpdates stamped fullRows fullCols;
    h3 ← applyUpdatesH h2 grid updates;
    let newCombo := comboAfterClear junkCreated currentCombo in
    Some (mkResultH grid linesCleared junkCreated
            (pointsAfterClear linesCleared junkCreated newCombo) newCombo,
          h3)
  else
    Some (mkResultH grid linesCleared 0
            (0 + Z.of_nat (length (cells block)) * 10) 0,
          h2).

(** A board value laid out in the store row by row, as
    [createEmptyGrid] or a previous call leaves it: used to build
    concrete stores. *)
Fixpoint storeCells (h : Store) (row : list CellData) : list loc * Store :=
  match row with
  | [] => ([], h)
  | c :: rest =>
      let '(cl, h1) := alloc (ObjCell c) h in
      let '(rest', h2) := storeCells h1 rest in
      (cl :: rest', h2)
  end.

Fixpoint storeRows (h : Store) (rows : Grid) : list loc * Store :=
  match rows with
  | [] => ([], h)
  | row :: rest =>
      let '(row', h1) := storeCells h row in
      let '(r, h2) := alloc (ObjArray row') h1 in
      let '(rest', h3) := storeRows h2 rest in
      (r :: rest', h3)
  end.

Definition storeGrid (h : Store) (grid : Grid) : loc * Store :=
  let '(rows, h1) := storeRows h grid in alloc (ObjArray rows) h1.

(** ** Boards and coordinates *)

(** A board is GRID_SIZE rows of GRID_SIZE cells. *)
Definition wf_grid (grid : Grid) : Prop :=
  length grid = 6%nat ∧ Forall (fun row => length row = 6%nat) grid.

#[global] Instance wf_grid_dec grid : Decision (wf_grid grid).
Proof. unfold wf_grid. apply _. Defined.

Definition inBounds (x y : Z) : Prop :=
  (0 ≤ x < GRID_SIZE) ∧ (0 ≤ y < GRID_SIZE).

#[global] Instance inBounds_dec x y : Decision (inBounds x y).
Proof. unfold inBounds. apply _. Defined.

(** The absolute coordinate [(x, y)] is one the block stamps when
    anchored at [(targetX, targetY)]. *)
Definition covers (block : BlockDefinition) (targetX targetY x y : Z) : Prop :=
  mkCoordinate (x - targetX) (y - targetY) ∈ cells block.

#[global] Instance covers_dec block tx ty x y : Decision (covers block tx ty x y).
Proof. unfold covers. apply _. Defined.

(** The condition of the placement rule: every absolute cell of the
    block lies on the board and is empty there. *)
Definition fits (grid : Grid) (block : BlockDefinition)
    (targetX targetY : Z) : Prop :=
  ∀ cell, cell ∈ cells block →
    inBounds (targetX + coord_x cell) (targetY + coord_y cell) ∧
    ∃ c, cellAt grid (targetX + coord_x cell) (targetY + coord_y cell) = Some c
         ∧ status c = empty.

(** [m] is the least value of [f] over the offsets [l]. *)
Definition isMin (f : Coordinate → Z) (l : list Coordinate) (m : Z) : Prop :=
  (∃ c, c ∈ l ∧ f c = m) ∧ ∀ c, c ∈ l → m ≤ f c.

Definition isMax (f : Coordinate → Z) (l : list Coordinate) (m : Z) : Prop :=
  (∃ c, c ∈ l ∧ f c = m) ∧ ∀ c, c ∈ l → f c ≤ m.

(** The bounding box of a list of offsets: least and greatest x, least
    and greatest y. *)
Definition bbox (l : list Coordinate) (a A b B : Z) : Prop :=
  isMin coord_x l a ∧ isMax coord_x l A ∧
  isMin coord_y l b ∧ isMax coord_y l B.

(** [n] successive rotations. *)
Definition rotations (n : nat) (block : BlockDefinition) : BlockDefinition :=
  Nat.iter n rotateBlockDefinition block.

(** ** Shapes and boards for the examples *)

(** The L-tromino of the catalogue. *)
Definition shapeL : BlockDefinition :=
  mkBlock "b1" [mkCoordinate 0 0; mkCoordinate 1 0; mkCoordinate 0 1]
          "#ef4444" None.

(** Two horizontal dominoes and a single dot, as [generateHand] draws
    them. *)
Definition dominoA : BlockDefinition :=
  mkBlock "a7" [mkCoordinate 0 0; mkCoordinate 1 0] "#f97316" None.

Definition dominoB : BlockDefinition :=
  mkBlock "b8" [mkCoordinate 0 0; mkCoordinate 1 0] "#3b82f6" None.

Definition shapeDot : BlockDefinition :=
  mkBlock "c9" [mkCoordinate 0 0] "#a855f7" None.

Definition shapeDot2 : BlockDefinition :=
  mkBlock "d0" [mkCoordinate 0 0] "#ec4899" None.

(** The board after one more legal placement (the board itself if the
    call throws). *)
Definition after (grid : Grid) (block : BlockDefinition) (x y : Z) : Grid :=
  from_option newGrid grid (placeBlockAndProcess grid block x y 0).

(** Row 0 filled from (0, 0) to (3, 0) by the two dominoes. *)
Definition boardFour : Grid :=
  after (after createEmptyGrid dominoA 0 0) dominoB 2 0.

(** Row 0 filled from (0, 0) to (4, 0), everything else empty. *)
Definition boardFive : Grid := after boardFour shapeDot 4 0.

(** A single offset that does not start at (0, 0); the shapes of the
    game start there. *)
Definition shapeShifted : BlockDefinition :=
  mkBlock "b2" [mkCoordinate 1 0] "#22c55e" None.

(** The reverse L of the catalogue, drawn with the identifier that
    [Math.random().toString(36).substr(2, 9)] yields when [Math.random()]
    returns 0: the empty string. *)
Definition shapeNoId : BlockDefinition :=
  mkBlock EmptyString [mkCoordinate 0 0; mkCoordinate 1 0; mkCoordinate 1 1]
          "#eab308" None.

(** The same shape with an identifier. *)
Definition shapeRevL : BlockDefinition :=
  mkBlock "e1" [mkCoordinate 0 0; mkCoordinate 1 0; mkCoordinate 1 1]
          "#eab308" None.

(** A board with junk at (5, 1): the reverse L completes row 0 and
    leaves its third cell behind. *)
Definition boardJunk : Grid := after boardFour shapeRevL 4 0.

(** The vertical tromino of the catalogue. *)
Definition shapeI : BlockDefinition :=
  mkBlock "f2" [mkCoordinate 0 0; mkCoordinate 0 1; mkCoordinate 0 2]
          "#06b6d4" None.

(** Column 5 filled from (5, 1) to (5, 5), with the junk at (5, 1). *)
Definition boardColumn : Grid :=
  after (after boardJunk shapeI 5 2) shapeDot 5 5.

(** ** Vocabulary of the clear phase

    The predicates of this section say what the rules say, in terms of
    cells and coordinates only.  The embedded functions do not use them;
    the properties below compare the two. *)

(** A line is full when every cell of it is there and not empty. *)
Definition rowFull (grid : Grid) (y : Z) : Prop :=
  ∀ x, 0 ≤ x < GRID_SIZE →
       ∃ c, cellAt grid x y = Some c ∧ status c ≠ empty.

Definition colFull (grid : Grid) (x : Z) : Prop :=
  ∀ y, 0 ≤ y < GRID_SIZE →
       ∃ c, cellAt grid x y = Some c ∧ status c ≠ empty.

(** The cleared cell set: the coordinates of the full rows and of the
    full columns. *)
Definition inClearedSet (grid : Grid) (x y : Z) : Prop :=
  inBounds x y ∧ (rowFull grid y ∨ colFull grid x).

(** The owner [o] is written on some cell of the cleared cell set. *)
Definition ownerInCleared (grid : Grid) (o : string) : Prop :=
  ∃ x y c, inClearedSet grid x y ∧ cellAt grid x y = Some c ∧
           blockId c = Some o.

(** The update, if any, that the double loop of step 5 pushes for the
    cell at [(x, y)]. *)
Definition updateFor (cleared : gset (Z * Z)) (affected : gset string)
    (x y : Z) (cell : CellData) : option Update :=
  match status cell with
  | filled =>
      if decide ((x, y) ∈ cleared) then Some (mkUpdate x y empty None)
      else if ownerAffected affected cell
      then Some (mkUpdate x y junk (Some JUNK_COLOR))
      else None
  | _ => None
  end.

#[global] Instance Update_eq_dec : EqDecision Update.
Proof. solve_decision. Defined.

(** The updates of one row and of a list of rows, in the order of the
    loops. *)
Definition rowUpdates (grid : Grid) (cleared : gset (Z * Z))
    (affected : gset string) (y : Z) (xs : list Z) : list Update :=
  omap (fun x => cellAt grid x y ≫= updateFor cleared affected x y) xs.

Definition gridUpdates (grid : Grid) (cleared : gset (Z * Z))
    (affected : gset string) (ys : list Z) : list Update :=
  ys ≫= (fun y => rowUpdates grid cleared affected y indices).

#[global] Arguments rowUpdates : simpl never.
#[global] Arguments gridUpdates : simpl never.

(** How many of the updates make junk. *)
Definition junkCount (us : list Update) : Z :=
  Z.of_nat (length (filter (fun u => upd_status u = junk) us)).

(** What the clear phase leaves of a cell of the stamped board. *)
Definition leftoverCell (cleared : gset (Z * Z)) (affected : gset string)
    (x y : Z) (cell : CellData) : CellData :=
  match updateFor cleared affected x y cell with
  | Some u => applyUpdate u cell
  | None => cell
  end.

(** What the clear phase does to the cell [c] found at [(x, y)] of the
    stamped board: removed if filled and in the cleared set; junk if
    filled, outside the cleared set, and owned by an owner, other than
    the empty string, that is written on a cell of the cleared set; kept
    as it is otherwise. *)
Inductive clearsTo (stamped : Grid) (x y : Z) (c : CellData)
    : CellData → Prop :=
  | clear_removed :
      status c = filled → inClearedSet stamped x y →
      clearsTo stamped x y c (mkCell (cell_id c) empty None None)
  | clear_junked o :
      status c = filled → ¬ inClearedSet stamped x y →
      blockId c = Some o → o ≠ EmptyString → ownerInCleared stamped o →
      clearsTo stamped x y c (mkCell (cell_id c) junk (Some JUNK_COLOR) None)
  | clear_kept :
      status c ≠ filled ∨
      (¬ inClearedSet stamped x y ∧
       ∀ o, blockId c = Some o → o ≠ EmptyString →
            ¬ ownerInCleared stamped o) →
      clearsTo stamped x y c c.

(** The 36 coordinates, in the order of the double loop. *)
Definition allCoords : list (Z * Z) :=
  indices ≫= (fun y => (fun x => (x, y)) <$> indices).

(** The cell at [p] was filled before and is junk after. *)
Definition turnedJunk (before after : Grid) (p : Z * Z) : Prop :=
  status <$> cellAt before p.1 p.2 = Some filled ∧
  status <$> cellAt after p.1 p.2 = Some junk.

#[global] Instance turnedJunk_dec before after p :
  Decision (turnedJunk before after p).
Proof. unfold turnedJunk. apply _. Defined.

(** The cell at [(x, y)] is there and not empty. *)
Definition occupied (grid : Grid) (x y : Z) : Prop :=
  ∃ c, cellAt grid x y = Some c ∧ status c ≠ empty.

#[global] Instance occupied_dec grid x y : Decision (occupied grid x y).
Proof.
  unfold occupied. destruct (cellAt grid x y) as [c|].
  - destruct (decide (status c ≠ empty)) as [H|H].
    + left. by exists c.
    + right. intros (c' & [= <-] & Hc). done.
  - right. by intros (c' & [=] & _).
Defined.

(** The board of the row scenario: the cells (0, 0) to (4, 0) are filled
    and every other cell is empty, so that no placement on the board has
    a cell outside row 0. *)
Definition rowZeroFilled (grid : Grid) : Prop :=
  ∀ x y c, cellAt grid x y = Some c →
    if decide (y = 0 ∧ 0 ≤ x ≤ 4) then status c = filled
    else status c = empty.

(** ** Reachable boards *)

(** The boards of a game: the empty board, and what
    [placeBlockAndProcess] returns for a placement that [canPlaceBlock]
    allows on a board of a game, with any combo counter. *)
Inductive reachable : Grid → Prop :=
  | reachable_empty : reachable createEmptyGrid
  | reachable_place grid block x y combo r :
      reachable grid →
      canPlaceBlock grid block x y = Some true →
      placeBlockAndProcess grid block x y combo = Some r →
      reachable (newGrid r).

(** The owner of a cell is set exactly when the cell is filled. *)
Definition ownerIffFilled (c : CellData) : Prop :=
  blockId c ≠ None ↔ status c = filled.

(** ** Ownership of a board in the store *)

(** In the store [h], the reference [g] stands for the board [grid], and
    the array [g], its row arrays and its cell objects are all objects
    that the earlier store [h0] did not hold; the row arrays are pairwise
    distinct and none of them is [g] itself.  Writes through [g] then
    touch no object of [h0]. *)
Definition ownsGrid (h0 h : Store) (g : loc) (grid : Grid) : Prop :=
  (g ∉ dom h0) ∧
  ∃ rows, h !! g = Some (ObjArray rows) ∧ NoDup rows ∧ (g ∉ rows) ∧
    Forall2 (fun r row =>
      (r ∉ dom h0) ∧
      ∃ cls, h !! r = Some (ObjArray cls) ∧
        Forall2 (fun cl c => (cl ∉ dom h0) ∧ h !! cl = Some (ObjCell c))
                cls row)
      rows grid.

(** ** constants.ts: the catalogue and generateHand *)

Definition MAX_BLOCK_SIZE : Z := 3.

Definition BLOCK_COLORS : list string :=
  ["#ef4444"; "#f97316"; "#eab308"; "#22c55e";
   "#06b6d4"; "#3b82f6"; "#a855f7"; "#ec4899"]%string.

(** An entry of [SHAPES].  The decimal literal of [probability] is read
    as a rational; no code reads the field. *)
Record ShapeEntry := mkShape {
  shape_cells : list Coordinate;
  probability : QArith_base.Q
}.

Definition SHAPES : list ShapeEntry :=
  [ mkShape [mkCoordinate 0 0] (QArith_base.Qmake 10 10);
    mkShape [mkCoordinate 0 0; mkCoordinate 1 0] (QArith_base.Qmake 8 10);
    mkShape [mkCoordinate 0 0; mkCoordinate 0 1] (QArith_base.Qmake 8 10);
    mkShape [mkCoordinate 0 0; mkCoordinate 1 1] (QArith_base.Qmake 4 10);
    mkShape [mkCoordinate 0 0; mkCoordinate 1 0; mkCoordinate 2 0] (QArith_base.Qmake 6 10);
    mkShape [mkCoordinate 0 0; mkCoordinate 0 1; mkCoordinate 0 2] (QArith_base.Qmake 6 10);
    mkShape [mkCoordinate 0 0; mkCoordinate 1 0; mkCoordinate 0 1] (QArith_base.Qmake 6 10);
    mkShape [mkCoordinate 0 0; mkCoordinate 1 0; mkCoordinate 1 1] (QArith_base.Qmake 6 10);
    mkShape [mkCoordinate 0 0; mkCoordinate 0 1; mkCoordinate 1 1] (QArith_base.Qmake 6 10);
    mkShape [mkCoordinate 1 0; mkCoordinate 0 1; mkCoordinate 1 1] (QArith_base.Qmake 6 10) ].

(** What one turn of the loop of [generateHand] takes from
    [Math.random]: [Math.floor(Math.random() * SHAPES.length)],
    [Math.floor(Math.random() * BLOCK_COLORS.length)] and
    [Math.random().toString(36).substr(2, 9)]. *)
Record Draw := mkDraw {
  draw_shape : nat;
  draw_color : nat;
  draw_id : string
}.

(** The two indices are below the lengths of the arrays they index, as
    [Math.floor] of a number of [0, 1) times the length is. *)
Definition drawInRange (d : Draw) : Prop :=
  (draw_shape d < length SHAPES)%nat ∧ (draw_color d < length BLOCK_COLORS)%nat.

(** The loop of [generateHand]; [rnd i] is what turn [i] draws.  [None]
    stands for an index outside its array, which [drawInRange]
    excludes. *)
Fixpoint generateHandLoop (rnd : nat → Draw) (i n : nat)
    : option (list BlockDefinition) :=
  match n with
  | O => Some []
  | S n' =>
      shape ← SHAPES !! draw_shape (rnd i);
      color ← BLOCK_COLORS !! draw_color (rnd i);
      rest ← generateHandLoop rnd (S i) n';
      Some (mkBlock (draw_id (rnd i)) (shape_cells shape) color None :: rest)
  end.

(** [generateHand(count, difficulty)] with its random source made
    explicit; the loop [for (let i = 0; i < count; i++)] runs
    [max(count, 0)] times. *)
Definition generateHand (rnd : nat → Draw) (count difficulty : Z)
    : option (list BlockDefinition) :=
  generateHandLoop rnd 0 (Z.to_nat count).

(** ** Sizes and counters of the components *)

(** [Math.max(...l)]; on the empty list JavaScript yields [-Infinity],
    for which the model has no number: the value there is arbitrary. *)
Definition Math_max (l : list Z) : Z :=
  match l with
  | [] => 0
  | z :: l' => foldl Z.max z l'
  end.

(** [Math.max(...block.cells.map(c => c.x)) + 1] and the same for [y]:
    [width] and [height] of the Block component, [blockWidth] and
    [blockHeight] of [handleDragMove]. *)
Definition blockWidth (block : BlockDefinition) : Z :=
  Math_max (coord_x <$> cells block) + 1.

Definition blockHeight (block : BlockDefinition) : Z :=
  Math_max (coord_y <$> cells block) + 1.

(** [grid.flat().filter(c => c.status === 'junk').length], the junk
    counter of the stats bar. *)
Definition junkOnBoard (grid : Grid) : Z :=
  Z.of_nat (length (filter (fun c => status c = junk) (concat grid))).

(** A shape as the catalogue has them and as rotation keeps them: at
    least one offset, least x and least y both 0. *)
Definition normalised (block : BlockDefinition) : Prop :=
  cells block ≠ [] ∧
  isMin coord_x (cells block) 0 ∧ isMin coord_y (cells block) 0.

(** ** The App component: state and handlers

    The state of the component is the record of its [useState] cells; a
    handler is a function from the state it sees to the state its
    setters leave, together with the calls it makes to
    [soundManager.play].  The state that the handler reads and the state
    that its setters update are the same: the handler of the latest
    render, run when no update is pending.  A handler that can throw
    returns an [option].
    Pixel coordinates are numbers the model does not compute with; they
    are of a type [Pixel] left open.  The effects ([useEffect]: the save
    to [localStorage], the high score, the game-over sound) are not
    embedded. *)

Module Sound.
Inductive t := rotate | place | perfect | junk | gameOver.
End Sound.

Module HistoryState.
Record t := mk {
  grid : Grid;
  score : Z;
  hand : list BlockDefinition;
  turn : Z;
  isGameOver : bool;
  combo : Z
}.
End HistoryState.

Module App.

Record State (Pixel : Type) := mkState {
  grid : Grid;
  score : Z;
  highScore : Z;
  hand : list BlockDefinition;
  turn : Z;
  combo : Z;
  isGameOver : bool;
  history : list HistoryState.t;
  tutorialOpen : bool;
  isMuted : bool;
  dragBlock : option BlockDefinition;
  dragPosition : option (Pixel * Pixel);
  ghostPosition : option Coordinate
}.

Arguments mkState {Pixel}.
Arguments grid {Pixel}.
Arguments score {Pixel}.
Arguments highScore {Pixel}.
Arguments hand {Pixel}.
Arguments turn {Pixel}.
Arguments combo {Pixel}.
Arguments isGameOver {Pixel}.
Arguments history {Pixel}.
Arguments tutorialOpen {Pixel}.
Arguments isMuted {Pixel}.
Arguments dragBlock {Pixel}.
Arguments dragPosition {Pixel}.
Arguments ghostPosition {Pixel}.

(** The initial values of the [useState] cells. *)
Definition initial {Pixel} : State Pixel :=
  mkState createEmptyGrid 0 0 [] 1 0 false [] false false None None None.

(** [startNewGame]; [rnd] is the random source of its [generateHand]. *)
Definition startNewGame {Pixel} (rnd : nat → Draw) (s : State Pixel)
    : option (State Pixel * list Sound.t) :=
  newHand ← generateHand rnd 3 1;
  Some (mkState createEmptyGrid 0 (highScore s) newHand 1 0 false []
                (tutorialOpen s) (isMuted s)
                (dragBlock s) (dragPosition s) (ghostPosition s),
        [Sound.rotate]).

(** [handleUndo]: [history[history.length - 1]] and
    [history.slice(0, -1)]. *)
Definition handleUndo {Pixel} (s : State Pixel)
    : State Pixel * list Sound.t :=
  if decide (length (history s) = 0%nat) then (s, [])
  else
    match last (history s) with
    | None => (s, [])
    | Some previousState =>
        let newHistory := take (length (history s) - 1) (history s) in
        (mkState (HistoryState.grid previousState)
                 (HistoryState.score previousState)
                 (highScore s)
                 (HistoryState.hand previousState)
                 (HistoryState.turn previousState)
                 (HistoryState.combo previousState)
                 (HistoryState.isGameOver previousState)
                 newHistory
                 (tutorialOpen s) (isMuted s)
                 (dragBlock s) (dragPosition s) (ghostPosition s),
         [Sound.rotate])
    end.

(** [currentHand.map(b => b.id === block.id ? rotateBlockDefinition(b) : b)] *)
Definition rotateInHand (block : BlockDefinition)
    (currentHand : list BlockDefinition) : list BlockDefinition :=
  (fun b => if decide (block_id b = block_id block)
            then rotateBlockDefinition b else b) <$> currentHand.

Definition handleRotate {Pixel} (block : BlockDefinition) (s : State Pixel)
    : State Pixel * list Sound.t :=
  (mkState (grid s) (score s) (highScore s)
           (rotateInHand block (hand s))
           (turn s) (combo s) (isGameOver s) (history s)
           (tutorialOpen s) (isMuted s)
           (dragBlock s) (dragPosition s) (ghostPosition s),
   [Sound.rotate]).

Definition handleDragStart {Pixel} (block : BlockDefinition)
    (startX startY : Pixel) (s : State Pixel) : State Pixel :=
  mkState (grid s) (score s) (highScore s) (hand s) (turn s) (combo s)
          (isGameOver s) (history s) (tutorialOpen s) (isMuted s)
          (Some block) (Some (startX, startY)) (ghostPosition s).


(** [currentStateSnapshot] *)
Definition snapshot {Pixel} (s : State Pixel) : HistoryState.t :=
  HistoryState.mk (grid s) (score s) (hand s) (turn s) (isGameOver s)
                  (combo s).

(** [[...prev.slice(-19), currentStateSnapshot]] *)
Definition pushHistory (prev : list HistoryState.t) (h : HistoryState.t)
    : list HistoryState.t :=
  drop (length prev - 19) prev ++ [h].

(** The sound of a drop. *)
Definition dropSound (linesCleared junkCreated : Z) : Sound.t :=
  if decide (linesCleared > 0) then
    if decide (junkCreated > 0) then Sound.junk else Sound.perfect
  else Sound.place.

(** [handleDragEnd]; [rnd] is the random source of the [generateHand]
    that refills an empty hand.  [None] when [placeBlockAndProcess] or
    [canPlaceAny] throws. *)
Definition handleDragEnd {Pixel} (rnd : nat → Draw) (s : State Pixel)
    : option (State Pixel * list Sound.t) :=
  match dragBlock s, ghostPosition s with
  | Some block, Some ghost =>
      let newHistory := pushHistory (history s) (snapshot s) in
      r ← placeBlockAndProcess (grid s) block (coord_x ghost) (coord_y ghost)
            (combo s);
      let sounds := [dropSound (linesCleared r) (junkCreated r)] in
      let newHand :=
        filter (fun b => block_id b ≠ block_id block) (hand s) in
      if decide (length newHand = 0%nat) then
        nextHand ← generateHand rnd 3 (turn s);
        movable ← canPlaceAny (newGrid r) nextHand;
        Some (mkState (newGrid r) (score s + points r) (highScore s)
                      nextHand (turn s + 1) (newCombo r)
                      (if movable : bool then isGameOver s else true)
                      newHistory (tutorialOpen s) (isMuted s)
                      None None None,
              sounds)
      else
        movable ← canPlaceAny (newGrid r) newHand;
        Some (mkState (newGrid r) (score s + points r) (highScore s)
                      newHand (turn s) (newCombo r)
                      (if movable : bool then isGameOver s else true)
                      newHistory (tutorialOpen s) (isMuted s)
                      None None None,
              sounds)
  | _, _ =>
      Some (mkState (grid s) (score s) (highScore s) (hand s) (turn s)
                    (combo s) (isGameOver s) (history s)
                    (tutorialOpen s) (isMuted s) None None None,
            [])
  end.

(** The two style helpers read the same truth value:
    [ghostPosition && dragBlock?.cells.some(c => ...)]. *)
Definition isGhost {Pixel} (s : State Pixel) (x y : Z) : bool :=
  match ghostPosition s, dragBlock s with
  | Some ghost, Some block =>
      existsb (fun c =>
        bool_decide (coord_x ghost + coord_x c = x) &&
        bool_decide (coord_y ghost + coord_y c = y))
        (cells block)
  | _, _ => false
  end.

(** [getCellStyle]: the [backgroundColor] of the object it returns;
    [None] when the object has none, or has [undefined] for it. *)
Definition getCellStyle {Pixel} (s : State Pixel) (cell : CellData)
    (x y : Z) : option string :=
  match isGhost s x y, dragBlock s with
  | true, Some block => Some (block_color block)
  | _, _ => if decide (status cell = filled) then cell_color cell else None
  end.

(** A snapshot, or the visible part of a state, is sound: a board of
    the game, a score and a combo counter that are not negative, a hand
    of normalised shapes, and a game-over flag that is set exactly when
    [canPlaceAny] finds no move. *)
Definition soundPosition (grid : Grid) (score combo : Z)
    (hand : list BlockDefinition) (isGameOver : bool) : Prop :=
  reachable grid ∧ 0 ≤ score ∧ 0 ≤ combo ∧ Forall normalised hand ∧
  (isGameOver = true ↔ canPlaceAny grid hand = Some false).

(** The invariant of the component. *)
Definition Inv {Pixel} (s : State Pixel) : Prop :=
  soundPosition (grid s) (score s) (combo s) (hand s) (isGameOver s) ∧
  Forall (fun h =>
    soundPosition (HistoryState.grid h) (HistoryState.score h)
                  (HistoryState.combo h) (HistoryState.hand h)
                  (HistoryState.isGameOver h)) (history s) ∧
  (length (history s) ≤ 20)%nat ∧
  (∀ p, ghostPosition s = Some p → is_Some (dragBlock s)) ∧
  (∀ b, dragBlock s = Some b →
        isGameOver s = false ∧
        ∀ p, ghostPosition s = Some p →
             canPlaceBlock (grid s) b (coord_x p) (coord_y p) = Some true).

End App.

(** ** Further vocabulary for boards *)

(** The cell at [p] is junk. *)
Definition junkAt (grid : Grid) (p : Z * Z) : Prop :=
  status <$> cellAt grid p.1 p.2 = Some junk.

#[global] Instance junkAt_dec grid p : Decision (junkAt grid p).
Proof. unfold junkAt. apply _. Defined.

(** The identifiers of the cells of [g'] are those of [g], place by
    place. *)
Definition sameKeys (g g' : Grid) : Prop :=
  ∀ x y, cell_id <$> cellAt g' x y = cell_id <$> cellAt g x y.

(** The colour of a cell goes with its status: none on an empty cell,
    the junk colour on a junk cell, some colour on a filled cell. *)
Definition colourFitsStatus (c : CellData) : Prop :=
  match status c with
  | empty => cell_color c = None
  | junk => cell_color c = Some JUNK_COLOR
  | filled => is_Some (cell_color c)
  end.

(** ** States of the component for the examples *)

(** A random source: turn [j] picks the shape [j mod 10], the colour
    [j mod 8] and an identifier that ends in the last digit of [j]. *)
Definition firstDraw (j : nat) : Draw :=
  mkDraw (j mod 10) (j mod 8)
         ("k3v9x0q1" +:+ digit (Z.of_nat (j mod 10)))%string.

(** The domino of a hand of two blocks, dragged over the corner of the
    empty board. *)
Definition stateDragging : App.State Z :=
  App.mkState createEmptyGrid 0 0 [dominoA; shapeL] 1 0 false []
              false false (Some dominoA) (Some (120, 340))
              (Some (mkCoordinate 0 0)).

(** The state after the drop (the state itself if the handler throws). *)
Definition statePlaced : App.State Z :=
  from_option fst stateDragging (App.handleDragEnd firstDraw stateDragging).

(** * Properties of the engine *)

(** ** The engine at work *)

(** A horizontal domino on the empty board: no line, 20 points, and the
    streak is lost. *)
Example domino_on_empty_board :
  (r ← placeBlockAndProcess createEmptyGrid dominoA 0 0 5;
   Some (linesCleared r, junkCreated r, points r, newCombo r))
  = Some (0, 0, 20, 0).
Proof. by vm_compute. Qed.

(** The reverse L that completes row 0 with two of its cells: the row is
    cleared, its third cell becomes junk, and the streak is lost. *)
Example reverse_L_leaves_junk :
  (r ← placeBlockAndProcess boardFour shapeRevL 4 0 2;
   Some (linesCleared r, junkCreated r, points r, newCombo r,
         cellAt (newGrid r) 5 1))
  = Some (1, 1, 100, 0,
          Some (mkCell "cell-5-1" junk (Some JUNK_COLOR) None)).
Proof. by vm_compute. Qed.

(** The L-tromino, turned once. *)
Example rotate_shapeL :
  cells (rotateBlockDefinition shapeL)
  = [mkCoordinate 0 0; mkCoordinate 1 0; mkCoordinate 1 1].
Proof. by vm_compute. Qed.

(** No anchor takes the vertical tromino or any of its rotations on a
    board whose free cells are isolated. *)
Example no_move_left :
  canPlaceAny
    ((fun y => (fun x =>
        mkCell (cellKey x y)
               (if decide ((x + y) mod 2 = 0) then empty else junk)
               None None) <$> indices) <$> indices)
    [shapeI; dominoA]
  = Some false.
Proof. by vm_compute. Qed.

(** ** Array reads and writes *)

Section grid_access.
Implicit Types (grid : Grid) (x y : Z) (c : CellData).

Lemma outOfBounds_false x y : outOfBounds x y = false ↔ inBounds x y.
Proof.
  unfold outOfBounds, inBounds, GRID_SIZE.
  rewrite !orb_false_iff, !bool_decide_eq_false. lia.
Qed.

Lemma outOfBounds_true x y : outOfBounds x y = true ↔ ¬ inBounds x y.
Proof.
  rewrite <- outOfBounds_false. destruct (outOfBounds x y); naive_solver.
Qed.

Lemma elem_of_indices i : i ∈ indices ↔ 0 ≤ i < GRID_SIZE.
Proof. unfold indices. rewrite elem_of_seqZ. unfold GRID_SIZE. lia. Qed.

Lemma lookupZ_Some {A} (a : list A) i v :
  lookupZ a i = Some v ↔ 0 ≤ i ∧ a !! Z.to_nat i = Some v.
Proof. unfold lookupZ. case_decide; naive_solver. Qed.

Lemma lookupZ_is_Some {A} (a : list A) i :
  is_Some (lookupZ a i) ↔ 0 ≤ i < Z.of_nat (length a).
Proof.
  unfold lookupZ. case_decide.
  - rewrite lookup_lt_is_Some. lia.
  - split; [intros [? ?]; discriminate | lia].
Qed.

Lemma lookupZ_of_nat {A} (a : list A) (i : nat) :
  lookupZ a (Z.of_nat i) = a !! i.
Proof. unfold lookupZ. rewrite decide_True by lia. by rewrite Nat2Z.id. Qed.

Lemma cellAt_Some grid x y c :
  cellAt grid x y = Some c ↔
  ∃ row, lookupZ grid y = Some row ∧ lookupZ row x = Some c.
Proof.
  unfold cellAt. destruct (lookupZ grid y) as [row|]; simpl; naive_solver.
Qed.

Lemma cellAt_inBounds grid x y c :
  wf_grid grid → cellAt grid x y = Some c → inBounds x y.
Proof.
  intros [Hlen Hrows] (row & Hr & Hc)%cellAt_Some.
  assert (is_Some (lookupZ grid y)) as Hy%lookupZ_is_Some by eauto.
  assert (is_Some (lookupZ row x)) as Hx%lookupZ_is_Some by eauto.
  apply lookupZ_Some in Hr as [_ Hr].
  rewrite Forall_lookup in Hrows. specialize (Hrows _ _ Hr). simpl in Hrows.
  unfold inBounds, GRID_SIZE. lia.
Qed.

Lemma cellAt_is_Some grid x y :
  wf_grid grid → inBounds x y → is_Some (cellAt grid x y).
Proof.
  intros [Hlen Hrows] [Hx Hy]. unfold GRID_SIZE in *.
  destruct (proj2 (lookupZ_is_Some grid y)) as [row Hr]; [lia|].
  pose proof Hr as [_ Hr']%lookupZ_Some.
  rewrite Forall_lookup in Hrows. specialize (Hrows _ _ Hr'). simpl in Hrows.
  destruct (proj2 (lookupZ_is_Some row x)) as [c Hc]; [lia|].
  exists c. apply cellAt_Some. eauto.
Qed.

(** A write succeeds exactly where a read does. *)
Lemma writeCell_is_Some grid x y f :
  is_Some (writeCell grid x y f) ↔ is_Some (cellAt grid x y).
Proof.
  unfold writeCell, cellAt.
  destruct (lookupZ grid y) as [row|]; simpl; [|done].
  destruct (lookupZ row x); simpl; [|done].
  split; intros _; eexists; reflexivity.
Qed.

Lemma lookupZ_insert_eq {A} (a : list A) i v :
  is_Some (lookupZ a i) → lookupZ (<[Z.to_nat i := v]> a) i = Some v.
Proof.
  intros Hi%lookupZ_is_Some. apply lookupZ_Some. split; [lia|].
  apply list_lookup_insert_eq. lia.
Qed.

Lemma lookupZ_insert_ne {A} (a : list A) i j v :
  0 ≤ i → j ≠ i → lookupZ (<[Z.to_nat i := v]> a) j = lookupZ a j.
Proof.
  intros Hi Hne. unfold lookupZ. case_decide; [|done].
  apply list_lookup_insert_ne. lia.
Qed.

(** What a read sees after a write. *)
Lemma cellAt_writeCell grid grid' x y f x' y' :
  writeCell grid x y f = Some grid' →
  cellAt grid' x' y' =
    if decide (x' = x ∧ y' = y) then f <$> cellAt grid x y
    else cellAt grid x' y'.
Proof.
  unfold writeCell. intros Hw.
  destruct (lookupZ grid y) as [row|] eqn:Hr; simpl in Hw; [|done].
  destruct (lookupZ row x) as [old|] eqn:Ho; simpl in Hw; [|done].
  injection Hw as <-.
  pose proof Hr as [Hy _]%lookupZ_Some. pose proof Ho as [Hx _]%lookupZ_Some.
  unfold cellAt. destruct (decide (y' = y)) as [->|Hne].
  - rewrite lookupZ_insert_eq by (by eexists). rewrite Hr. simpl.
    destruct (decide (x' = x)) as [->|Hnex].
    + rewrite lookupZ_insert_eq by (by eexists). rewrite Ho.
      by rewrite decide_True.
    + rewrite lookupZ_insert_ne by done. rewrite decide_False; naive_solver.
  - rewrite lookupZ_insert_ne by done. rewrite decide_False; naive_solver.
Qed.

Lemma writeCell_wf grid grid' x y f :
  writeCell grid x y f = Some grid' → wf_grid grid → wf_grid grid'.
Proof.
  unfold writeCell. intros Hw [Hlen Hrows].
  destruct (lookupZ grid y) as [row|] eqn:Hr; simpl in Hw; [|done].
  destruct (lookupZ row x) as [old|] eqn:Ho; simpl in Hw; [|done].
  injection Hw as <-. apply lookupZ_Some in Hr as [Hy Hr].
  split; [by rewrite length_insert|].
  apply Forall_insert; [done|]. rewrite length_insert.
  rewrite Forall_lookup in Hrows. by apply (Hrows _ _ Hr).
Qed.

(** A property of every cell, by coordinates. *)
Lemma Forall_cells (P : CellData → Prop) grid :
  Forall (Forall P) grid ↔ ∀ x y c, cellAt grid x y = Some c → P c.
Proof.
  split.
  - intros HF x y c (row & Hr & Hc)%cellAt_Some.
    apply lookupZ_Some in Hr as [_ Hr]. apply lookupZ_Some in Hc as [_ Hc].
    rewrite Forall_lookup in HF. specialize (HF _ _ Hr).
    rewrite Forall_lookup in HF. by apply (HF _ _ Hc).
  - intros H. apply Forall_lookup. intros j row Hr.
    apply Forall_lookup. intros i c Hc.
    apply (H (Z.of_nat i) (Z.of_nat j)). apply cellAt_Some. exists row.
    by rewrite !lookupZ_of_nat.
Qed.

End grid_access.

(** The boards of the examples are boards. *)

Lemma createEmptyGrid_wf : wf_grid createEmptyGrid.
Proof. apply (bool_decide_unpack _). by vm_compute. Qed.

Lemma boardFour_wf : wf_grid boardFour.
Proof. apply (bool_decide_unpack _). by vm_compute. Qed.

Lemma boardFive_wf : wf_grid boardFive.
Proof. apply (bool_decide_unpack _). by vm_compute. Qed.

Lemma boardColumn_wf : wf_grid boardColumn.
Proof. apply (bool_decide_unpack _). by vm_compute. Qed.

(** ** canPlaceBlock *)

Section canPlaceBlock_facts.
Implicit Types (grid : Grid) (block : BlockDefinition).

Lemma canPlaceCells_true grid cs tx ty :
  canPlaceCells grid cs tx ty = Some true ↔
  ∀ cell, cell ∈ cs →
    inBounds (tx + coord_x cell) (ty + coord_y cell) ∧
    ∃ c, cellAt grid (tx + coord_x cell) (ty + coord_y cell) = Some c
         ∧ status c = empty.
Proof.
  induction cs as [|cell rest IH]; simpl.
  { split; [|done]. intros _ cell Hin. by apply elem_of_nil in Hin. }
  setoid_rewrite elem_of_cons.
  destruct (outOfBounds _ _) eqn:Hob.
  { apply outOfBounds_true in Hob. split; [done|].
    intros H. destruct (H cell) as [? _]; [by left|done]. }
  apply outOfBounds_false in Hob.
  destruct (cellAt grid _ _) as [c|] eqn:Hc; simpl.
  2: { split; [done|]. intros H.
       destruct (H cell) as [_ (c & Hc' & _)]; [by left|congruence]. }
  case_decide as Hst.
  { split; [done|]. intros H.
    destruct (H cell) as [_ (c' & Hc' & He)]; [by left|]. congruence. }
  rewrite IH. split.
  - intros H cell' [->|Hin]; [|by apply H].
    split; [done|]. exists c. split; [done|].
    by destruct (status c); try done; exfalso; apply Hst.
  - intros H cell' Hin. apply H. by right.
Qed.

(** On a board the function never throws. *)
Lemma canPlaceCells_total grid cs tx ty :
  wf_grid grid → is_Some (canPlaceCells grid cs tx ty).
Proof.
  intros Hwf. induction cs as [|cell rest IH]; simpl; [by eexists|].
  destruct (outOfBounds _ _) eqn:Hob; [by eexists|].
  apply outOfBounds_false in Hob.
  destruct (cellAt_is_Some grid _ _ Hwf Hob) as [c ->]. simpl.
  case_decide; [by eexists|done].
Qed.

Lemma canPlaceBlock_fits grid block tx ty :
  canPlaceBlock grid block tx ty = Some true ↔ fits grid block tx ty.
Proof. apply canPlaceCells_true. Qed.

End canPlaceBlock_facts.

(** ** Reading boards out of the store *)

Section store_reads.
Implicit Types (h : Store) (grid : Grid).

Lemma readArray_Some h l a : readArray h l = Some a ↔ h !! l = Some (ObjArray a).
Proof.
  unfold readArray. destruct (h !! l) as [[]|]; naive_solver.
Qed.

Lemma readCell_Some h l c : readCell h l = Some c ↔ h !! l = Some (ObjCell c).
Proof.
  unfold readCell. destruct (h !! l) as [[]|]; naive_solver.
Qed.

Lemma lookupZ_Forall2 {A B} (P : A → B → Prop) (l : list A) (k : list B) i :
  Forall2 P l k →
  match lookupZ l i, lookupZ k i with
  | Some a, Some b => P a b
  | None, None => True
  | _, _ => False
  end.
Proof.
  intros HF. unfold lookupZ. case_decide; [|done].
  destruct (l !! Z.to_nat i) as [a|] eqn:Ha.
  - destruct (Forall2_lookup_l _ _ _ _ _ HF Ha) as (b & -> & ?). done.
  - destruct (k !! Z.to_nat i) as [b|] eqn:Hb; [|done].
    destruct (Forall2_lookup_r _ _ _ _ _ HF Hb) as (a & ? & ?). congruence.
Qed.

(** A read through the references sees the board value. *)
Lemma cellAtH_readGrid h gl grid x y :
  readGrid h gl = Some grid → cellAtH h gl x y = cellAt grid x y.
Proof.
  unfold readGrid, cellAtH, cellAt. intros Hg.
  destruct (readArray h gl) as [rows|]; simpl in *; [|done].
  apply mapM_Some in Hg.
  pose proof (lookupZ_Forall2 _ _ _ y Hg) as Hy.
  destruct (lookupZ rows y) as [r|], (lookupZ grid y) as [row|];
    simpl; try done.
  unfold readRow in Hy.
  destruct (readArray h r) as [cls|]; simpl in *; [|done].
  apply mapM_Some in Hy.
  pose proof (lookupZ_Forall2 _ _ _ x Hy) as Hx.
  destruct (lookupZ cls x) as [cl|], (lookupZ row x) as [c|];
    simpl; done.
Qed.

(** [canPlaceBlock] on the store answers as on the value and leaves the
    store as it found it. *)
Lemma canPlaceCellsH_pure h gl grid cs tx ty :
  readGrid h gl = Some grid →
  canPlaceCellsH h gl cs tx ty =
    (fun b => (b, h)) <$> canPlaceCells grid cs tx ty.
Proof.
  intros Hg. induction cs as [|cell rest IH]; simpl; [done|].
  destruct (outOfBounds _ _); [done|].
  rewrite (cellAtH_readGrid _ _ _ _ _ Hg).
  destruct (cellAt grid _ _) as [c|]; simpl; [|done].
  case_decide; done.
Qed.

End store_reads.

(** C5.  For every shape (with or without offsets) and every integer
    anchor, [canPlaceBlock] returns true exactly when every absolute cell
    anchor + offset lies in [0, 6) on both axes and is an empty cell of
    the grid; on a board (6 rows of 6 cells) it always returns, so it
    returns false otherwise; run on a store that holds the grid, it gives
    the same answer and hands the store back unchanged. *)
Theorem canPlaceBlock_exact grid block x y :
  (canPlaceBlock grid block x y = Some true ↔ fits grid block x y) ∧
  (wf_grid grid →
   ∃ b, canPlaceBlock grid block x y = Some b ∧
        (b = true ↔ fits grid block x y)) ∧
  (∀ h gl, readGrid h gl = Some grid →
           canPlaceBlockH h gl block x y =
             (fun b => (b, h)) <$> canPlaceBlock grid block x y).
Proof.
  split; [apply canPlaceBlock_fits|]. split.
  - intros Hwf.
    destruct (canPlaceCells_total grid (cells block) x y Hwf) as [b Hb].
    exists b. split; [done|].
    rewrite <- canPlaceBlock_fits. unfold canPlaceBlock. rewrite Hb.
    split; congruence.
  - intros h gl Hg. by apply canPlaceCellsH_pure.
Qed.

(** C5, witness: the L-tromino on the board with four cells of row 0
    filled. *)
Lemma canPlaceBlock_exact_witness :
  wf_grid boardFour ∧
  ∃ b, canPlaceBlock boardFour shapeL 3 0 = Some b ∧
       (b = true ↔ fits boardFour shapeL 3 0).
Proof.
  split; [exact boardFour_wf|].
  apply (canPlaceBlock_exact boardFour shapeL 3 0). exact boardFour_wf.
Defined.

(** ** rotateBlockDefinition *)

Section rotation.
Implicit Types (block : BlockDefinition) (l : list Coordinate).

#[local] Instance cellsOrdered_total : Total cellsOrdered.
Proof.
  intros a b. unfold cellsOrdered, compareCells.
  repeat case_decide; lia.
Qed.

#[local] Instance cellsOrdered_trans : Transitive cellsOrdered.
Proof.
  intros a b c. unfold cellsOrdered, compareCells.
  repeat case_decide; lia.
Qed.

#[local] Instance cellsOrdered_antisymm : AntiSymm (=) cellsOrdered.
Proof.
  intros [ax ay] [bx by_]. unfold cellsOrdered, compareCells. simpl.
  repeat case_decide; intros; f_equal; lia.
Qed.

(** Whatever sorting algorithm runs, the sorted array is this one. *)
Lemma sort_cells_unique l l' :
  l' ≡ₚ l → Sorted cellsOrdered l' → l' = sortCells l.
Proof.
  intros Hp Hs. apply (Sorted_unique cellsOrdered); [done| |].
  - apply Sorted_merge_sort, _.
  - unfold sortCells. by rewrite merge_sort_Permutation.
Qed.

Lemma elem_of_sortCells c l : c ∈ sortCells l ↔ c ∈ l.
Proof. unfold sortCells. by rewrite merge_sort_Permutation. Qed.

Lemma foldl_min_spec (l : list Z) z :
  (foldl Z.min z l = z ∨ foldl Z.min z l ∈ l) ∧
  foldl Z.min z l ≤ z ∧ ∀ w, w ∈ l → foldl Z.min z l ≤ w.
Proof.
  revert z. induction l as [|w l IH]; intros z; simpl.
  { split; [by left|]. split; [lia|]. intros w Hw. by apply elem_of_nil in Hw. }
  destruct (IH (Z.min z w)) as (Hin & Hle & Hall).
  split; [|split].
  - destruct Hin as [Heq|Hin]; [|right; by right].
    destruct (Z.min_spec z w) as [[_ Hm]|[_ Hm]].
    + left. lia.
    + right. rewrite Heq, Hm. by left.
  - lia.
  - intros w' [->|Hw']%elem_of_cons; [lia|by apply Hall].
Qed.

Lemma Math_min_spec (l : list Z) :
  l ≠ [] → Math_min l ∈ l ∧ ∀ w, w ∈ l → Math_min l ≤ w.
Proof.
  destruct l as [|z l]; [done|]. intros _. simpl.
  destruct (foldl_min_spec l z) as (Hin & Hle & Hall). split.
  - destruct Hin as [->|Hin]; [by left|by right].
  - intros w [->|Hw]%elem_of_cons; [done|by apply Hall].
Qed.

Lemma Math_min_unique (l : list Z) m :
  m ∈ l → (∀ w, w ∈ l → m ≤ w) → Math_min l = m.
Proof.
  intros Hm Hall. assert (l ≠ []) as Hne by (by intros ->; apply elem_of_nil in Hm).
  destruct (Math_min_spec l Hne) as [Hin Hle].
  specialize (Hle _ Hm). specialize (Hall _ Hin). lia.
Qed.

Lemma isMin_Math_min f l : l ≠ [] → isMin f l (Math_min (f <$> l)).
Proof.
  intros Hne. assert (f <$> l ≠ []) as Hne' by (by destruct l).
  destruct (Math_min_spec _ Hne') as [Hin Hle]. split.
  - apply list_elem_of_fmap in Hin as (c & -> & Hc). eauto.
  - intros c Hc. apply Hle, list_elem_of_fmap. eauto.
Qed.

Lemma isMin_exists f l : l ≠ [] → ∃ m, isMin f l m.
Proof. intros Hne. eexists. by apply isMin_Math_min. Qed.

Lemma isMax_exists f l : l ≠ [] → ∃ m, isMax f l m.
Proof.
  intros Hne. destruct (isMin_exists (fun c => - f c) l Hne) as (m & (c & Hc & Hm) & Hle).
  exists (- m). split.
  - exists c. split; [done|lia].
  - intros c' Hc'. specialize (Hle _ Hc'). simpl in Hle. lia.
Qed.

Lemma bbox_exists l : l ≠ [] → ∃ a A b B, bbox l a A b B.
Proof.
  intros Hne.
  destruct (isMin_exists coord_x l Hne) as [a Ha].
  destruct (isMax_exists coord_x l Hne) as [A HA].
  destruct (isMin_exists coord_y l Hne) as [b Hb].
  destruct (isMax_exists coord_y l Hne) as [B HB].
  by exists a, A, b, B.
Qed.

Lemma isMin_unique f l m m' : isMin f l m → isMin f l m' → m = m'.
Proof.
  intros [(c & Hc & Hm) Hle] [(c' & Hc' & Hm') Hle'].
  specialize (Hle _ Hc'). specialize (Hle' _ Hc). lia.
Qed.

(** One rotation, in terms of the bounding box of the offsets: the
    point (x, y) goes to (B - y, x - a), and the box turns with it. *)
Lemma rotate_bbox block a A b B :
  bbox (cells block) a A b B →
  Math_min (coord_x <$>
     ((fun cell => mkCoordinate (- coord_y cell) (coord_x cell))
        <$> cells block)) = - B ∧
  Math_min (coord_y <$>
     ((fun cell => mkCoordinate (- coord_y cell) (coord_x cell))
        <$> cells block)) = a ∧
  (∀ c, c ∈ cells (rotateBlockDefinition block) ↔
        ∃ c0, c0 ∈ cells block ∧
              c = mkCoordinate (B - coord_y c0) (coord_x c0 - a)) ∧
  bbox (cells (rotateBlockDefinition block)) 0 (B - b) 0 (A - a).
Proof.
  intros ([(ca & Hca & Ha) Hale] & [(cA & HcA & HA) HAle] &
          [(cb & Hcb & Hb) Hble] & [(cB & HcB & HB) HBle]).
  assert (Math_min (coord_x <$>
     ((fun cell => mkCoordinate (- coord_y cell) (coord_x cell))
        <$> cells block)) = - B) as HminX.
  { apply Math_min_unique.
    - apply list_elem_of_fmap.
      exists (mkCoordinate (- coord_y cB) (coord_x cB)).
      split; [simpl; lia|]. apply list_elem_of_fmap. by exists cB.
    - intros w (c & -> & (c0 & -> & Hc0)%list_elem_of_fmap)%list_elem_of_fmap.
      simpl. specialize (HBle _ Hc0). lia. }
  assert (Math_min (coord_y <$>
     ((fun cell => mkCoordinate (- coord_y cell) (coord_x cell))
        <$> cells block)) = a) as HminY.
  { apply Math_min_unique.
    - apply list_elem_of_fmap.
      exists (mkCoordinate (- coord_y ca) (coord_x ca)).
      split; [simpl; lia|]. apply list_elem_of_fmap. by exists ca.
    - intros w (c & -> & (c0 & -> & Hc0)%list_elem_of_fmap)%list_elem_of_fmap.
      simpl. by apply Hale. }
  assert (∀ c, c ∈ cells (rotateBlockDefinition block) ↔
        ∃ c0, c0 ∈ cells block ∧
              c = mkCoordinate (B - coord_y c0) (coord_x c0 - a)) as Hmem.
  { intros c. unfold rotateBlockDefinition. simpl.
    rewrite elem_of_sortCells, HminX, HminY. split.
    - intros (c1 & -> & (c0 & -> & Hc0)%list_elem_of_fmap)%list_elem_of_fmap.
      exists c0. split; [done|]. simpl. f_equal; lia.
    - intros (c0 & Hc0 & ->). apply list_elem_of_fmap.
      exists (mkCoordinate (- coord_y c0) (coord_x c0)).
      split; [simpl; f_equal; lia|]. apply list_elem_of_fmap. by exists c0. }
  do 3 (split; [done|]).
  repeat split.
  - exists (mkCoordinate (B - coord_y cB) (coord_x cB - a)).
    split; [apply Hmem; eauto|]. simpl. lia.
  - intros c (c0 & Hc0 & ->)%Hmem. simpl. specialize (HBle _ Hc0). lia.
  - exists (mkCoordinate (B - coord_y cb) (coord_x cb - a)).
    split; [apply Hmem; eauto|]. simpl. lia.
  - intros c (c0 & Hc0 & ->)%Hmem. simpl. specialize (Hble _ Hc0). lia.
  - exists (mkCoordinate (B - coord_y ca) (coord_x ca - a)).
    split; [apply Hmem; eauto|]. simpl. lia.
  - intros c (c0 & Hc0 & ->)%Hmem. simpl. specialize (Hale _ Hc0). lia.
  - exists (mkCoordinate (B - coord_y cA) (coord_x cA - a)).
    split; [apply Hmem; eauto|]. simpl. lia.
  - intros c (c0 & Hc0 & ->)%Hmem. simpl. specialize (HAle _ Hc0). lia.
Qed.

(** Four rotations bring every offset back, shifted by the least x and
    the least y of the shape. *)
Lemma rotate_four block a A b B :
  bbox (cells block) a A b B →
  ∀ c, c ∈ cells (rotations 4 block) ↔
       ∃ c0, c0 ∈ cells block ∧
             c = mkCoordinate (coord_x c0 - a) (coord_y c0 - b).
Proof.
  intros H0.
  destruct (rotate_bbox _ _ _ _ _ H0) as (_ & _ & M1 & H1).
  destruct (rotate_bbox _ _ _ _ _ H1) as (_ & _ & M2 & H2).
  destruct (rotate_bbox _ _ _ _ _ H2) as (_ & _ & M3 & H3).
  destruct (rotate_bbox _ _ _ _ _ H3) as (_ & _ & M4 & _).
  intros c. unfold rotations. simpl. rewrite M4. split.
  - intros (c3 & (c2 & (c1 & (c0 & Hc0 & ->)%M1 & ->)%M2 & ->)%M3 & ->).
    exists c0. split; [done|]. simpl. f_equal; lia.
  - intros (c0 & Hc0 & ->).
    eexists. split.
    { apply M3. eexists. split.
      { apply M2. eexists. split; [apply M1; eauto|reflexivity]. }
      reflexivity. }
    simpl. f_equal; lia.
Qed.

(** Why the theorem below asks for a least x and a least y of 0, which
    every shape of the game has, where it says that four rotations give
    back the offset set: the offset list [(1, 0)], which is no shape of
    the game, comes back from four rotations as [(0, 0)]. *)
Lemma rotate_four_shifted :
  cells shapeShifted ≠ [] ∧
  ¬ (∀ c, c ∈ cells (rotations 4 shapeShifted) ↔ c ∈ cells shapeShifted).
Proof.
  split; [done|]. intros H.
  assert (mkCoordinate 1 0 ∈ cells (rotations 4 shapeShifted)) as Hin
    by (apply H; vm_compute; by left).
  vm_compute in Hin. apply list_elem_of_singleton in Hin. discriminate.
Qed.

(** C6.  For every shape with at least one offset: the offsets of the
    rotated shape are, up to their order, the images
    (-y - minX, x - minY) of the offsets (x, y), where minX and minY are
    the least x and the least y after the turn (x, y) -> (-y, x); their
    least x and least y are both 0; four rotations give back the
    original offset set, a shape being a list of offsets whose least x
    and least y are both 0; a rotation keeps the identifier and the
    colour.  The first parts hold of every list of at least one offset,
    normalised or not, and so does the fourth, which says what four
    rotations give in general: every offset shifted by the least x and
    the least y. *)
Theorem rotate_renormalizes_and_closes block :
  cells block ≠ [] →
  let rotatedCells :=
    (fun cell => mkCoordinate (- coord_y cell) (coord_x cell))
      <$> cells block in
  (∃ minX minY,
     isMin coord_x rotatedCells minX ∧ isMin coord_y rotatedCells minY ∧
     cells (rotateBlockDefinition block) ≡ₚ
       (fun c0 => mkCoordinate (- coord_y c0 - minX) (coord_x c0 - minY))
         <$> cells block) ∧
  isMin coord_x (cells (rotateBlockDefinition block)) 0 ∧
  isMin coord_y (cells (rotateBlockDefinition block)) 0 ∧
  (∃ a b,
     isMin coord_x (cells block) a ∧ isMin coord_y (cells block) b ∧
     ∀ c, c ∈ cells (rotations 4 block) ↔
          ∃ c0, c0 ∈ cells block ∧
                c = mkCoordinate (coord_x c0 - a) (coord_y c0 - b)) ∧
  (isMin coord_x (cells block) 0 → isMin coord_y (cells block) 0 →
   ∀ c, c ∈ cells (rotations 4 block) ↔ c ∈ cells block) ∧
  block_id (rotateBlockDefinition block) = block_id block ∧
  block_color (rotateBlockDefinition block) = block_color block.
Proof.
  intros Hne rotatedCells.
  destruct (bbox_exists _ Hne) as (a & A & b & B & Hbox).
  destruct (rotate_bbox _ _ _ _ _ Hbox) as (HminX & HminY & Hmem & Hbox').
  split; [|split; [|split; [|split; [|split]]]].
  - exists (Math_min (coord_x <$> rotatedCells)),
           (Math_min (coord_y <$> rotatedCells)).
    assert (rotatedCells ≠ []) as Hne'
      by (subst rotatedCells; by destruct (cells block)).
    split; [by apply isMin_Math_min|]. split; [by apply isMin_Math_min|].
    unfold rotateBlockDefinition, sortCells. cbn [cells].
    rewrite merge_sort_Permutation. subst rotatedCells.
    by rewrite <- list_fmap_compose.
  - apply Hbox'.
  - apply Hbox'.
  - exists a, b. split; [apply Hbox|]. split; [apply Hbox|].
    by apply rotate_four with A B.
  - intros Hx Hy.
    assert (a = 0) as -> by (eapply isMin_unique; [apply Hbox|done]).
    assert (b = 0) as -> by (eapply isMin_unique; [apply Hbox|done]).
    intros c. rewrite (rotate_four _ _ _ _ _ Hbox). split.
    + intros (c0 & Hc0 & ->). destruct c0 as [x0 y0]. simpl.
      by rewrite !Z.sub_0_r.
    + intros Hc. exists c. split; [done|]. destruct c as [x0 y0]. simpl.
      by rewrite !Z.sub_0_r.
  - done.
Qed.

Lemma shapeL_normalised :
  isMin coord_x (cells shapeL) 0 ∧ isMin coord_y (cells shapeL) 0.
Proof.
  split; (split; [exists (mkCoordinate 0 0); split; [by left|done]|]);
    apply Forall_forall; repeat constructor; simpl; lia.
Qed.

Lemma rotate_renormalizes_and_closes_witness :
  cells shapeL ≠ [] ∧
  (∀ c, c ∈ cells (rotations 4 shapeL) ↔ c ∈ cells shapeL).
Proof.
  split; [done|].
  apply (rotate_renormalizes_and_closes shapeL);
    [done|apply shapeL_normalised..].
Defined.

End rotation.

(** ** canPlaceAny *)

Section canPlaceAny_facts.
Implicit Types (grid : Grid) (block : BlockDefinition).

Lemma canPlaceBlock_total grid block x y :
  wf_grid grid → is_Some (canPlaceBlock grid block x y).
Proof. apply canPlaceCells_total. Qed.

Lemma scanAnchorsX_spec grid block y xs :
  wf_grid grid →
  ∃ b, scanAnchorsX grid block y xs = Some b ∧
       (b = true ↔ ∃ x, x ∈ xs ∧ canPlaceBlock grid block x y = Some true).
Proof.
  intros Hwf. induction xs as [|x xs (b & Hb & IH)]; simpl.
  { exists false. split; [done|]. split; [done|].
    intros (x & Hx & _). by apply elem_of_nil in Hx. }
  destruct (canPlaceBlock_total grid block x y Hwf) as [[] Hc];
    rewrite Hc; simpl.
  - exists true. split; [done|]. split; [|done]. intros _.
    exists x. split; [by left|done].
  - exists b. split; [done|]. rewrite IH. split.
    + intros (x' & Hx' & ?). exists x'. split; [by right|done].
    + intros (x' & [->|Hx']%elem_of_cons & Hp); [congruence|eauto].
Qed.

Lemma scanAnchorsY_spec grid block ys :
  wf_grid grid →
  ∃ b, scanAnchorsY grid block ys = Some b ∧
       (b = true ↔ ∃ x y, x ∈ indices ∧ y ∈ ys ∧
                          canPlaceBlock grid block x y = Some true).
Proof.
  intros Hwf. induction ys as [|y ys (b & Hb & IH)]; cbn [scanAnchorsY].
  { exists false. split; [done|]. split; [done|].
    intros (x & y & _ & Hy & _). by apply elem_of_nil in Hy. }
  destruct (scanAnchorsX_spec grid block y indices Hwf) as ([] & Hc & Hx);
    rewrite Hc; simpl.
  - exists true. split; [done|]. split; [|done]. intros _.
    destruct (proj1 Hx eq_refl) as (x & Hin & Hp).
    exists x, y. split; [done|]. split; [by left|done].
  - exists b. split; [done|]. rewrite IH. split.
    + intros (x' & y' & Hx' & Hy' & ?). exists x', y'.
      split; [done|]. split; [by right|done].
    + intros (x' & y' & Hx' & [->|Hy']%elem_of_cons & Hp); [|eauto 6].
      assert (false = true) by (apply Hx; eauto). done.
Qed.

Lemma rotations_S k block :
  rotations k (rotateBlockDefinition block) = rotations (S k) block.
Proof. unfold rotations. by rewrite Nat.iter_succ_r. Qed.

Lemma tryOrientations_spec grid block n :
  wf_grid grid →
  ∃ b, tryOrientations grid block n = Some b ∧
       (b = true ↔ ∃ k x y, (k < n)%nat ∧ inBounds x y ∧
                    canPlaceBlock grid (rotations k block) x y = Some true).
Proof.
  intros Hwf. revert block.
  induction n as [|n IH]; intros block; cbn [tryOrientations].
  { exists false. split; [done|]. split; [done|]. intros (k & ? & ? & ? & _). lia. }
  destruct (scanAnchorsY_spec grid block indices Hwf) as ([] & Hc & Hy);
    rewrite Hc; simpl.
  - exists true. split; [done|]. split; [|done]. intros _.
    destruct (proj1 Hy eq_refl) as (x & y & Hx & Hy' & Hp).
    exists 0%nat, x, y. split; [lia|].
    split; [by split; apply elem_of_indices|done].
  - destruct (IH (rotateBlockDefinition block)) as (b & Hb & Hr).
    exists b. split; [done|]. rewrite Hr. split.
    + intros (k & x & y & Hk & Hxy & Hp). exists (S k), x, y.
      rewrite <- rotations_S. split; [lia|done].
    + intros (k & x & y & Hk & Hxy & Hp). destruct k as [|k].
      * assert (false = true); [|done]. apply Hy. exists x, y.
        destruct Hxy. by rewrite !elem_of_indices.
      * exists k, x, y. rewrite rotations_S. split; [lia|done].
Qed.

Lemma canPlaceAnyLoop_spec grid hand :
  wf_grid grid →
  ∃ b, canPlaceAnyLoop grid hand = Some b ∧
       (b = true ↔ ∃ block k x y, block ∈ hand ∧ (k < 4)%nat ∧ inBounds x y ∧
                    canPlaceBlock grid (rotations k block) x y = Some true).
Proof.
  intros Hwf. induction hand as [|block hand (b & Hb & IH)]; simpl.
  { exists false. split; [done|]. split; [done|].
    intros (? & ? & ? & ? & Hin & _). by apply elem_of_nil in Hin. }
  unfold canPlaceInAnyOrientation.
  destruct (tryOrientations_spec grid block 4 Hwf) as ([] & Hc & Ho);
    rewrite Hc; simpl.
  - exists true. split; [done|]. split; [|done]. intros _.
    destruct (proj1 Ho eq_refl) as (k & x & y & ? & ? & ?).
    exists block, k, x, y. split; [by left|done].
  - exists b. split; [done|]. rewrite IH. split.
    + intros (bl & k & x & y & Hin & ?). exists bl, k, x, y.
      split; [by right|done].
    + intros (bl & k & x & y & [->|Hin]%elem_of_cons & Hk & Hxy & Hp);
        [|eauto 10].
      assert (false = true); [|done]. apply Ho. eauto 10.
Qed.

End canPlaceAny_facts.

(** C7.  On every board and for every hand, [canPlaceAny] returns; it
    returns true on the empty hand, and on any other hand it returns true
    exactly when some shape of the hand, turned 0, 1, 2 or 3 times, passes
    [canPlaceBlock] at some anchor (x, y) with x and y in [0, 6). *)
Theorem canPlaceAny_exact grid hand :
  wf_grid grid →
  ∃ b, canPlaceAny grid hand = Some b ∧
       (hand = [] → b = true) ∧
       (hand ≠ [] →
        (b = true ↔
         ∃ block k x y, block ∈ hand ∧ (k < 4)%nat ∧ inBounds x y ∧
           canPlaceBlock grid (rotations k block) x y = Some true)).
Proof.
  intros Hwf. unfold canPlaceAny. case_decide as Hlen.
  - exists true. split; [done|]. split; [done|].
    intros Hne. by destruct hand.
  - destruct (canPlaceAnyLoop_spec grid hand Hwf) as (b & Hb & Hs).
    exists b. split; [done|]. split; [|done].
    intros ->. done.
Qed.

Lemma canPlaceAny_exact_witness :
  wf_grid boardFour ∧
  ∃ b, canPlaceAny boardFour [shapeL; dominoA] = Some b ∧
       ([shapeL; dominoA] = [] → b = true) ∧
       ([shapeL; dominoA] ≠ [] →
        (b = true ↔
         ∃ block k x y, block ∈ [shapeL; dominoA] ∧ (k < 4)%nat ∧
           inBounds x y ∧
           canPlaceBlock boardFour (rotations k block) x y = Some true)).
Proof.
  split; [exact boardFour_wf|].
  apply (canPlaceAny_exact boardFour [shapeL; dominoA]). exact boardFour_wf.
Defined.

(** ** Step 2: stamping *)

Section stamping.
Implicit Types (grid : Grid) (block : BlockDefinition).

Lemma stampCell_idemp block (o : option CellData) :
  stampCell block <$> (stampCell block <$> o) = stampCell block <$> o.
Proof. by destruct o. Qed.

(** Stamping succeeds when every absolute cell is on the board, keeps the
    board a board, and changes exactly the covered cells. *)
Lemma placeCells_spec grid block cs tx ty :
  wf_grid grid →
  (∀ cell, cell ∈ cs → inBounds (tx + coord_x cell) (ty + coord_y cell)) →
  ∃ s, placeCells grid block cs tx ty = Some s ∧ wf_grid s ∧
       ∀ x y, cellAt s x y =
              if decide (mkCoordinate (x - tx) (y - ty) ∈ cs)
              then stampCell block <$> cellAt grid x y
              else cellAt grid x y.
Proof.
  revert grid.
  induction cs as [|cell rest IH]; intros grid Hwf Hin; cbn [placeCells].
  { exists grid. split; [done|]. split; [done|]. intros x y.
    rewrite decide_False; [done|]. apply not_elem_of_nil. }
  destruct (proj2 (writeCell_is_Some grid (tx + coord_x cell)
    (ty + coord_y cell) (stampCell block))) as [g1 Hg1].
  { apply cellAt_is_Some; [done|]. apply Hin. by left. }
  rewrite Hg1. simpl.
  destruct (IH g1) as (s & Hs & Hwfs & Hcells).
  { by eapply writeCell_wf. }
  { intros c Hc. apply Hin. by right. }
  exists s. split; [done|]. split; [done|]. intros x y.
  rewrite Hcells, (cellAt_writeCell _ _ _ _ _ x y Hg1).
  destruct (decide (x = tx + coord_x cell ∧ y = ty + coord_y cell))
    as [[-> ->]|Hne].
  - rewrite (decide_True (P := _ ∈ cell :: rest)).
    2: { destruct cell as [cx cy]. simpl. apply elem_of_cons. left.
         f_equal; lia. }
    case_decide; [apply stampCell_idemp|done].
  - assert (mkCoordinate (x - tx) (y - ty) ≠ cell) as Hne'.
    { intros <-. simpl in Hne. apply Hne. lia. }
    case_decide as Hr.
    + rewrite decide_True; [done|by right].
    + rewrite decide_False; [done|].
      intros [?|?]%elem_of_cons; done.
Qed.

(** A legal placement stamps. *)
Lemma placeCells_legal grid block tx ty :
  wf_grid grid → canPlaceBlock grid block tx ty = Some true →
  ∃ s, placeCells grid block (cells block) tx ty = Some s ∧ wf_grid s ∧
       ∀ x y, cellAt s x y =
              if decide (covers block tx ty x y)
              then stampCell block <$> cellAt grid x y
              else cellAt grid x y.
Proof.
  intros Hwf Hfit%canPlaceBlock_fits.
  apply placeCells_spec; [done|]. intros cell Hc. by apply Hfit.
Qed.

End stamping.

(** ** Step 3: the full lines *)

Section full_lines.
Implicit Types (grid : Grid).

Lemma nonEmpty_true c : nonEmpty c = true ↔ status c ≠ empty.
Proof. unfold nonEmpty. apply bool_decide_eq_true. Qed.

Lemma rowIsFull_spec grid y :
  wf_grid grid → 0 ≤ y < GRID_SIZE →
  ∃ b, rowIsFull grid y = Some b ∧ (b = true ↔ rowFull grid y).
Proof.
  intros Hwf Hy. pose proof Hwf as [Hlen Hrows].
  unfold rowIsFull, GRID_SIZE in *.
  destruct (proj2 (lookupZ_is_Some grid y)) as [row Hr]; [lia|].
  rewrite Hr. simpl. eexists. split; [done|].
  pose proof Hr as [_ Hr']%lookupZ_Some.
  rewrite Forall_lookup in Hrows. specialize (Hrows _ _ Hr'). simpl in Hrows.
  rewrite <- Is_true_true, forallb_True, Forall_lookup.
  unfold rowFull, cellAt.
  rewrite Hr. simpl. split.
  - intros H x Hx.
    destruct (proj2 (lookupZ_is_Some row x)) as [c Hc];
      [unfold GRID_SIZE in Hx; lia|].
    exists c. split; [done|]. apply lookupZ_Some in Hc as [_ Hc].
    apply nonEmpty_true, Is_true_true. by apply (H _ _ Hc).
  - intros H i c Hc. apply Is_true_true, nonEmpty_true.
    assert (i < 6)%nat by (apply lookup_lt_Some in Hc; lia).
    destruct (H (Z.of_nat i)) as (c' & Hc' & Hne);
      [unfold GRID_SIZE; lia|].
    rewrite lookupZ_of_nat in Hc'. congruence.
Qed.

Lemma colIsFull_rows (rows : Grid) x :
  Forall (fun row => is_Some (lookupZ row x)) rows →
  ∃ b, colIsFull rows x = Some b ∧
       (b = true ↔ ∀ j row, rows !! j = Some row →
                     ∃ c, lookupZ row x = Some c ∧ status c ≠ empty).
Proof.
  induction rows as [|row rows IH]; intros HF; simpl.
  { exists true. split; [done|]. split; [|done]. intros _ j row Hj. done. }
  apply Forall_cons in HF as [[c Hc] HF]. rewrite Hc. simpl.
  destruct (nonEmpty c) eqn:Hne.
  - destruct (IH HF) as (b & Hb & Hs). exists b. split; [done|].
    rewrite Hs. split.
    + intros H [|j] row' Hj; simpl in Hj.
      * injection Hj as <-. exists c. split; [done|]. by apply nonEmpty_true.
      * by apply (H j).
    + intros H j row' Hj. by apply (H (S j)).
  - exists false. split; [done|]. split; [done|]. intros H.
    destruct (H 0%nat row eq_refl) as (c' & Hc' & Hst).
    apply nonEmpty_true in Hst. congruence.
Qed.

Lemma colIsFull_spec grid x :
  wf_grid grid → 0 ≤ x < GRID_SIZE →
  ∃ b, colIsFull grid x = Some b ∧ (b = true ↔ colFull grid x).
Proof.
  intros Hwf Hx. pose proof Hwf as [Hlen Hrows]. unfold GRID_SIZE in *.
  destruct (colIsFull_rows grid x) as (b & Hb & Hs).
  { eapply Forall_impl; [exact Hrows|]. intros row Hl. simpl in Hl.
    apply lookupZ_is_Some. lia. }
  exists b. split; [done|]. rewrite Hs. unfold colFull, cellAt. split.
  - intros H y Hy.
    destruct (proj2 (lookupZ_is_Some grid y)) as [row Hr];
      [unfold GRID_SIZE in Hy; lia|].
    rewrite Hr. simpl. apply lookupZ_Some in Hr as [_ Hr]. by apply (H _ _ Hr).
  - intros H j row Hj.
    assert (j < 6)%nat by (apply lookup_lt_Some in Hj; lia).
    specialize (H (Z.of_nat j)). rewrite lookupZ_of_nat, Hj in H.
    apply H. unfold GRID_SIZE. lia.
Qed.

Lemma collectFull_spec (isFull : Z → option bool) (P : Z → Prop) l :
  (∀ i, i ∈ l → ∃ b, isFull i = Some b ∧ (b = true ↔ P i)) →
  NoDup l →
  ∃ r, collectFull isFull l = Some r ∧ NoDup r ∧
       ∀ i, i ∈ r ↔ i ∈ l ∧ P i.
Proof.
  induction l as [|i l IH]; intros Hf Hnd; simpl.
  { exists []. split; [done|]. split; [constructor|].
    intros i. split; [by intros ?%elem_of_nil|by intros [?%elem_of_nil _]]. }
  apply NoDup_cons in Hnd as [Hi Hnd].
  destruct (Hf i) as (b & Hb & HP); [by left|]. rewrite Hb. simpl.
  destruct IH as (r & Hr & Hndr & Hmem); [|done|].
  { intros j Hj. apply Hf. by right. }
  rewrite Hr. simpl. eexists. split; [done|].
  destruct b.
  - split.
    + apply NoDup_cons. split; [|done]. rewrite Hmem. tauto.
    + intros j. rewrite !elem_of_cons, Hmem. split.
      * intros [->|[? ?]]; [split; [by left|by apply HP]|tauto].
      * intros [[->|?] ?]; tauto.
  - split; [done|]. intros j. rewrite elem_of_cons, Hmem. split.
    + tauto.
    + intros [[->|?] HPj]; [|done]. apply HP in HPj. done.
Qed.

(** The two scans never throw on a board, and find exactly the full rows
    and the full columns, each once. *)
Lemma fullLines_spec grid :
  wf_grid grid →
  ∃ fullRows fullCols,
    collectFull (rowIsFull grid) indices = Some fullRows ∧
    collectFull (colIsFull grid) indices = Some fullCols ∧
    NoDup fullRows ∧ NoDup fullCols ∧
    (∀ y, y ∈ fullRows ↔ 0 ≤ y < GRID_SIZE ∧ rowFull grid y) ∧
    (∀ x, x ∈ fullCols ↔ 0 ≤ x < GRID_SIZE ∧ colFull grid x).
Proof.
  intros Hwf.
  destruct (collectFull_spec (rowIsFull grid) (rowFull grid) indices)
    as (fr & Hfr & Hndr & Hr).
  { intros y Hy%elem_of_indices. by apply rowIsFull_spec. }
  { apply NoDup_seqZ. }
  destruct (collectFull_spec (colIsFull grid) (colFull grid) indices)
    as (fc & Hfc & Hndc & Hc).
  { intros x Hx%elem_of_indices. by apply colIsFull_spec. }
  { apply NoDup_seqZ. }
  exists fr, fc. do 4 (split; [done|]).
  split; intros i; [rewrite Hr|rewrite Hc]; by rewrite elem_of_indices.
Qed.

End full_lines.

(** ** Steps 4 and 5: owners, cleared cells, updates *)

Section leftover.
Implicit Types (grid : Grid) (affected : gset string) (cleared : gset (Z * Z)).

Lemma foldl_add_spec {A} `{Countable K} (g : A → K) (l : list A)
    (s0 : gset K) p :
  p ∈ foldl (fun s i => {[ g i ]} ∪ s) s0 l ↔ p ∈ s0 ∨ ∃ i, i ∈ l ∧ p = g i.
Proof.
  revert s0. induction l as [|i l IH]; intros s0; simpl.
  { split; [by left|]. intros [?|(i & ?%elem_of_nil & _)]; done. }
  rewrite IH, elem_of_union, elem_of_singleton. split.
  - intros [[->|?]|(j & ? & ->)].
    + right. exists i. split; [by left|done].
    + by left.
    + right. exists j. split; [by right|done].
  - intros [?|(j & [->|?]%elem_of_cons & ->)]; [by left; right|by left; left|].
    right. by exists j.
Qed.

Lemma foldl_add2_spec {A B} `{Countable K} (g : A → B → K) (l1 : list B)
    (l2 : list A) (s0 : gset K) p :
  p ∈ foldl (fun s j => foldl (fun s i => {[ g i j ]} ∪ s) s l2) s0 l1 ↔
  p ∈ s0 ∨ ∃ j i, j ∈ l1 ∧ i ∈ l2 ∧ p = g i j.
Proof.
  revert s0. induction l1 as [|j l1 IH]; intros s0; simpl.
  { split; [by left|]. intros [?|(j & i & ?%elem_of_nil & _)]; done. }
  rewrite IH, (foldl_add_spec (fun i => g i j)). split.
  - intros [[?|(i & ? & ->)]|(j' & i & ? & ? & ->)].
    + by left.
    + right. exists j, i. split; [by left|done].
    + right. exists j', i. split; [by right|done].
  - intros [?|(j' & i & [->|?]%elem_of_cons & ? & ->)].
    + by left; left.
    + left; right. by exists i.
    + right. by exists j', i.
Qed.

Lemma clearedCells_spec fullRows fullCols x y :
  (x, y) ∈ clearedCells fullRows fullCols ↔
  (y ∈ fullRows ∧ x ∈ indices) ∨ (x ∈ fullCols ∧ y ∈ indices).
Proof.
  unfold clearedCells.
  rewrite (foldl_add2_spec (fun y x => (x, y))).
  rewrite (foldl_add2_spec (fun x y => (x, y))).
  rewrite elem_of_empty. split.
  - intros [[[]|(j & i & ? & ? & [= -> ->])]|(j & i & ? & ? & [= -> ->])];
      [by left|by right].
  - intros [[? ?]|[? ?]]; [left; right|right]; eauto.
Qed.

Lemma addOwner_spec affected c o :
  o ∈ addOwner affected c ↔
  o ∈ affected ∨ (o ≠ EmptyString ∧ blockId c = Some o).
Proof.
  unfold addOwner. destruct (blockId c) as [i|]; [|naive_solver].
  case_decide as Hi; [naive_solver|].
  rewrite elem_of_union, elem_of_singleton. naive_solver.
Qed.

Lemma foldl_addOwner_spec (row : list CellData) affected o :
  o ∈ foldl addOwner affected row ↔
  o ∈ affected ∨ (o ≠ EmptyString ∧ ∃ c, c ∈ row ∧ blockId c = Some o).
Proof.
  revert affected. induction row as [|c row IH]; intros affected; simpl.
  { split; [by left|]. intros [?|(_ & c & ?%elem_of_nil & _)]; done. }
  rewrite IH, addOwner_spec. setoid_rewrite elem_of_cons. naive_solver.
Qed.

Lemma ownersInRows_spec grid fullRows affected :
  (∀ y, y ∈ fullRows → is_Some (lookupZ grid y)) →
  ∃ a, ownersInRows grid fullRows affected = Some a ∧
       ∀ o, o ∈ a ↔
            o ∈ affected ∨
            (o ≠ EmptyString ∧
             ∃ y row c, y ∈ fullRows ∧ lookupZ grid y = Some row ∧
                        c ∈ row ∧ blockId c = Some o).
Proof.
  revert affected.
  induction fullRows as [|y ys IH]; intros affected Hin; simpl.
  { exists affected. split; [done|]. intros o. split; [by left|].
    intros [?|(_ & ? & ? & ? & ?%elem_of_nil & _)]; done. }
  destruct (Hin y) as [row Hr]; [by left|]. rewrite Hr. simpl.
  destruct (IH (foldl addOwner affected row)) as (a & Ha & Hs).
  { intros y' Hy'. apply Hin. by right. }
  exists a. split; [done|]. intros o.
  rewrite Hs, foldl_addOwner_spec. setoid_rewrite elem_of_cons. split.
  - intros [[?|(Hne & c & Hc & Ho)]|(Hne & y' & row' & c & ? & ? & ? & ?)].
    + by left.
    + right. split; [done|]. exists y, row, c. naive_solver.
    + right. split; [done|]. exists y', row', c. naive_solver.
  - intros [?|(Hne & y' & row' & c & [->|?] & Hr' & ? & ?)].
    + by left; left.
    + left; right. split; [done|]. exists c. naive_solver.
    + right. split; [done|]. exists y', row', c. naive_solver.
Qed.

Lemma ownersInCol_spec (rows : Grid) x affected :
  Forall (fun row => is_Some (lookupZ row x)) rows →
  ∃ a, ownersInCol rows x affected = Some a ∧
       ∀ o, o ∈ a ↔
            o ∈ affected ∨
            (o ≠ EmptyString ∧
             ∃ row c, row ∈ rows ∧ lookupZ row x = Some c ∧
                      blockId c = Some o).
Proof.
  revert affected.
  induction rows as [|row rows IH]; intros affected HF; simpl.
  { exists affected. split; [done|]. intros o. split; [by left|].
    intros [?|(_ & ? & ? & ?%elem_of_nil & _)]; done. }
  apply Forall_cons in HF as [[c Hc] HF]. rewrite Hc. simpl.
  destruct (IH (addOwner affected c) HF) as (a & Ha & Hs).
  exists a. split; [done|]. intros o.
  rewrite Hs, addOwner_spec. setoid_rewrite elem_of_cons. split.
  - intros [[?|[Hne Ho]]|(Hne & row' & c' & ? & ? & ?)].
    + by left.
    + right. split; [done|]. exists row, c. naive_solver.
    + right. split; [done|]. exists row', c'. naive_solver.
  - intros [?|(Hne & row' & c' & [->|?] & Hc' & ?)].
    + by left; left.
    + left; right. split; [done|]. congruence.
    + right. split; [done|]. exists row', c'. naive_solver.
Qed.

Lemma ownersInCols_spec grid fullCols affected :
  (∀ x, x ∈ fullCols → Forall (fun row => is_Some (lookupZ row x)) grid) →
  ∃ a, ownersInCols grid fullCols affected = Some a ∧
       ∀ o, o ∈ a ↔
            o ∈ affected ∨
            (o ≠ EmptyString ∧
             ∃ x row c, x ∈ fullCols ∧ row ∈ grid ∧
                        lookupZ row x = Some c ∧ blockId c = Some o).
Proof.
  revert affected.
  induction fullCols as [|x xs IH]; intros affected Hin; simpl.
  { exists affected. split; [done|]. intros o. split; [by left|].
    intros [?|(_ & ? & ? & ? & ?%elem_of_nil & _)]; done. }
  destruct (ownersInCol_spec grid x affected) as (a1 & Ha1 & Hs1).
  { apply Hin. by left. }
  rewrite Ha1. simpl.
  destruct (IH a1) as (a & Ha & Hs).
  { intros x' Hx'. apply Hin. by right. }
  exists a. split; [done|]. intros o.
  rewrite Hs, Hs1. setoid_rewrite elem_of_cons. split.
  - intros [[?|(Hne & row & c & ? & ? & ?)]|(Hne & x' & row & c & ? & ? & ? & ?)].
    + by left.
    + right. split; [done|]. exists x, row, c. naive_solver.
    + right. split; [done|]. exists x', row, c. naive_solver.
  - intros [?|(Hne & x' & row & c & [->|?] & ? & ? & ?)].
    + by left; left.
    + left; right. split; [done|]. exists row, c. naive_solver.
    + right. split; [done|]. exists x', row, c. naive_solver.
Qed.

Lemma elem_of_row_cellAt grid y row c :
  lookupZ grid y = Some row → c ∈ row ↔ ∃ x, cellAt grid x y = Some c.
Proof.
  intros Hr. unfold cellAt. rewrite Hr. simpl.
  rewrite list_elem_of_lookup. split.
  - intros [i Hi]. exists (Z.of_nat i). by rewrite lookupZ_of_nat.
  - intros [x [_ Hx]%lookupZ_Some]. eauto.
Qed.

Lemma elem_of_grid_cellAt grid x c :
  (∃ row, row ∈ grid ∧ lookupZ row x = Some c) ↔
  ∃ y, cellAt grid x y = Some c.
Proof.
  unfold cellAt. split.
  - intros (row & [j Hj]%list_elem_of_lookup & Hc). exists (Z.of_nat j).
    by rewrite lookupZ_of_nat, Hj.
  - intros [y Hy]. destruct (lookupZ grid y) as [row|] eqn:Hr; [|done].
    exists row. split; [|done]. apply lookupZ_Some in Hr as [_ Hr].
    by eapply list_elem_of_lookup_2.
Qed.

(** The set [affectedBlockIds]: the owners, other than the empty
    string, written on a cell of a full row or of a full column. *)
Lemma affected_spec grid fullRows fullCols :
  wf_grid grid →
  (∀ y, y ∈ fullRows → 0 ≤ y < GRID_SIZE) →
  (∀ x, x ∈ fullCols → 0 ≤ x < GRID_SIZE) →
  ∃ affected,
    ownersInRows grid fullRows ∅ ≫= ownersInCols grid fullCols
      = Some affected ∧
    ∀ o, o ∈ affected ↔
         o ≠ EmptyString ∧
         ∃ x y c, (y ∈ fullRows ∨ x ∈ fullCols) ∧
                  cellAt grid x y = Some c ∧ blockId c = Some o.
Proof.
  intros [Hlen Hrows] Hfr Hfc. unfold GRID_SIZE in *.
  destruct (ownersInRows_spec grid fullRows ∅) as (a1 & Ha1 & Hs1).
  { intros y Hy. apply lookupZ_is_Some. specialize (Hfr _ Hy). lia. }
  destruct (ownersInCols_spec grid fullCols a1) as (a & Ha & Hs).
  { intros x Hx. eapply Forall_impl; [exact Hrows|]. intros row Hl.
    simpl in Hl. apply lookupZ_is_Some. specialize (Hfc _ Hx). lia. }
  exists a. rewrite Ha1. simpl. split; [done|]. intros o.
  rewrite Hs, Hs1, elem_of_empty. split.
  - intros [[[]|(Hne & y & row & c & Hy & Hr & Hc & Ho)]|
            (Hne & x & row & c & Hx & Hr & Hc & Ho)].
    + split; [done|].
      apply (elem_of_row_cellAt _ _ _ _ Hr) in Hc as [x Hc].
      exists x, y, c. naive_solver.
    + split; [done|].
      destruct (proj1 (elem_of_grid_cellAt grid x c)) as [y Hy]; [eauto|].
      exists x, y, c. naive_solver.
  - intros (Hne & x & y & c & [Hy|Hx] & Hc & Ho).
    + left; right. split; [done|].
      pose proof Hc as (row & Hr & _)%cellAt_Some.
      exists y, row, c. split; [done|]. split; [done|]. split; [|done].
      apply (elem_of_row_cellAt _ _ _ _ Hr). eauto.
    + right. split; [done|].
      destruct (proj2 (elem_of_grid_cellAt grid x c)) as (row & ? & ?);
        [eauto|].
      exists x, row, c. naive_solver.
Qed.

End leftover.

Section updates.
Implicit Types (grid : Grid) (affected : gset string) (cleared : gset (Z * Z)).

Lemma junkCount_app us1 us2 :
  junkCount (us1 ++ us2) = junkCount us1 + junkCount us2.
Proof. unfold junkCount. rewrite filter_app, length_app. lia. Qed.

Lemma updateFor_coords cleared affected x y c u :
  updateFor cleared affected x y c = Some u → upd_x u = x ∧ upd_y u = y.
Proof.
  unfold updateFor. destruct (status c); [done| |done].
  repeat case_match; naive_solver.
Qed.

Lemma visitCell_spec cleared affected x y c acc :
  visitCell cleared affected x y c acc =
    (acc.1 ++ option_list (updateFor cleared affected x y c),
     acc.2 + junkCount (option_list (updateFor cleared affected x y c))).
Proof.
  destruct acc as [us j]. unfold visitCell, updateFor. simpl.
  destruct (status c); simpl; rewrite ?app_nil_r, ?Z.add_0_r; try done.
  case_decide; simpl; [by rewrite Z.add_0_r|].
  destruct (ownerAffected affected c); simpl; [done|].
  by rewrite app_nil_r, Z.add_0_r.
Qed.

Lemma rowUpdates_cons grid cleared affected y x xs :
  rowUpdates grid cleared affected y (x :: xs) =
    option_list (cellAt grid x y ≫= updateFor cleared affected x y)
      ++ rowUpdates grid cleared affected y xs.
Proof.
  unfold rowUpdates. simpl. by destruct (cellAt grid x y ≫= _).
Qed.

Lemma visitRow_spec grid cleared affected y xs acc :
  (∀ x, x ∈ xs → is_Some (cellAt grid x y)) →
  visitRow grid cleared affected y xs acc =
    Some (acc.1 ++ rowUpdates grid cleared affected y xs,
          acc.2 + junkCount (rowUpdates grid cleared affected y xs)).
Proof.
  revert acc. induction xs as [|x xs IH]; intros acc Hin.
  { simpl. destruct acc. unfold rowUpdates, junkCount. simpl.
    by rewrite app_nil_r, Z.add_0_r. }
  cbn [visitRow]. destruct (Hin x) as [c Hc]; [by left|].
  rewrite rowUpdates_cons, Hc. cbn [mbind option_bind].
  rewrite IH by (intros x' Hx'; apply Hin; by right).
  rewrite visitCell_spec. cbn [fst snd].
  rewrite junkCount_app, <- app_assoc, Z.add_assoc. done.
Qed.

Lemma visitGrid_spec grid cleared affected ys acc :
  (∀ x y, x ∈ indices → y ∈ ys → is_Some (cellAt grid x y)) →
  visitGrid grid cleared affected ys acc =
    Some (acc.1 ++ gridUpdates grid cleared affected ys,
          acc.2 + junkCount (gridUpdates grid cleared affected ys)).
Proof.
  revert acc. induction ys as [|y ys IH]; intros acc Hin.
  { simpl. destruct acc. unfold gridUpdates, junkCount. simpl.
    by rewrite app_nil_r, Z.add_0_r. }
  cbn [visitGrid].
  rewrite visitRow_spec by (intros x Hx; apply Hin; [done|by left]).
  cbn [mbind option_bind].
  rewrite IH by (intros x y' Hx Hy'; apply Hin; [done|by right]).
  cbn [fst snd].
  change (gridUpdates grid cleared affected (y :: ys))
    with (rowUpdates grid cleared affected y indices
            ++ gridUpdates grid cleared affected ys).
  rewrite junkCount_app, <- app_assoc, Z.add_assoc. done.
Qed.

Lemma elem_of_gridUpdates grid cleared affected ys u :
  u ∈ gridUpdates grid cleared affected ys ↔
  ∃ x y c, x ∈ indices ∧ y ∈ ys ∧ cellAt grid x y = Some c ∧
           updateFor cleared affected x y c = Some u.
Proof.
  unfold gridUpdates, rowUpdates. rewrite list_elem_of_bind. split.
  - intros (y & (x & Hx & Hu)%list_elem_of_omap & Hy).
    destruct (cellAt grid x y) as [c|] eqn:Hc; [|done]. simpl in Hu.
    exists x, y, c. done.
  - intros (x & y & c & Hx & Hy & Hc & Hu). exists y. split; [|done].
    apply list_elem_of_omap. exists x. split; [done|]. by rewrite Hc.
Qed.

Lemma applyUpdate_idemp u (o : option CellData) :
  applyUpdate u <$> (applyUpdate u <$> o) = applyUpdate u <$> o.
Proof. by destruct o. Qed.

(** Applying a list of updates in which every coordinate has one
    update only, the one [F] names, possibly several times. *)
Lemma applyUpdates_spec grid us (F : Z → Z → option Update) :
  wf_grid grid →
  (∀ x y u, F x y = Some u → upd_x u = x ∧ upd_y u = y) →
  (∀ u, u ∈ us →
        inBounds (upd_x u) (upd_y u) ∧ F (upd_x u) (upd_y u) = Some u) →
  ∃ g, applyUpdates grid us = Some g ∧ wf_grid g ∧
       ∀ x y, cellAt g x y =
              match F x y with
              | Some u => if decide (u ∈ us)
                          then applyUpdate u <$> cellAt grid x y
                          else cellAt grid x y
              | None => cellAt grid x y
              end.
Proof.
  intros Hwf HF. revert grid Hwf.
  induction us as [|u us IH]; intros grid Hwf Hus; cbn [applyUpdates].
  { exists grid. split; [done|]. split; [done|]. intros x y.
    destruct (F x y); [|done]. rewrite decide_False; [done|].
    apply not_elem_of_nil. }
  destruct (Hus u) as [Hb Hu]; [by left|].
  destruct (proj2 (writeCell_is_Some grid (upd_x u) (upd_y u)
    (applyUpdate u))) as [g1 Hg1].
  { by apply cellAt_is_Some. }
  rewrite Hg1. simpl.
  destruct (IH g1) as (g & Hg & Hwfg & Hcells).
  { by eapply writeCell_wf. }
  { intros u' Hu'. apply Hus. by right. }
  exists g. split; [done|]. split; [done|]. intros x y.
  rewrite Hcells, (cellAt_writeCell _ _ _ _ _ x y Hg1).
  destruct (decide (x = upd_x u ∧ y = upd_y u)) as [[-> ->]|Hne].
  - rewrite Hu. rewrite (decide_True (P := u ∈ u :: us)) by (by left).
    case_decide; [apply applyUpdate_idemp|done].
  - destruct (F x y) as [v|] eqn:Hv; [|done].
    assert (v ≠ u) as Hvu.
    { intros ->. apply HF in Hv as [Hx Hy]. by apply Hne. }
    case_decide as Hin.
    + rewrite decide_True; [done|by right].
    + rewrite decide_False; [done|]. intros [?|?]%elem_of_cons; done.
Qed.

(** The clear phase cell by cell: the updates of the double loop,
    applied to the stamped board, leave [leftoverCell] of every cell. *)
Lemma applyUpdates_gridUpdates grid cleared affected :
  wf_grid grid →
  ∃ g, applyUpdates grid (gridUpdates grid cleared affected indices)
         = Some g ∧ wf_grid g ∧
       ∀ x y, cellAt g x y =
              leftoverCell cleared affected x y <$> cellAt grid x y.
Proof.
  intros Hwf.
  destruct (applyUpdates_spec grid
    (gridUpdates grid cleared affected indices)
    (fun x y => cellAt grid x y ≫= updateFor cleared affected x y) Hwf)
    as (g & Hg & Hwfg & Hcells).
  { intros x y u Hu. destruct (cellAt grid x y) as [c|]; [|done].
    by eapply updateFor_coords. }
  { intros u (x & y & c & Hx & Hy & Hc & Hu)%elem_of_gridUpdates.
    destruct (updateFor_coords _ _ _ _ _ _ Hu) as [-> ->].
    split; [by eapply cellAt_inBounds|]. by rewrite Hc. }
  exists g. split; [done|]. split; [done|]. intros x y.
  rewrite Hcells. destruct (cellAt grid x y) as [c|] eqn:Hc; simpl; [|done].
  unfold leftoverCell.
  destruct (updateFor cleared affected x y c) as [u|] eqn:Hu; [|done].
  rewrite decide_True; [done|].
  apply elem_of_gridUpdates. exists x, y, c.
  destruct (cellAt_inBounds _ _ _ _ Hwf Hc).
  by rewrite !elem_of_indices.
Qed.

(** The read-only part of steps 4 and 5 never throws on a board. *)
Lemma leftoverUpdates_spec grid fullRows fullCols :
  wf_grid grid →
  (∀ y, y ∈ fullRows → 0 ≤ y < GRID_SIZE) →
  (∀ x, x ∈ fullCols → 0 ≤ x < GRID_SIZE) →
  ∃ affected,
    (∀ o, o ∈ affected ↔
          o ≠ EmptyString ∧
          ∃ x y c, (y ∈ fullRows ∨ x ∈ fullCols) ∧
                   cellAt grid x y = Some c ∧ blockId c = Some o) ∧
    leftoverUpdates grid fullRows fullCols =
      Some (gridUpdates grid (clearedCells fullRows fullCols) affected
              indices,
            junkCount (gridUpdates grid (clearedCells fullRows fullCols)
                         affected indices)).
Proof.
  intros Hwf Hfr Hfc.
  destruct (affected_spec grid fullRows fullCols Hwf Hfr Hfc)
    as (affected & Ha & Hs).
  exists affected. split; [done|]. unfold leftoverUpdates.
  destruct (ownersInRows grid fullRows ∅) as [a1|];
    cbn [mbind option_bind] in *; [|done].
  rewrite Ha. cbn [mbind option_bind]. rewrite visitGrid_spec; [done|].
  intros x y Hx%elem_of_indices Hy%elem_of_indices.
  by apply cellAt_is_Some.
Qed.

End updates.

(** ** The clear phase as a whole *)

Section clear_phase.
Implicit Types (grid stamped : Grid) (block : BlockDefinition).

(** [leftoverCell] in the vocabulary of the clear phase. *)
Lemma leftoverCell_clearsTo stamped cleared affected x y c :
  (∀ x y, (x, y) ∈ cleared ↔ inClearedSet stamped x y) →
  (∀ o, o ∈ affected ↔ o ≠ EmptyString ∧ ownerInCleared stamped o) →
  clearsTo stamped x y c (leftoverCell cleared affected x y c).
Proof.
  intros Hcl Haf. unfold leftoverCell, updateFor.
  destruct (status c) eqn:Hst;
    [apply clear_kept; left; congruence| |apply clear_kept; left; congruence].
  case_decide as Hin.
  { apply clear_removed; [done|by apply Hcl]. }
  rewrite Hcl in Hin. unfold ownerAffected.
  destruct (blockId c) as [o|] eqn:Ho.
  2: { apply clear_kept. right. split; [done|]. intros o' Ho'. congruence. }
  destruct (bool_decide (o ≠ EmptyString)) eqn:Hne; simpl.
  2: { apply bool_decide_eq_false in Hne. apply clear_kept. right.
       split; [done|]. intros o' Ho' Hne'.
       assert (o' = o) as -> by congruence. done. }
  apply bool_decide_eq_true in Hne.
  destruct (bool_decide (o ∈ affected)) eqn:Ha; simpl.
  - apply bool_decide_eq_true in Ha. apply Haf in Ha as [_ Ha].
    by eapply (clear_junked _ _ _ _ o).
  - apply bool_decide_eq_false in Ha. apply clear_kept. right.
    split; [done|]. intros o' Ho' _ Hown. apply Ha, Haf.
    assert (o' = o) as -> by congruence. done.
Qed.

Lemma junkCount_rowUpdates grid cleared affected y xs :
  junkCount (rowUpdates grid cleared affected y xs) =
  Z.of_nat (length (filter
    (fun p => upd_status <$>
                (cellAt grid p.1 p.2 ≫= updateFor cleared affected p.1 p.2)
              = Some junk)
    ((fun x => (x, y)) <$> xs))).
Proof.
  induction xs as [|x xs IH]; [done|].
  rewrite rowUpdates_cons, junkCount_app, IH. rewrite fmap_cons, filter_cons.
  cbn [fst snd].
  destruct (cellAt grid x y ≫= updateFor cleared affected x y) as [u|];
    cbn [fmap option_fmap option_map].
  - change (option_list (Some u)) with [u].
    unfold junkCount at 1. rewrite filter_cons, filter_nil.
    destruct (decide (upd_status u = junk)) as [Hj|Hj].
    + rewrite decide_True by (by rewrite Hj). cbn [length]. lia.
    + rewrite decide_False by (intros [=]; done). cbn [length]. lia.
  - rewrite decide_False by done.
    change (junkCount (option_list None)) with 0. lia.
Qed.

Lemma junkCount_gridUpdates grid cleared affected ys :
  junkCount (gridUpdates grid cleared affected ys) =
  Z.of_nat (length (filter
    (fun p => upd_status <$>
                (cellAt grid p.1 p.2 ≫= updateFor cleared affected p.1 p.2)
              = Some junk)
    (ys ≫= (fun y => (fun x => (x, y)) <$> indices)))).
Proof.
  induction ys as [|y ys IH]; [done|].
  change (gridUpdates grid cleared affected (y :: ys))
    with (rowUpdates grid cleared affected y indices
            ++ gridUpdates grid cleared affected ys).
  rewrite junkCount_app, IH, junkCount_rowUpdates.
  rewrite bind_cons, filter_app, length_app. lia.
Qed.

Lemma leftoverCell_junk cleared affected x y c :
  upd_status <$> updateFor cleared affected x y c = Some junk ↔
  status c = filled ∧ status (leftoverCell cleared affected x y c) = junk.
Proof.
  unfold leftoverCell, updateFor.
  destruct (status c) eqn:Hst; simpl; [naive_solver| |naive_solver].
  case_decide; simpl; [naive_solver|].
  destruct (ownerAffected affected c); simpl; [naive_solver|].
  rewrite Hst. naive_solver.
Qed.

(** Steps 3 to 5 and the scoring never throw on a board; what they
    return, in the vocabulary of the clear phase. *)
Lemma processLines_spec stamped block combo :
  wf_grid stamped →
  ∃ fullRows fullCols r,
    processLines stamped block combo = Some r ∧ wf_grid (newGrid r) ∧
    NoDup fullRows ∧ NoDup fullCols ∧
    (∀ y, y ∈ fullRows ↔ 0 ≤ y < GRID_SIZE ∧ rowFull stamped y) ∧
    (∀ x, x ∈ fullCols ↔ 0 ≤ x < GRID_SIZE ∧ colFull stamped x) ∧
    linesCleared r =
      Z.of_nat (length fullRows) + Z.of_nat (length fullCols) ∧
    (linesCleared r > 0 →
       (∀ x y c, cellAt stamped x y = Some c →
          ∃ c', cellAt (newGrid r) x y = Some c' ∧
                clearsTo stamped x y c c') ∧
       junkCreated r =
         Z.of_nat (length (filter (turnedJunk stamped (newGrid r))
                                  allCoords)) ∧
       newCombo r = comboAfterClear (junkCreated r) combo ∧
       points r =
         pointsAfterClear (linesCleared r) (junkCreated r) (newCombo r)) ∧
    (¬ linesCleared r > 0 →
       newGrid r = stamped ∧ junkCreated r = 0 ∧ newCombo r = 0 ∧
       points r = 0 + Z.of_nat (length (cells block)) * 10).
Proof.
  intros Hwf.
  destruct (fullLines_spec stamped Hwf)
    as (fr & fc & Hfr & Hfc & Hndr & Hndc & Hr & Hc).
  destruct (leftoverUpdates_spec stamped fr fc Hwf)
    as (affected & Haf & Hupd).
  { intros y Hy. by apply Hr. }
  { intros x Hx. by apply Hc. }
  set (cleared := clearedCells fr fc) in *.
  destruct (applyUpdates_gridUpdates stamped cleared affected Hwf)
    as (g & Hg & Hwfg & Hcells).
  assert (∀ x y, (x, y) ∈ cleared ↔ inClearedSet stamped x y) as Hcl.
  { intros x y. subst cleared. rewrite clearedCells_spec, Hr, Hc.
    rewrite !elem_of_indices. unfold inClearedSet, inBounds. tauto. }
  assert (∀ o, o ∈ affected ↔ o ≠ EmptyString ∧ ownerInCleared stamped o)
    as Hown.
  { intros o. rewrite Haf. unfold ownerInCleared, inClearedSet.
    split; intros [Hne (x & y & c & H1 & H2 & H3)]; (split; [done|]);
      exists x, y, c; (split; [|done]).
    - pose proof (cellAt_inBounds _ _ _ _ Hwf H2) as Hb.
      split; [done|]. destruct Hb. rewrite Hr, Hc in H1. tauto.
    - destruct H1 as [[? ?] ?]. rewrite Hr, Hc. tauto. }
  exists fr, fc. unfold processLines. rewrite Hfr, Hfc.
  cbn [mbind option_bind]. case_decide as Hlines.
  - rewrite Hupd. cbn [mbind option_bind]. rewrite Hg.
    cbn [mbind option_bind]. eexists. split; [reflexivity|].
    cbn [newGrid linesCleared junkCreated points newCombo].
    do 6 (split; [done|]). split; [|done]. intros _.
    split; [|split; [|done]].
    + intros x y c Hxy. exists (leftoverCell cleared affected x y c).
      split; [by rewrite Hcells, Hxy|]. by apply leftoverCell_clearsTo.
    + fold cleared. rewrite junkCount_gridUpdates. do 2 f_equal.
      apply list_filter_iff. intros [x y]. unfold turnedJunk.
      cbn [fst snd]. rewrite Hcells.
      destruct (cellAt stamped x y) as [c|];
        cbn [fmap option_fmap option_map mbind option_bind].
      * rewrite leftoverCell_junk. split.
        -- intros [? ?]. split; congruence.
        -- intros [[= ?] [= ?]]. done.
      * split; [done|]. intros [[=] _].
  - eexists. split; [reflexivity|].
    cbn [newGrid linesCleared junkCreated points newCombo].
    do 6 (split; [done|]). split; [done|]. done.
Qed.

(** The whole function on a legal placement. *)
Lemma placeBlockAndProcess_stamped grid block tx ty combo :
  wf_grid grid → canPlaceBlock grid block tx ty = Some true →
  ∃ stamped,
    placeCells grid block (cells block) tx ty = Some stamped ∧
    wf_grid stamped ∧
    (∀ x y, cellAt stamped x y =
            if decide (covers block tx ty x y)
            then stampCell block <$> cellAt grid x y
            else cellAt grid x y) ∧
    placeBlockAndProcess grid block tx ty combo =
      processLines stamped block combo.
Proof.
  intros Hwf Hfit.
  destruct (placeCells_legal grid block tx ty Hwf Hfit)
    as (stamped & Hs & Hwfs & Hcells).
  exists stamped. do 3 (split; [done|]).
  unfold placeBlockAndProcess. by rewrite Hs.
Qed.

End clear_phase.

(** ** placeBlockAndProcess on board values *)

Lemma rowFull_Forall grid y :
  rowFull grid y ↔ Forall (fun x => occupied grid x y) indices.
Proof.
  unfold rowFull. rewrite Forall_forall. unfold indices, GRID_SIZE.
  setoid_rewrite elem_of_seqZ. split; intros H x Hx; apply H; lia.
Qed.

Lemma colFull_Forall grid x :
  colFull grid x ↔ Forall (fun y => occupied grid x y) indices.
Proof.
  unfold colFull. rewrite Forall_forall. unfold indices, GRID_SIZE.
  setoid_rewrite elem_of_seqZ. split; intros H y Hy; apply H; lia.
Qed.

#[global] Instance rowFull_dec grid y : Decision (rowFull grid y).
Proof.
  refine (cast_if (decide (Forall (fun x => occupied grid x y) indices)));
    by rewrite rowFull_Forall.
Defined.

#[global] Instance colFull_dec grid x : Decision (colFull grid x).
Proof.
  refine (cast_if (decide (Forall (fun y => occupied grid x y) indices)));
    by rewrite colFull_Forall.
Defined.

#[global] Instance inClearedSet_dec grid x y :
  Decision (inClearedSet grid x y).
Proof. unfold inClearedSet. apply _. Defined.

(** What a legal placement that clears a line does to every cell of the
    stamped board, and what [junkCreated] counts. *)
Lemma clear_phase_cells grid block tx ty combo :
  wf_grid grid → canPlaceBlock grid block tx ty = Some true →
  ∃ stamped r,
    placeCells grid block (cells block) tx ty = Some stamped ∧
    placeBlockAndProcess grid block tx ty combo = Some r ∧
    (linesCleared r > 0 →
       (∀ x y c, cellAt stamped x y = Some c →
          ∃ c', cellAt (newGrid r) x y = Some c' ∧
                clearsTo stamped x y c c') ∧
       junkCreated r =
         Z.of_nat (length (filter (turnedJunk stamped (newGrid r))
                                  allCoords))).
Proof.
  intros Hwf Hfit.
  destruct (placeBlockAndProcess_stamped grid block tx ty combo Hwf Hfit)
    as (stamped & Hs & Hwfs & _ & Hp).
  destruct (processLines_spec stamped block combo Hwfs)
    as (fr & fc & r & Hr & _ & _ & _ & _ & _ & _ & Hpos & _).
  exists stamped, r. rewrite Hp. do 2 (split; [done|]).
  intros Hgt. destruct (Hpos Hgt) as (Hcells & Hjunk & _). done.
Qed.

(** C1, where the code departs from it.  The reverse L whose identifier
    is the empty string, placed at (4, 0) on the board with (0, 0) to
    (3, 0) filled, completes row 0.  Its third cell, at (5, 1), is
    filled, lies outside the cleared cell set, and carries the owner that
    the cleared cells (4, 0) and (5, 0) carry; yet the cell is returned
    as it was, and [junkCreated] is 0. *)
Theorem empty_identifier_escapes_leftover :
  wf_grid boardFour ∧ canPlaceBlock boardFour shapeNoId 4 0 = Some true ∧
  ∃ stamped r c,
    placeCells boardFour shapeNoId (cells shapeNoId) 4 0 = Some stamped ∧
    placeBlockAndProcess boardFour shapeNoId 4 0 0 = Some r ∧
    linesCleared r = 1 ∧
    cellAt stamped 5 1 = Some c ∧ status c = filled ∧
    blockId c = Some (block_id shapeNoId) ∧
    ¬ inClearedSet stamped 5 1 ∧
    ownerInCleared stamped (block_id shapeNoId) ∧
    cellAt (newGrid r) 5 1 = Some c ∧
    junkCreated r = 0 ∧ newCombo r = 1.
Proof.
  split; [exact boardFour_wf|]. split; [by vm_compute|].
  destruct (placeCells boardFour shapeNoId (cells shapeNoId) 4 0)
    as [stamped|] eqn:Hs; [|by vm_compute in Hs].
  destruct (placeBlockAndProcess boardFour shapeNoId 4 0 0)
    as [r|] eqn:Hr; [|by vm_compute in Hr].
  vm_compute in Hs. injection Hs as <-.
  vm_compute in Hr. injection Hr as <-.
  eexists _, _, _. do 2 (split; [reflexivity|]).
  split; [reflexivity|]. split; [reflexivity|].
  split; [reflexivity|]. split; [reflexivity|].
  split; [apply (bool_decide_unpack _); by vm_compute|].
  split.
  { eexists 5, 0, _. split; [apply (bool_decide_unpack _); by vm_compute|].
    split; reflexivity. }
  split; [reflexivity|]. split; reflexivity.
Qed.

(** C4.  For a legal placement on a board, [linesCleared] is the number
    of full rows plus the number of full columns of the board after
    stamping, among the 6 rows and the 6 columns; a line is full when
    each of its cells has a status other than empty, that is, filled or
    junk. *)
Theorem linesCleared_counts_full_lines grid block tx ty combo :
  wf_grid grid → canPlaceBlock grid block tx ty = Some true →
  ∃ stamped r fullRows fullCols,
    placeCells grid block (cells block) tx ty = Some stamped ∧
    placeBlockAndProcess grid block tx ty combo = Some r ∧
    NoDup fullRows ∧ NoDup fullCols ∧
    (∀ y, y ∈ fullRows ↔ 0 ≤ y < GRID_SIZE ∧ rowFull stamped y) ∧
    (∀ x, x ∈ fullCols ↔ 0 ≤ x < GRID_SIZE ∧ colFull stamped x) ∧
    linesCleared r =
      Z.of_nat (length fullRows) + Z.of_nat (length fullCols) ∧
    (∀ c, status c ≠ empty ↔ status c = filled ∨ status c = junk).
Proof.
  intros Hwf Hfit.
  destruct (placeBlockAndProcess_stamped grid block tx ty combo Hwf Hfit)
    as (stamped & Hs & Hwfs & _ & Hp).
  destruct (processLines_spec stamped block combo Hwfs)
    as (fr & fc & r & Hr & _ & Hndr & Hndc & Hrows & Hcols & Hlines & _).
  exists stamped, r, fr, fc. rewrite Hp.
  do 7 (split; [done|]). intros c. destruct (status c); naive_solver.
Qed.

Lemma linesCleared_counts_full_lines_witness :
  wf_grid boardFive ∧ canPlaceBlock boardFive shapeDot2 5 0 = Some true ∧
  ∃ stamped r fullRows fullCols,
    placeCells boardFive shapeDot2 (cells shapeDot2) 5 0 = Some stamped ∧
    placeBlockAndProcess boardFive shapeDot2 5 0 0 = Some r ∧
    NoDup fullRows ∧ NoDup fullCols ∧
    (∀ y, y ∈ fullRows ↔ 0 ≤ y < GRID_SIZE ∧ rowFull stamped y) ∧
    (∀ x, x ∈ fullCols ↔ 0 ≤ x < GRID_SIZE ∧ colFull stamped x) ∧
    linesCleared r =
      Z.of_nat (length fullRows) + Z.of_nat (length fullCols) ∧
    (∀ c, status c ≠ empty ↔ status c = filled ∨ status c = junk).
Proof.
  split; [exact boardFive_wf|]. split; [by vm_compute|].
  apply (linesCleared_counts_full_lines boardFive shapeDot2 5 0 0).
  - exact boardFive_wf.
  - by vm_compute.
Defined.

(** C3.  For a legal placement on a board and every combo counter (in
    particular every one that is at least 0): [linesCleared] is never
    negative; if it is 0, [newCombo] is 0 and [points] is 10 times the
    number of offsets of the shape; if it is positive, [newCombo] is
    [currentCombo + 1] when [junkCreated] is 0 and 0 otherwise, and
    [points] is 100 times [linesCleared], plus 50 times [linesCleared]
    when [junkCreated] is 0, plus 100 times [newCombo - 1] when
    [newCombo] is more than 1. *)
Theorem points_and_combo grid block tx ty comboIn :
  wf_grid grid → canPlaceBlock grid block tx ty = Some true →
  ∃ r, placeBlockAndProcess grid block tx ty comboIn = Some r ∧
       0 ≤ linesCleared r ∧
       (linesCleared r = 0 →
          newCombo r = 0 ∧
          points r = 10 * Z.of_nat (length (cells block))) ∧
       (linesCleared r > 0 →
          newCombo r = (if decide (junkCreated r = 0) then comboIn + 1 else 0) ∧
          points r =
            100 * linesCleared r
            + (if decide (junkCreated r = 0) then 50 * linesCleared r else 0)
            + (if decide (newCombo r > 1) then (newCombo r - 1) * 100 else 0)).
Proof.
  intros Hwf Hfit.
  destruct (placeBlockAndProcess_stamped grid block tx ty comboIn Hwf Hfit)
    as (stamped & Hs & Hwfs & _ & Hp).
  destruct (processLines_spec stamped block comboIn Hwfs)
    as (fr & fc & r & Hr & _ & _ & _ & _ & _ & Hlines & Hpos & Hzero).
  exists r. rewrite Hp. split; [done|]. split; [lia|]. split.
  - intros H0. destruct Hzero as (_ & _ & Hc & Hpts); [lia|].
    split; [done|]. lia.
  - intros Hgt. destruct (Hpos Hgt) as (_ & _ & Hc & Hpts).
    split; [done|]. rewrite Hpts. unfold pointsAfterClear.
    repeat case_decide; lia.
Qed.

Lemma points_and_combo_witness :
  wf_grid boardFive ∧ canPlaceBlock boardFive shapeDot2 5 0 = Some true ∧
  ∃ r, placeBlockAndProcess boardFive shapeDot2 5 0 2 = Some r ∧
       0 ≤ linesCleared r ∧
       (linesCleared r = 0 →
          newCombo r = 0 ∧
          points r = 10 * Z.of_nat (length (cells shapeDot2))) ∧
       (linesCleared r > 0 →
          newCombo r = (if decide (junkCreated r = 0) then 2 + 1 else 0) ∧
          points r =
            100 * linesCleared r
            + (if decide (junkCreated r = 0) then 50 * linesCleared r else 0)
            + (if decide (newCombo r > 1) then (newCombo r - 1) * 100 else 0)).
Proof.
  split; [exact boardFive_wf|]. split; [by vm_compute|].
  apply (points_and_combo boardFive shapeDot2 5 0 2).
  - exact boardFive_wf.
  - by vm_compute.
Defined.

(** C2.  For a legal placement on a board, every cell that is junk on
    the board after stamping is the same cell, at the same coordinate, in
    the board returned; so a junk cell of a full row or column is still
    there, not empty, after the line is cleared. *)
Theorem junk_survives_clear grid block tx ty combo :
  wf_grid grid → canPlaceBlock grid block tx ty = Some true →
  ∃ stamped r,
    placeCells grid block (cells block) tx ty = Some stamped ∧
    placeBlockAndProcess grid block tx ty combo = Some r ∧
    (∀ x y c, cellAt stamped x y = Some c → status c = junk →
              cellAt (newGrid r) x y = Some c) ∧
    (∀ x y c, inClearedSet stamped x y →
              cellAt stamped x y = Some c → status c = junk →
              ∃ c', cellAt (newGrid r) x y = Some c' ∧ status c' ≠ empty).
Proof.
  intros Hwf Hfit.
  destruct (placeBlockAndProcess_stamped grid block tx ty combo Hwf Hfit)
    as (stamped & Hs & Hwfs & _ & Hp).
  destruct (processLines_spec stamped block combo Hwfs)
    as (fr & fc & r & Hr & _ & _ & _ & _ & _ & _ & Hpos & Hzero).
  exists stamped, r. rewrite Hp. do 2 (split; [done|]).
  assert (∀ x y c, cellAt stamped x y = Some c → status c = junk →
                   cellAt (newGrid r) x y = Some c) as Hjunk.
  { intros x y c Hc Hst. destruct (decide (linesCleared r > 0)) as [Hgt|Hle].
    - destruct (Hpos Hgt) as (Hcells & _).
      destruct (Hcells x y c Hc) as (c' & Hc' & Hto).
      inversion Hto; subst; (congruence || done).
    - destruct (Hzero Hle) as (-> & _). done. }
  split; [done|]. intros x y c _ Hc Hst. exists c.
  split; [by apply Hjunk|]. by rewrite Hst.
Qed.

Lemma junk_survives_clear_witness :
  wf_grid boardColumn ∧ canPlaceBlock boardColumn shapeDot2 5 0 = Some true ∧
  ∃ stamped r,
    placeCells boardColumn shapeDot2 (cells shapeDot2) 5 0 = Some stamped ∧
    placeBlockAndProcess boardColumn shapeDot2 5 0 0 = Some r ∧
    (∀ x y c, cellAt stamped x y = Some c → status c = junk →
              cellAt (newGrid r) x y = Some c) ∧
    (∀ x y c, inClearedSet stamped x y →
              cellAt stamped x y = Some c → status c = junk →
              ∃ c', cellAt (newGrid r) x y = Some c' ∧ status c' ≠ empty).
Proof.
  split; [exact boardColumn_wf|]. split; [by vm_compute|].
  apply (junk_survives_clear boardColumn shapeDot2 5 0 0).
  - exact boardColumn_wf.
  - by vm_compute.
Defined.

(** A legal placement on a board returns a board. *)
Lemma placeBlockAndProcess_total grid block tx ty combo :
  wf_grid grid → canPlaceBlock grid block tx ty = Some true →
  ∃ r, placeBlockAndProcess grid block tx ty combo = Some r ∧
       wf_grid (newGrid r).
Proof.
  intros Hwf Hfit.
  destruct (placeBlockAndProcess_stamped grid block tx ty combo Hwf Hfit)
    as (stamped & Hs & Hwfs & _ & Hp).
  destruct (processLines_spec stamped block combo Hwfs)
    as (fr & fc & r & Hr & Hwfr & _).
  exists r. by rewrite Hp.
Qed.

Lemma createEmptyGrid_cells x y c :
  cellAt createEmptyGrid x y = Some c →
  status c = empty ∧ blockId c = None.
Proof.
  intros Hc. assert (Forall (Forall (fun c =>
    status c = empty ∧ blockId c = None)) createEmptyGrid) as HF.
  { unfold createEmptyGrid. apply Forall_fmap, Forall_forall. intros y' _.
    apply Forall_fmap, Forall_forall. intros x' _. done. }
  rewrite Forall_cells in HF. by apply (HF x y).
Qed.

(** The invariant that a placement keeps. *)
Lemma placement_keeps_owner_invariant grid block tx ty combo r :
  wf_grid grid → Forall (Forall ownerIffFilled) grid →
  canPlaceBlock grid block tx ty = Some true →
  placeBlockAndProcess grid block tx ty combo = Some r →
  Forall (Forall ownerIffFilled) (newGrid r).
Proof.
  intros Hwf Hinv Hfit Hres.
  destruct (placeBlockAndProcess_stamped grid block tx ty combo Hwf Hfit)
    as (stamped & Hs & Hwfs & Hst & Hp).
  destruct (processLines_spec stamped block combo Hwfs)
    as (fr & fc & r' & Hr & _ & _ & _ & _ & _ & _ & Hpos & Hzero).
  assert (r' = r) as -> by congruence.
  rewrite Forall_cells in Hinv.
  assert (∀ x y c, cellAt stamped x y = Some c → ownerIffFilled c) as Hinvs.
  { intros x y c. rewrite Hst. case_decide.
    - destruct (cellAt grid x y) as [c0|]; [|done]. intros [= <-].
      unfold ownerIffFilled. simpl. done.
    - apply Hinv. }
  apply Forall_cells. intros x y c' Hc'.
  destruct (decide (linesCleared r > 0)) as [Hgt|Hle].
  - destruct (Hpos Hgt) as (Hcells & _).
    destruct (cellAt_is_Some stamped x y Hwfs) as [c Hc].
    { eapply cellAt_inBounds; [|exact Hc'].
      destruct (placeBlockAndProcess_total grid block tx ty combo Hwf Hfit)
        as (r' & Hr' & Hwfr). congruence. }
    destruct (Hcells x y c Hc) as (c'' & Hc'' & Hto).
    assert (c'' = c') as -> by congruence.
    inversion Hto; subst; unfold ownerIffFilled; simpl; try done.
    by eapply Hinvs.
  - destruct (Hzero Hle) as (Heq & _). rewrite Heq in Hc'. by eapply Hinvs.
Qed.

Lemma reachable_wf grid : reachable grid → wf_grid grid.
Proof.
  induction 1 as [|grid block x y combo r Hreach IH Hfit Hres].
  - exact createEmptyGrid_wf.
  - destruct (placeBlockAndProcess_total grid block x y combo IH Hfit)
      as (r' & Hr' & Hwfr). congruence.
Qed.

Lemma reachable_after grid block x y :
  reachable grid → canPlaceBlock grid block x y = Some true →
  reachable (after grid block x y).
Proof.
  intros Hreach Hfit. unfold after.
  destruct (placeBlockAndProcess_total grid block x y 0
              (reachable_wf _ Hreach) Hfit) as (r & Hr & _).
  rewrite Hr. simpl. by eapply reachable_place.
Qed.

(** C8.  On every board reachable from [createEmptyGrid] by legal
    placements, every cell has an owner exactly when it is filled, so
    junk cells and empty cells have none; and every legal placement on
    such a board returns, so that the reachable boards are the boards of
    all games. *)
Theorem owner_iff_filled grid :
  reachable grid →
  wf_grid grid ∧
  Forall (Forall ownerIffFilled) grid ∧
  (∀ x y c, cellAt grid x y = Some c →
            status c = junk ∨ status c = empty → blockId c = None) ∧
  (∀ block x y combo, canPlaceBlock grid block x y = Some true →
     ∃ r, placeBlockAndProcess grid block x y combo = Some r ∧
          reachable (newGrid r)).
Proof.
  intros Hreach. pose proof (reachable_wf _ Hreach) as Hwf.
  assert (Forall (Forall ownerIffFilled) grid) as Hinv.
  { clear Hwf.
    induction Hreach as [|grid block x y combo r Hreach IH Hfit Hres].
    - apply Forall_cells. intros x y c [Hst Hown]%createEmptyGrid_cells.
      unfold ownerIffFilled. rewrite Hst, Hown. done.
    - eapply placement_keeps_owner_invariant; [|done..].
      by apply reachable_wf. }
  do 2 (split; [done|]). split.
  - intros x y c Hc Hst. rewrite Forall_cells in Hinv.
    specialize (Hinv x y c Hc). unfold ownerIffFilled in Hinv.
    destruct (blockId c); [|done].
    assert (status c = filled) by (by apply Hinv). destruct Hst; congruence.
  - intros block x y combo Hfit.
    destruct (placeBlockAndProcess_total grid block x y combo Hwf Hfit)
      as (r & Hr & _).
    exists r. split; [done|]. by eapply reachable_place.
Qed.

Lemma boardJunk_reachable : reachable boardJunk.
Proof.
  unfold boardJunk, boardFour.
  repeat (apply reachable_after; [|by vm_compute]). constructor.
Qed.

Lemma owner_iff_filled_witness :
  reachable boardJunk ∧
  (status <$> cellAt boardJunk 5 1 = Some junk) ∧
  Forall (Forall ownerIffFilled) boardJunk.
Proof.
  split; [exact boardJunk_reachable|]. split; [by vm_compute|].
  apply (owner_iff_filled boardJunk). exact boardJunk_reachable.
Defined.

(** ** The row scenario *)

Lemma length_one_of_unique {A} (l : list A) a :
  NoDup l → (∀ b, b ∈ l ↔ b = a) → length l = 1%nat.
Proof.
  intros Hnd Hmem. destruct l as [|b l].
  { assert (a ∈ @nil A) as Hin by (by apply Hmem). by apply elem_of_nil in Hin. }
  apply NoDup_cons in Hnd as [Hb Hnd].
  assert (b = a) as -> by (apply Hmem; by left).
  destruct l as [|c l]; [done|]. exfalso. apply Hb.
  assert (c = a) as -> by (apply Hmem; right; by left). by left.
Qed.

Lemma filter_none {A} (P : A → Prop) `{∀ a, Decision (P a)} (l : list A) :
  (∀ a, a ∈ l → ¬ P a) → filter P l = [].
Proof.
  induction l as [|a l IH]; intros Hno; [done|].
  rewrite filter_cons, decide_False by (apply Hno; by left).
  apply IH. intros b Hb. apply Hno. by right.
Qed.

Lemma boardFive_rowZeroFilled : rowZeroFilled boardFive.
Proof.
  intros x y c Hc.
  assert (Forall (fun p =>
    status <$> cellAt boardFive p.1 p.2 =
    Some (if decide (p.2 = 0 ∧ 0 ≤ p.1 ≤ 4) then filled else empty))
    allCoords) as HF.
  { apply (bool_decide_unpack _). by vm_compute. }
  rewrite Forall_forall in HF. specialize (HF (x, y)). simpl in HF.
  rewrite Hc in HF. simpl in HF.
  assert ((x, y) ∈ allCoords) as Hin.
  { unfold allCoords.
    destruct (cellAt_inBounds _ _ _ _ boardFive_wf Hc).
    apply list_elem_of_bind. exists y. rewrite elem_of_indices.
    split; [|done]. apply list_elem_of_fmap. exists x.
    by rewrite elem_of_indices. }
  specialize (HF Hin). case_decide; congruence.
Qed.

(** C9, refuted as stated: on the board with (0, 0) to (4, 0) filled,
    the dot at (5, 0) with a combo counter of 1 earns 250 points, not
    150. *)
Lemma completing_row_with_streak :
  wf_grid boardFive ∧ rowZeroFilled boardFive ∧
  cells shapeDot2 = [mkCoordinate 0 0] ∧ 0 ≤ 1 ∧
  points <$> placeBlockAndProcess boardFive shapeDot2 5 0 1 = Some 250 ∧
  ¬ ∃ r, placeBlockAndProcess boardFive shapeDot2 5 0 1 = Some r ∧
         linesCleared r = 1 ∧ junkCreated r = 0 ∧ points r = 150 ∧
         newCombo r = 1 + 1.
Proof.
  split; [exact boardFive_wf|]. split; [exact boardFive_rowZeroFilled|].
  split; [done|]. split; [done|]. split; [by vm_compute|].
  intros (r & Hr & _ & _ & Hp & _).
  assert (points <$> placeBlockAndProcess boardFive shapeDot2 5 0 1
          = Some 250) as H250 by (by vm_compute).
  rewrite Hr in H250. simpl in H250. congruence.
Qed.

(** C9 (amended).  On every board whose cells (0, 0) to (4, 0) are
    filled and whose other cells are empty, and for every combo counter
    that is at least 0, a single-dot shape placed at (5, 0) clears one
    line, makes no junk, raises the combo counter by one, and earns
    150 points plus 100 points for each point of the combo counter it was
    given: 150 when that counter is 0. *)
Theorem completing_row_zero grid block comboIn :
  wf_grid grid → rowZeroFilled grid →
  cells block = [mkCoordinate 0 0] → 0 ≤ comboIn →
  ∃ r, placeBlockAndProcess grid block 5 0 comboIn = Some r ∧
       linesCleared r = 1 ∧ junkCreated r = 0 ∧
       newCombo r = comboIn + 1 ∧
       points r = 150 + 100 * comboIn ∧
       (comboIn = 0 → points r = 150).
Proof.
  intros Hwf Hrow Hcells Hcombo.
  assert (canPlaceBlock grid block 5 0 = Some true) as Hfit.
  { apply canPlaceBlock_fits. intros cell. rewrite Hcells.
    intros ->%list_elem_of_singleton. simpl.
    assert (inBounds 5 0) as Hb by (unfold inBounds, GRID_SIZE; lia).
    split; [done|]. destruct (cellAt_is_Some grid 5 0 Hwf Hb) as [c Hc].
    exists c. split; [done|]. specialize (Hrow _ _ _ Hc).
    rewrite decide_False in Hrow by lia. done. }
  destruct (placeBlockAndProcess_stamped grid block 5 0 comboIn Hwf Hfit)
    as (stamped & Hs & Hwfs & Hst & Hp).
  assert (∀ x y c, cellAt stamped x y = Some c →
            if decide (y = 0) then status c = filled else status c = empty)
    as Hrows.
  { intros x y c. rewrite Hst.
    case_decide as Hcov; unfold covers in Hcov; rewrite Hcells in Hcov.
    - apply list_elem_of_singleton in Hcov. injection Hcov as Hx Hy.
      destruct (cellAt grid x y) as [c0|]; [|done]. intros [= <-].
      rewrite decide_True by lia. done.
    - intros Hc. pose proof (cellAt_inBounds _ _ _ _ Hwf Hc) as [Hx Hy].
      specialize (Hrow _ _ _ Hc). rewrite list_elem_of_singleton in Hcov.
      unfold GRID_SIZE in *.
      destruct (decide (y = 0)) as [->|Hy0].
      + rewrite decide_True in Hrow; [done|]. split; [done|].
        destruct (decide (x = 5)) as [->|?]; [|lia].
        exfalso. apply Hcov. f_equal; lia.
      + rewrite decide_False in Hrow by lia. done. }
  assert (rowFull stamped 0) as Hfull0.
  { intros x Hx. destruct (cellAt_is_Some stamped x 0 Hwfs) as [c Hc];
      [unfold inBounds, GRID_SIZE in *; lia|].
    exists c. split; [done|]. specialize (Hrows _ _ _ Hc).
    rewrite decide_True in Hrows by done. by rewrite Hrows. }
  assert (∀ x y, inBounds x y → y ≠ 0 →
            ∃ c, cellAt stamped x y = Some c ∧ status c = empty) as Hempty.
  { intros x y Hb Hy. destruct (cellAt_is_Some stamped x y Hwfs Hb) as [c Hc].
    exists c. split; [done|]. specialize (Hrows _ _ _ Hc).
    rewrite decide_False in Hrows by done. done. }
  destruct (processLines_spec stamped block comboIn Hwfs)
    as (fr & fc & r & Hr & _ & Hndr & Hndc & Hfr & Hfc & Hlines & Hpos & _).
  exists r. rewrite Hp. split; [done|].
  assert (length fr = 1%nat) as Hlenr.
  { apply (length_one_of_unique _ 0 Hndr). intros y. rewrite Hfr.
    unfold GRID_SIZE. split; [|intros ->; split; [lia|done]].
    intros [Hy Hrf]. destruct (decide (y = 0)) as [|Hy0]; [done|].
    exfalso. destruct (Hempty 0 y) as (c & Hc & He);
      [unfold inBounds, GRID_SIZE; lia|done|].
    destruct (Hrf 0) as (c' & Hc' & Hne); [unfold GRID_SIZE; lia|].
    congruence. }
  assert (fc = []) as ->.
  { destruct fc as [|x fc]; [done|]. exfalso.
    destruct (proj1 (Hfc x)) as [Hx Hcf]; [by left|].
    destruct (Hempty x 1) as (c & Hc & He);
      [unfold inBounds, GRID_SIZE in *; lia|done|].
    destruct (Hcf 1) as (c' & Hc' & Hne); [unfold GRID_SIZE; lia|].
    congruence. }
  rewrite Hlenr in Hlines. simpl in Hlines.
  destruct Hpos as (Hto & Hjunk & Hc & Hpts); [lia|].
  assert (junkCreated r = 0) as Hj0.
  { rewrite Hjunk, filter_none; [done|].
    intros [x y] _ [Hbefore Hafter]. simpl in *.
    destruct (cellAt stamped x y) as [c|] eqn:Hcs; [|done].
    injection Hbefore as Hbefore.
    destruct (Hto x y c Hcs) as (c' & Hc' & Hclr).
    rewrite Hc' in Hafter. injection Hafter as Hafter.
    pose proof (Hrows _ _ _ Hcs) as Hy.
    destruct (decide (y = 0)) as [->|]; [|congruence].
    inversion Hclr; subst; simpl in *; try congruence.
    match goal with Hnot : ¬ inClearedSet _ _ _ |- _ => apply Hnot end.
    split; [exact (cellAt_inBounds _ _ _ _ Hwfs Hcs)|by left]. }
  rewrite Hj0 in Hc, Hpts.
  unfold comboAfterClear in Hc. rewrite decide_True in Hc by done.
  unfold pointsAfterClear in Hpts.
  rewrite (decide_True (P := 0 = 0)) in Hpts by done.
  rewrite Hlines, Hc in Hpts.
  do 3 (split; [done|]). split.
  - rewrite Hpts. case_decide; lia.
  - intros ->. rewrite Hpts. rewrite decide_False by lia. lia.
Qed.

Lemma completing_row_zero_witness :
  wf_grid boardFive ∧ rowZeroFilled boardFive ∧
  cells shapeDot2 = [mkCoordinate 0 0] ∧ 0 ≤ 3 ∧
  ∃ r, placeBlockAndProcess boardFive shapeDot2 5 0 3 = Some r ∧
       linesCleared r = 1 ∧ junkCreated r = 0 ∧
       newCombo r = 3 + 1 ∧
       points r = 150 + 100 * 3 ∧
       (3 = 0 → points r = 150).
Proof.
  split; [exact boardFive_wf|]. split; [exact boardFive_rowZeroFilled|].
  split; [reflexivity|]. split; [lia|].
  apply (completing_row_zero boardFive shapeDot2 3).
  - exact boardFive_wf.
  - exact boardFive_rowZeroFilled.
  - reflexivity.
  - lia.
Defined.

(** ** placeBlockAndProcess on the store *)

Section store_writes.
Implicit Types (h : Store) (grid : Grid).

Lemma alloc_spec o h :
  ((alloc o h).1 ∉ dom h) ∧ (alloc o h).2 = <[(alloc o h).1 := o]> h ∧
  h ⊆ (alloc o h).2.
Proof.
  unfold alloc. simpl. pose proof (is_fresh (dom h)) as Hf.
  split; [done|]. split; [done|].
  apply insert_subseteq. by apply not_elem_of_dom.
Qed.

Lemma subseteq_dom_notin h0 h l : h0 ⊆ h → l ∉ dom h → l ∉ dom h0.
Proof.
  intros Hsub Hl Hin. apply Hl. apply elem_of_dom in Hin as [o Ho].
  apply elem_of_dom. exists o. by eapply lookup_weaken.
Qed.

Lemma readRow_weaken h h' r row :
  h ⊆ h' → readRow h r = Some row → readRow h' r = Some row.
Proof.
  unfold readRow. intros Hsub Hr.
  destruct (readArray h r) as [cls|] eqn:Ha; simpl in Hr; [|done].
  apply readArray_Some in Ha.
  rewrite (proj2 (readArray_Some h' r cls)) by (by eapply lookup_weaken).
  simpl. apply mapM_Some. apply mapM_Some in Hr.
  eapply Forall2_impl; [exact Hr|]. intros cl c Hc. simpl in *.
  apply readCell_Some in Hc. apply readCell_Some. by eapply lookup_weaken.
Qed.

Lemma readGrid_weaken h h' g grid :
  h ⊆ h' → readGrid h g = Some grid → readGrid h' g = Some grid.
Proof.
  unfold readGrid. intros Hsub Hg.
  destruct (readArray h g) as [rows|] eqn:Ha; simpl in Hg; [|done].
  apply readArray_Some in Ha.
  rewrite (proj2 (readArray_Some h' g rows)) by (by eapply lookup_weaken).
  simpl. apply mapM_Some. apply mapM_Some in Hg.
  eapply Forall2_impl; [exact Hg|]. intros r row Hr. by eapply readRow_weaken.
Qed.

Lemma ownsGrid_readGrid h0 h g grid :
  ownsGrid h0 h g grid → readGrid h g = Some grid.
Proof.
  intros (_ & rows & Hg & _ & _ & HF). unfold readGrid.
  rewrite (proj2 (readArray_Some h g rows)) by done. simpl.
  apply mapM_Some. eapply Forall2_impl; [exact HF|].
  intros r row (_ & cls & Hr & Hcells). unfold readRow.
  rewrite (proj2 (readArray_Some h r cls)) by done. simpl.
  apply mapM_Some. eapply Forall2_impl; [exact Hcells|].
  intros cl c [_ Hc]. by apply readCell_Some.
Qed.

(** The copy of one row: new cell objects with the same fields. *)
Lemma copyCells_spec h row cs :
  Forall2 (fun cl c => readCell h cl = Some c) row cs →
  ∃ row' h', copyCells h row = Some (row', h') ∧ h ⊆ h' ∧
    Forall2 (fun cl c => (cl ∉ dom h) ∧ h' !! cl = Some (ObjCell c)) row' cs.
Proof.
  intros HF. revert h HF.
  induction row as [|cl row IH] in cs |- *; intros h HF.
  { apply Forall2_nil_inv_l in HF as ->. exists [], h. by repeat split. }
  apply Forall2_cons_inv_l in HF as (c & cs' & Hc & HF & ->).
  cbn [copyCells]. rewrite Hc. cbn [mbind option_bind].
  destruct (alloc_spec (ObjCell c) h) as (Hfresh & Heq & Hsub).
  destruct (alloc (ObjCell c) h) as [cl' h1] eqn:Ha. simpl in *.
  destruct (IH cs' h1) as (row' & h' & Hcopy & Hsub' & HF').
  { eapply Forall2_impl; [exact HF|]. intros l c' Hl. simpl in *.
    apply readCell_Some in Hl. apply readCell_Some. by eapply lookup_weaken. }
  rewrite Hcopy. cbn [mbind option_bind].
  exists (cl' :: row'), h'. split; [done|]. split; [by etrans|].
  constructor.
  - split; [done|]. eapply lookup_weaken; [|exact Hsub'].
    rewrite Heq. apply lookup_insert_eq.
  - eapply Forall2_impl; [exact HF'|]. intros l c' [Hl Hc']. simpl in *.
    split; [|done]. by eapply subseteq_dom_notin.
Qed.

(** The copy of the rows: new row arrays, pairwise distinct. *)
Lemma copyRows_spec h rows grid :
  Forall2 (fun r row => readRow h r = Some row) rows grid →
  ∃ rows' h', copyRows h rows = Some (rows', h') ∧ h ⊆ h' ∧
    NoDup rows' ∧ (∀ r, r ∈ rows' → r ∈ dom h') ∧
    Forall2 (fun r row =>
      (r ∉ dom h) ∧
      ∃ cls, h' !! r = Some (ObjArray cls) ∧
        Forall2 (fun cl c => (cl ∉ dom h) ∧ h' !! cl = Some (ObjCell c))
                cls row)
      rows' grid.
Proof.
  intros HF. revert h HF.
  induction rows as [|r rows IH] in grid |- *; intros h HF.
  { apply Forall2_nil_inv_l in HF as ->. exists [], h.
    repeat split; try done; [constructor|]. intros r Hr.
    by apply elem_of_nil in Hr. }
  apply Forall2_cons_inv_l in HF as (row & grid' & Hrow & HF & ->).
  cbn [copyRows]. unfold readRow in Hrow.
  destruct (readArray h r) as [cls0|] eqn:Hr0; simpl in Hrow; [|done].
  cbn [mbind option_bind]. apply mapM_Some in Hrow.
  destruct (copyCells_spec h cls0 row Hrow) as (cls' & h1 & Hcopy & Hsub1 & Hcells).
  rewrite Hcopy. cbn [mbind option_bind].
  destruct (alloc_spec (ObjArray cls') h1) as (Hfresh & Heq & Hsub2).
  destruct (alloc (ObjArray cls') h1) as [r' h2] eqn:Ha. simpl in *.
  destruct (IH grid' h2) as (rows' & h3 & Hrows & Hsub3 & Hnd & Hdom & HF').
  { eapply Forall2_impl; [exact HF|]. intros l row' Hl. simpl in *.
    eapply readRow_weaken; [|exact Hl]. by etrans. }
  rewrite Hrows. cbn [mbind option_bind].
  exists (r' :: rows'), h3. split; [done|].
  split; [by etrans; [|etrans]|].
  assert (h2 !! r' = Some (ObjArray cls')) as Hr2
    by (rewrite Heq; apply lookup_insert_eq).
  split; [|split].
  - apply NoDup_cons. split; [|done]. intros Hin.
    rewrite Forall2_lookup in HF'. apply list_elem_of_lookup in Hin as [j Hj].
    specialize (HF' j). rewrite Hj in HF'.
    inversion HF' as [? ? [Hnot _] | ]; subst.
    apply Hnot. apply elem_of_dom. eauto.
  - intros l [->|Hl]%elem_of_cons; [|by apply Hdom].
    apply elem_of_dom. exists (ObjArray cls'). by eapply lookup_weaken.
  - constructor.
    + split; [by eapply subseteq_dom_notin|]. exists cls'.
      split; [by eapply lookup_weaken|].
      eapply Forall2_impl; [exact Hcells|]. intros l c [Hl Hc]. simpl in *.
      split; [done|]. eapply lookup_weaken; [exact Hc|]. by etrans.
    + eapply Forall2_impl; [exact HF'|].
      intros l row' (Hl & cls & Hcls & Hc). simpl in *.
      assert (h ⊆ h2) as Hsub by (by etrans).
      split; [by eapply subseteq_dom_notin|]. exists cls. split; [done|].
      eapply Forall2_impl; [exact Hc|]. intros cl c [Hcl Hc']. simpl in *.
      split; [by eapply subseteq_dom_notin|done].
Qed.

(** Step 1: the copy stands for the same board and shares no object
    with the store it was made from. *)
Lemma copyGrid_spec h g grid :
  readGrid h g = Some grid →
  ∃ g' h', copyGrid h g = Some (g', h') ∧ h ⊆ h' ∧ ownsGrid h h' g' grid.
Proof.
  unfold readGrid, copyGrid. intros Hg.
  destruct (readArray h g) as [rows|]; simpl in Hg; [|done].
  cbn [mbind option_bind]. apply mapM_Some in Hg.
  destruct (copyRows_spec h rows grid Hg)
    as (rows' & h1 & Hcopy & Hsub1 & Hnd & Hdom & HF).
  rewrite Hcopy. cbn [mbind option_bind].
  destruct (alloc_spec (ObjArray rows') h1) as (Hfresh & Heq & Hsub2).
  destruct (alloc (ObjArray rows') h1) as [g' h2] eqn:Ha. simpl in *.
  exists g', h2. split; [done|]. split; [by etrans|].
  split; [by eapply subseteq_dom_notin|]. exists rows'.
  split; [rewrite Heq; apply lookup_insert_eq|]. split; [done|].
  split; [intros Hin; apply Hfresh; by apply Hdom|].
  eapply Forall2_impl; [exact HF|].
  intros r row (Hr & cls & Hcls & Hc). simpl in *.
  split; [done|]. exists cls. split; [by eapply lookup_weaken|].
  eapply Forall2_impl; [exact Hc|]. intros cl c [Hcl Hc']. simpl in *.
  split; [done|]. by eapply lookup_weaken.
Qed.

End store_writes.

Section store_updates.
Implicit Types (h : Store) (grid : Grid).

Lemma lookupZ_Forall2_l {A B} (P : A → B → Prop) (l : list A) (k : list B)
    i b :
  Forall2 P l k → lookupZ k i = Some b →
  ∃ a, lookupZ l i = Some a ∧ P a b.
Proof.
  intros HF Hb. pose proof (lookupZ_Forall2 P l k i HF) as H.
  rewrite Hb in H. destruct (lookupZ l i) as [a|]; [eauto|done].
Qed.

(** One write through an owned reference: the store follows the board,
    and no object of the earlier store is touched. *)
Lemma writeCellH_spec h0 h g grid x y f grid' :
  h0 ⊆ h → ownsGrid h0 h g grid →
  writeCell grid x y f = Some grid' →
  ∃ h', writeCellH h g x y f = Some h' ∧ h0 ⊆ h' ∧ ownsGrid h0 h' g grid'.
Proof.
  intros Hsub (Hg0 & rows & Hg & Hnd & Hgrows & HF) Hw.
  unfold writeCell in Hw.
  destruct (lookupZ grid y) as [row|] eqn:Hrow; simpl in Hw; [|done].
  destruct (lookupZ row x) as [old|] eqn:Hold; simpl in Hw; [|done].
  injection Hw as <-.
  destruct (lookupZ_Forall2_l _ _ _ _ _ HF Hrow)
    as (r & Hr & Hr0 & cls & Hcls & Hcells).
  destruct (lookupZ_Forall2_l _ _ _ _ _ Hcells Hold)
    as (cl & Hcl & Hcl0 & Hclo).
  unfold writeCellH.
  rewrite (proj2 (readArray_Some h g rows)) by done. cbn [mbind option_bind].
  rewrite Hr. cbn [mbind option_bind].
  rewrite (proj2 (readArray_Some h r cls)) by done. cbn [mbind option_bind].
  rewrite Hcl. cbn [mbind option_bind].
  rewrite (proj2 (readCell_Some h cl old)) by done. cbn [mbind option_bind].
  destruct (alloc_spec (ObjCell (f old)) h) as (Hfresh & Heq & Hsub1).
  destruct (alloc (ObjCell (f old)) h) as [cl' h1] eqn:Ha. simpl in *.
  eexists. split; [done|].
  set (h' := <[r := ObjArray (<[Z.to_nat x := cl']> cls)]> h1).
  assert (r ≠ cl') as Hrcl.
  { intros ->. apply Hfresh. apply elem_of_dom. eauto. }
  (* whatever was in [h] and is not the row written is still there *)
  assert (∀ l o, h !! l = Some o → l ≠ r → h' !! l = Some o) as Hframe.
  { intros l o Hl Hne. subst h'. rewrite lookup_insert_ne by done.
    by eapply lookup_weaken. }
  assert (h' !! cl' = Some (ObjCell (f old))) as Hnew.
  { subst h'. rewrite lookup_insert_ne by done. rewrite Heq.
    apply lookup_insert_eq. }
  assert (r ∈ rows) as Hrin.
  { apply lookupZ_Some in Hr as [_ Hr]. by eapply list_elem_of_lookup_2. }
  split.
  { subst h'. apply insert_subseteq_r; [by apply not_elem_of_dom|].
    by etrans. }
  split; [done|]. exists rows.
  split; [apply Hframe; [done|]; intros ->; done|].
  split; [done|]. split; [done|].
  pose proof Hrow as [Hy Hrow']%lookupZ_Some.
  pose proof Hr as [_ Hr']%lookupZ_Some.
  pose proof Hold as [Hx Hold']%lookupZ_Some.
  apply Forall2_same_length_lookup. split.
  { rewrite length_insert. by eapply Forall2_length. }
  intros j rj rowj Hrj Hrowj.
  assert (∀ cs rw,
    Forall2 (fun cl c => (cl ∉ dom h0) ∧ h !! cl = Some (ObjCell c)) cs rw →
    Forall2 (fun cl c => (cl ∉ dom h0) ∧ h' !! cl = Some (ObjCell c)) cs rw)
    as Hcellsframe.
  { intros cs rw Hcs. eapply Forall2_impl; [exact Hcs|].
    intros l c [Hl0 Hl]. simpl in *. split; [done|].
    apply Hframe; [done|]. intros ->. congruence. }
  destruct (decide (j = Z.to_nat y)) as [->|Hj].
  - rewrite list_lookup_insert_eq in Hrowj by (by eapply lookup_lt_Some).
    injection Hrowj as <-. assert (rj = r) as -> by congruence.
    split; [done|]. exists (<[Z.to_nat x := cl']> cls).
    split; [subst h'; apply lookup_insert_eq|].
    apply Forall2_insert; [by apply Hcellsframe|].
    split; [|done]. by eapply subseteq_dom_notin.
  - rewrite list_lookup_insert_ne in Hrowj by done.
    destruct (Forall2_lookup_lr _ _ _ _ _ _ HF Hrj Hrowj)
      as (Hrj0 & clsj & Hclsj & Hcellsj).
    split; [done|]. exists clsj. split; [|by apply Hcellsframe].
    apply Hframe; [done|]. intros ->.
    apply Hj. by eapply NoDup_lookup.
Qed.

Lemma placeCellsH_spec h0 h g grid block cs tx ty grid' :
  h0 ⊆ h → ownsGrid h0 h g grid →
  placeCells grid block cs tx ty = Some grid' →
  ∃ h', placeCellsH h g block cs tx ty = Some h' ∧ h0 ⊆ h' ∧
        ownsGrid h0 h' g grid'.
Proof.
  revert h grid. induction cs as [|cell rest IH]; intros h grid Hsub Hown Hp.
  { injection Hp as <-. by exists h. }
  cbn [placeCells placeCellsH] in *.
  destruct (writeCell grid _ _ _) as [g1|] eqn:Hw; simpl in Hp; [|done].
  destruct (writeCellH_spec _ _ _ _ _ _ _ _ Hsub Hown Hw)
    as (h1 & Hw1 & Hsub1 & Hown1).
  rewrite Hw1. cbn [mbind option_bind]. by eapply IH.
Qed.

Lemma applyUpdatesH_spec h0 h g grid us grid' :
  h0 ⊆ h → ownsGrid h0 h g grid →
  applyUpdates grid us = Some grid' →
  ∃ h', applyUpdatesH h g us = Some h' ∧ h0 ⊆ h' ∧ ownsGrid h0 h' g grid'.
Proof.
  revert h grid. induction us as [|u rest IH]; intros h grid Hsub Hown Hp.
  { injection Hp as <-. by exists h. }
  cbn [applyUpdates applyUpdatesH] in *.
  destruct (writeCell grid _ _ _) as [g1|] eqn:Hw; simpl in Hp; [|done].
  destruct (writeCellH_spec _ _ _ _ _ _ _ _ Hsub Hown Hw)
    as (h1 & Hw1 & Hsub1 & Hown1).
  rewrite Hw1. cbn [mbind option_bind]. by eapply IH.
Qed.

(** The function on the store does what the function on values does,
    on a board of its own, and leaves every object of the caller's store
    as it was. *)
Lemma placeBlockAndProcessH_refines h g grid block tx ty combo r :
  readGrid h g = Some grid →
  placeBlockAndProcess grid block tx ty combo = Some r →
  ∃ rH h',
    placeBlockAndProcessH h g block tx ty combo = Some (rH, h') ∧
    h ⊆ h' ∧ ownsGrid h h' (newGridH rH) (newGrid r) ∧
    linesClearedH rH = linesCleared r ∧ junkCreatedH rH = junkCreated r ∧
    pointsH rH = points r ∧ newComboH rH = newCombo r.
Proof.
  intros Hg Hres. unfold placeBlockAndProcess in Hres.
  destruct (placeCells grid block (cells block) tx ty) as [stamped|] eqn:Hs;
    simpl in Hres; [|done].
  destruct (copyGrid_spec h g grid Hg) as (g' & h1 & Hcopy & Hsub1 & Hown1).
  destruct (placeCellsH_spec _ _ _ _ _ _ _ _ _ Hsub1 Hown1 Hs)
    as (h2 & Hp & Hsub2 & Hown2).
  unfold placeBlockAndProcessH. rewrite Hcopy. cbn [mbind option_bind].
  rewrite Hp. cbn [mbind option_bind].
  rewrite (ownsGrid_readGrid _ _ _ _ Hown2). cbn [mbind option_bind].
  unfold processLines in Hres.
  destruct (collectFull (rowIsFull stamped) indices) as [fr|];
    cbn [mbind option_bind] in *; [|done].
  destruct (collectFull (colIsFull stamped) indices) as [fc|];
    cbn [mbind option_bind] in *; [|done].
  case_decide.
  - destruct (leftoverUpdates stamped fr fc) as [[us j]|];
      cbn [mbind option_bind] in *; [|done].
    destruct (applyUpdates stamped us) as [final|] eqn:Hfin;
      cbn [mbind option_bind] in *; [|done].
    injection Hres as <-.
    destruct (applyUpdatesH_spec _ _ _ _ _ _ Hsub2 Hown2 Hfin)
      as (h3 & Hu & Hsub3 & Hown3).
    rewrite Hu. cbn [mbind option_bind]. eexists _, h3.
    split; [reflexivity|]. do 2 (split; [done|]). done.
  - injection Hres as <-. eexists _, h2.
    split; [reflexivity|]. do 2 (split; [done|]). done.
Qed.

End store_updates.

(** C10.  For a legal placement on a board held in a store: the call
    returns; every object the store held before the call, and so the
    board passed in, is unchanged after it; the board returned is made of
    an array, row arrays and cell objects that the store did not hold
    before the call; and when no line is cleared, the cells of the board
    returned are the cells of the board passed in, but for the stamped
    coordinates, whose cells are filled with the colour and the
    identifier of the shape and keep their key. *)
Theorem placement_is_fresh_and_frames h g grid block tx ty combo :
  readGrid h g = Some grid → wf_grid grid →
  canPlaceBlock grid block tx ty = Some true →
  ∃ rH h' r,
    placeBlockAndProcessH h g block tx ty combo = Some (rH, h') ∧
    placeBlockAndProcess grid block tx ty combo = Some r ∧
    (∀ l o, h !! l = Some o → h' !! l = Some o) ∧
    readGrid h' g = Some grid ∧
    ownsGrid h h' (newGridH rH) (newGrid r) ∧
    readGrid h' (newGridH rH) = Some (newGrid r) ∧
    linesClearedH rH = linesCleared r ∧
    (linesCleared r = 0 →
     ∀ x y, cellAt (newGrid r) x y =
            if decide (covers block tx ty x y)
            then stampCell block <$> cellAt grid x y
            else cellAt grid x y) ∧
    (∀ c, stampCell block c =
          mkCell (cell_id c) filled (Some (block_color block))
                 (Some (block_id block))).
Proof.
  intros Hg Hwf Hfit.
  destruct (placeBlockAndProcess_stamped grid block tx ty combo Hwf Hfit)
    as (stamped & Hs & Hwfs & Hst & Hp).
  destruct (processLines_spec stamped block combo Hwfs)
    as (fr & fc & r & Hr & _ & _ & _ & _ & _ & _ & _ & Hzero).
  rewrite <- Hp in Hr.
  destruct (placeBlockAndProcessH_refines h g grid block tx ty combo r Hg Hr)
    as (rH & h' & HrH & Hsub & Hown & Hlines & _).
  exists rH, h', r. do 2 (split; [done|]).
  split; [intros l o Hl; by eapply lookup_weaken|].
  split; [by eapply readGrid_weaken|]. split; [done|].
  split; [by eapply ownsGrid_readGrid|]. split; [done|]. split; [|done].
  intros H0. destruct Hzero as (-> & _); [lia|]. done.
Qed.

Lemma placement_is_fresh_and_frames_witness :
  let '(g, h) := storeGrid ∅ boardFour in
  readGrid h g = Some boardFour ∧ wf_grid boardFour ∧
  canPlaceBlock boardFour shapeL 0 1 = Some true ∧
  ∃ rH h' r,
    placeBlockAndProcessH h g shapeL 0 1 0 = Some (rH, h') ∧
    placeBlockAndProcess boardFour shapeL 0 1 0 = Some r ∧
    (∀ l o, h !! l = Some o → h' !! l = Some o) ∧
    readGrid h' g = Some boardFour.
Proof.
  destruct (storeGrid ∅ boardFour) as [g h] eqn:Hstore.
  assert (readGrid h g = Some boardFour) as Hread.
  { replace h with (storeGrid ∅ boardFour).2 by (by rewrite Hstore).
    replace g with (storeGrid ∅ boardFour).1 by (by rewrite Hstore).
    by vm_compute. }
  split; [exact Hread|]. split; [exact boardFour_wf|].
  split; [by vm_compute|].
  destruct (placement_is_fresh_and_frames h g boardFour shapeL 0 1 0 Hread
              boardFour_wf) as (rH & h' & r & H1 & H2 & H3 & H4 & _).
  { by vm_compute. }
  exists rH, h', r.
  split; [exact H1|]. split; [exact H2|]. split; [exact H3|exact H4].
Defined.

(** * Further properties of the engine *)

(** ** Rotation: order, period and size *)

Section rotation_order.
Implicit Types (block : BlockDefinition) (l : list Coordinate).

#[local] Existing Instances cellsOrdered_total cellsOrdered_trans
  cellsOrdered_antisymm.

Lemma StronglySorted_lookup {A} (R : relation A) (l : list A) i j a b :
  StronglySorted R l → (i < j)%nat →
  l !! i = Some a → l !! j = Some b → R a b.
Proof.
  intros Hs. revert i j. induction Hs as [|x l Hs IH Hall]; intros i j Hij.
  { by rewrite lookup_nil. }
  destruct j as [|j]; [lia|]. destruct i as [|i]; simpl.
  - intros [= <-] Hb. rewrite Forall_forall in Hall. apply Hall.
    by eapply list_elem_of_lookup_2.
  - apply IH. lia.
Qed.

Lemma cellsOrdered_rowMajor a b :
  cellsOrdered a b ↔
  coord_y a < coord_y b ∨ (coord_y a = coord_y b ∧ coord_x a ≤ coord_x b).
Proof. unfold cellsOrdered, compareCells. case_decide; lia. Qed.

(** One rotation as a permutation of the images of the offsets. *)
Lemma rotate_perm block a A b B :
  bbox (cells block) a A b B →
  cells (rotateBlockDefinition block) ≡ₚ
    (fun c0 => mkCoordinate (B - coord_y c0) (coord_x c0 - a)) <$> cells block.
Proof.
  intros Hbox. destruct (rotate_bbox _ _ _ _ _ Hbox) as (HminX & HminY & _).
  unfold rotateBlockDefinition, sortCells. cbn [cells].
  rewrite HminX, HminY, merge_sort_Permutation, <- list_fmap_compose.
  erewrite list_fmap_ext; [reflexivity|].
  intros i c _. simpl. f_equal; lia.
Qed.

Lemma rotate_image_inj a B :
  Inj (=) (=) (fun c0 => mkCoordinate (B - coord_y c0) (coord_x c0 - a)).
Proof. intros [x y] [x' y'] [= ? ?]. f_equal; lia. Qed.

Lemma rotate_nil block :
  cells block = [] → cells (rotateBlockDefinition block) = [].
Proof. intros H. unfold rotateBlockDefinition. cbn [cells]. by rewrite H. Qed.

Lemma rotate_normalised block :
  cells block ≠ [] → normalised (rotateBlockDefinition block).
Proof.
  intros Hne. destruct (bbox_exists _ Hne) as (a & A & b & B & Hbox).
  destruct (rotate_bbox _ _ _ _ _ Hbox) as (_ & _ & _ & H0 & _ & H1 & _).
  split; [|done]. intros Hnil.
  pose proof (rotate_perm _ _ _ _ _ Hbox) as Hp. rewrite Hnil in Hp.
  apply Permutation_nil_l in Hp. symmetry in Hp. by apply fmap_nil_inv in Hp.
Qed.

Lemma rotations4_perm block a A b B :
  bbox (cells block) a A b B →
  cells (rotations 4 block) ≡ₚ
    (fun c0 => mkCoordinate (coord_x c0 - a) (coord_y c0 - b)) <$> cells block.
Proof.
  intros H0.
  pose proof (rotate_perm _ _ _ _ _ H0) as P1.
  destruct (rotate_bbox _ _ _ _ _ H0) as (_ & _ & _ & H1).
  pose proof (rotate_perm _ _ _ _ _ H1) as P2.
  destruct (rotate_bbox _ _ _ _ _ H1) as (_ & _ & _ & H2).
  pose proof (rotate_perm _ _ _ _ _ H2) as P3.
  destruct (rotate_bbox _ _ _ _ _ H2) as (_ & _ & _ & H3).
  pose proof (rotate_perm _ _ _ _ _ H3) as P4.
  unfold rotations. cbn [Nat.iter].
  rewrite P4, P3, P2, P1, <- !list_fmap_compose.
  erewrite list_fmap_ext; [reflexivity|].
  intros i c _. simpl. f_equal; lia.
Qed.

Lemma rotate_fields block :
  block_id (rotateBlockDefinition block) = block_id block ∧
  block_color (rotateBlockDefinition block) = block_color block ∧
  basePoints (rotateBlockDefinition block) = basePoints block.
Proof. done. Qed.

Lemma rotations_fields n block :
  block_id (rotations n block) = block_id block ∧
  block_color (rotations n block) = block_color block ∧
  basePoints (rotations n block) = basePoints block.
Proof.
  induction n as [|n IH]; [done|]. unfold rotations in *. cbn [Nat.iter].
  destruct IH as (? & ? & ?). done.
Qed.

Lemma rotations4_sorted block :
  normalised block → Sorted cellsOrdered (cells block) →
  rotations 4 block = block.
Proof.
  intros (Hne & Hx & Hy) Hs.
  destruct (bbox_exists _ Hne) as (a & A & b & B & Hbox).
  assert (a = 0) as -> by (eapply isMin_unique; [apply Hbox|done]).
  assert (b = 0) as -> by (eapply isMin_unique; [apply Hbox|done]).
  pose proof (rotations4_perm _ _ _ _ _ Hbox) as Hp.
  assert (cells (rotations 4 block) = cells block) as Hcells.
  { apply (Sorted_unique cellsOrdered); [| done |].
    - unfold rotations. cbn [Nat.iter]. unfold rotateBlockDefinition at 1.
      cbn [cells]. apply Sorted_merge_sort, _.
    - rewrite Hp. erewrite list_fmap_ext; [by rewrite list_fmap_id|].
      intros i [x y] _. simpl. f_equal; lia. }
  destruct (rotations_fields 4 block) as (Hid & Hcol & Hbp).
  destruct (rotations 4 block), block. simpl in *. by subst.
Qed.

(** X1.  The offsets that [rotateBlockDefinition] returns are in
    row-major order: an offset that comes earlier in the array has a
    smaller y, or the same y and an x that is not greater.  The array has
    as many offsets as the one of the argument, and no offset twice if
    the argument has none twice. *)
Theorem rotate_sorts_row_major block :
  (∀ i j a b, (i < j)%nat →
     cells (rotateBlockDefinition block) !! i = Some a →
     cells (rotateBlockDefinition block) !! j = Some b →
     coord_y a < coord_y b ∨
     (coord_y a = coord_y b ∧ coord_x a ≤ coord_x b)) ∧
  length (cells (rotateBlockDefinition block)) = length (cells block) ∧
  (NoDup (cells block) → NoDup (cells (rotateBlockDefinition block))).
Proof.
  split; [|split].
  - intros i j a b Hij Ha Hb. apply cellsOrdered_rowMajor.
    eapply (StronglySorted_lookup cellsOrdered); [|done..].
    unfold rotateBlockDefinition. cbn [cells].
    apply StronglySorted_merge_sort; apply _.
  - unfold rotateBlockDefinition, sortCells. cbn [cells].
    by rewrite merge_sort_Permutation, !length_fmap.
  - intros Hnd. destruct (decide (cells block = [])) as [Hnil|Hne].
    { rewrite rotate_nil by done. constructor. }
    destruct (bbox_exists _ Hne) as (a & A & b & B & Hbox).
    rewrite (rotate_perm _ _ _ _ _ Hbox).
    pose proof (rotate_image_inj a B) as Hinj. by apply (NoDup_fmap_2 _).
Qed.

(** X2.  From the first rotation on, rotating cycles with period four:
    the fifth rotation of any shape returns the very record that the
    first returned, offsets in the same order. *)
Theorem rotate_five_is_one block :
  rotations 5 block = rotateBlockDefinition block.
Proof.
  rewrite <- rotations_S.
  destruct (decide (cells block = [])) as [Hnil|Hne].
  - assert (∀ b, cells b = [] → rotateBlockDefinition b = b) as Hfix.
    { intros [i cs c p]. simpl. intros ->. done. }
    pose proof (Hfix _ (rotate_nil _ Hnil)) as H1.
    change (rotations 4 (rotateBlockDefinition block)) with
      (rotateBlockDefinition (rotateBlockDefinition (rotateBlockDefinition
        (rotateBlockDefinition (rotateBlockDefinition block))))).
    by rewrite !H1.
  - apply rotations4_sorted; [by apply rotate_normalised|].
    unfold rotateBlockDefinition. cbn [cells]. apply Sorted_merge_sort, _.
Qed.

(** X3.  A shape whose least x and least y are 0 and whose offsets are in
    row-major order, as every shape of the catalogue is, comes back as
    the same record after four rotations. *)
Theorem rotate_four_is_identity block :
  normalised block → Sorted cellsOrdered (cells block) →
  rotations 4 block = block.
Proof. apply rotations4_sorted. Qed.

Lemma shapeL_is_normalised : normalised shapeL.
Proof. split; [done|]. apply shapeL_normalised. Qed.

Lemma shapeL_sorted : Sorted cellsOrdered (cells shapeL).
Proof. apply (bool_decide_unpack _). by vm_compute. Qed.

Lemma rotate_four_is_identity_witness :
  normalised shapeL ∧ Sorted cellsOrdered (cells shapeL) ∧
  rotations 4 shapeL = shapeL.
Proof.
  split; [exact shapeL_is_normalised|]. split; [exact shapeL_sorted|].
  apply (rotate_four_is_identity shapeL);
    [exact shapeL_is_normalised|exact shapeL_sorted].
Defined.

End rotation_order.

Section shape_size.
Implicit Types (block : BlockDefinition) (l : list Coordinate).

Lemma foldl_max_spec (l : list Z) z :
  (foldl Z.max z l = z ∨ foldl Z.max z l ∈ l) ∧
  z ≤ foldl Z.max z l ∧ ∀ w, w ∈ l → w ≤ foldl Z.max z l.
Proof.
  revert z. induction l as [|w l IH]; intros z; simpl.
  { split; [by left|]. split; [lia|]. intros w Hw. by apply elem_of_nil in Hw. }
  destruct (IH (Z.max z w)) as (Hin & Hle & Hall).
  split; [|split].
  - destruct Hin as [Heq|Hin]; [|right; by right].
    destruct (Z.max_spec z w) as [[_ Hm]|[_ Hm]].
    + right. rewrite Heq, Hm. by left.
    + left. lia.
  - lia.
  - intros w' [->|Hw']%elem_of_cons; [lia|by apply Hall].
Qed.

Lemma Math_max_isMax f l m : isMax f l m → Math_max (f <$> l) = m.
Proof.
  intros [(c & Hc & Hm) Hle].
  destruct l as [|c0 l]; [by apply elem_of_nil in Hc|].
  rewrite fmap_cons. unfold Math_max.
  destruct (foldl_max_spec (f <$> l) (f c0)) as (Hin & Hge & Hall).
  assert (foldl Z.max (f c0) (f <$> l) ≤ m).
  { destruct Hin as [->|(c' & -> & Hc')%list_elem_of_fmap].
    - apply Hle. by left.
    - apply Hle. by right. }
  assert (m ≤ foldl Z.max (f c0) (f <$> l)); [|lia].
  apply elem_of_cons in Hc as [->|Hc]; [lia|].
  subst m. apply Hall, list_elem_of_fmap. eauto.
Qed.

(** X4.  Rotating a shape whose least x and least y are 0 exchanges its
    width and its height, the two sizes that the Block component and
    [handleDragMove] compute from the offsets. *)
Theorem rotate_swaps_size block :
  normalised block →
  blockWidth (rotateBlockDefinition block) = blockHeight block ∧
  blockHeight (rotateBlockDefinition block) = blockWidth block ∧
  1 ≤ blockWidth block ∧ 1 ≤ blockHeight block.
Proof.
  intros (Hne & Hx & Hy).
  destruct (bbox_exists _ Hne) as (a & A & b & B & Hbox).
  assert (a = 0) as -> by (eapply isMin_unique; [apply Hbox|done]).
  assert (b = 0) as -> by (eapply isMin_unique; [apply Hbox|done]).
  destruct (rotate_bbox _ _ _ _ _ Hbox) as (_ & _ & _ & _ & HA' & _ & HB').
  destruct Hbox as (_ & HA & _ & HB).
  unfold blockWidth, blockHeight.
  rewrite (Math_max_isMax _ _ _ HA), (Math_max_isMax _ _ _ HB),
    (Math_max_isMax _ _ _ HA'), (Math_max_isMax _ _ _ HB').
  destruct Hx as [_ Hx], Hy as [_ Hy].
  destruct HA as [(cA & HcA & <-) _], HB as [(cB & HcB & <-) _].
  specialize (Hx _ HcA). specialize (Hy _ HcB). lia.
Qed.

Lemma rotate_swaps_size_witness :
  normalised shapeL ∧
  blockWidth (rotateBlockDefinition shapeL) = blockHeight shapeL ∧
  blockHeight (rotateBlockDefinition shapeL) = blockWidth shapeL.
Proof.
  split; [exact shapeL_is_normalised|].
  destruct (rotate_swaps_size shapeL shapeL_is_normalised) as (? & ? & _).
  done.
Defined.

End shape_size.

(** ** Rotation and the game-over test *)

Section rotation_verdict.
Implicit Types (grid : Grid) (block : BlockDefinition).

Lemma canPlaceBlock_same_cells grid block block' x y :
  (∀ c, c ∈ cells block ↔ c ∈ cells block') →
  canPlaceBlock grid block x y = Some true →
  canPlaceBlock grid block' x y = Some true.
Proof.
  intros Heq. rewrite !canPlaceBlock_fits. unfold fits.
  intros H cell Hc. apply H. by apply Heq.
Qed.

Lemma rotations4_same_cells block :
  normalised block → ∀ c, c ∈ cells (rotations 4 block) ↔ c ∈ cells block.
Proof.
  intros (Hne & Hx & Hy).
  destruct (bbox_exists _ Hne) as (a & A & b & B & Hbox).
  assert (a = 0) as -> by (eapply isMin_unique; [apply Hbox|done]).
  assert (b = 0) as -> by (eapply isMin_unique; [apply Hbox|done]).
  intros c. rewrite (rotations4_perm _ _ _ _ _ Hbox).
  erewrite list_fmap_ext; [by rewrite list_fmap_id|].
  intros i [x y] _. simpl. f_equal; lia.
Qed.

Lemma canPlaceInAnyOrientation_rotate grid block :
  wf_grid grid → normalised block →
  canPlaceInAnyOrientation grid (rotateBlockDefinition block) =
  canPlaceInAnyOrientation grid block.
Proof.
  intros Hwf Hn. unfold canPlaceInAnyOrientation.
  destruct (tryOrientations_spec grid (rotateBlockDefinition block) 4 Hwf)
    as (b1 & -> & H1).
  destruct (tryOrientations_spec grid block 4 Hwf) as (b2 & -> & H2).
  f_equal. apply eq_true_iff_eq. rewrite H1, H2. split.
  - intros (k & x & y & Hk & Hxy & Hp). rewrite rotations_S in Hp.
    destruct (decide (k = 3%nat)) as [->|Hne].
    + exists 0%nat, x, y. split; [lia|]. split; [done|].
      eapply canPlaceBlock_same_cells; [|exact Hp].
      by apply rotations4_same_cells.
    + exists (S k), x, y. split; [lia|done].
  - intros (k & x & y & Hk & Hxy & Hp). destruct k as [|k].
    + exists 3%nat, x, y. split; [lia|]. split; [done|].
      rewrite rotations_S.
      eapply canPlaceBlock_same_cells; [|exact Hp].
      intros c. symmetry. by apply rotations4_same_cells.
    + exists k, x, y. rewrite rotations_S. split; [lia|done].
Qed.

Lemma canPlaceAny_rotateInHand grid hand block :
  wf_grid grid → Forall normalised hand →
  canPlaceAny grid (App.rotateInHand block hand) = canPlaceAny grid hand.
Proof.
  intros Hwf Hall. unfold canPlaceAny, App.rotateInHand.
  rewrite length_fmap. case_decide as Hlen; [done|]. clear Hlen.
  induction Hall as [|b hand Hb Hall IH]; [done|].
  rewrite fmap_cons. cbn [canPlaceAnyLoop]. rewrite IH.
  case_decide; [|done]. by rewrite canPlaceInAnyOrientation_rotate.
Qed.

(** X5.  Rotating a block of the hand never changes the verdict of the
    game-over test: on a board, for a hand of shapes whose least x and
    least y are 0, [canPlaceAny] returns the same for the hand in which
    [handleRotate] has rotated the blocks named by [block]. *)
Theorem rotation_keeps_verdict grid hand block :
  wf_grid grid → Forall normalised hand →
  canPlaceAny grid (App.rotateInHand block hand) = canPlaceAny grid hand.
Proof. apply canPlaceAny_rotateInHand. Qed.

Lemma shapeL_hand_normalised : Forall normalised [shapeL].
Proof. apply Forall_singleton. exact shapeL_is_normalised. Qed.

Lemma rotation_keeps_verdict_witness :
  wf_grid boardFour ∧ Forall normalised [shapeL] ∧
  canPlaceAny boardFour (App.rotateInHand shapeL [shapeL]) =
  canPlaceAny boardFour [shapeL].
Proof.
  split; [exact boardFour_wf|].
  split; [exact shapeL_hand_normalised|].
  apply (rotation_keeps_verdict boardFour [shapeL] shapeL);
    [exact boardFour_wf|exact shapeL_hand_normalised].
Defined.

End rotation_verdict.

(** ** What a placement leaves on the board *)

Section placement_results.
Implicit Types (grid : Grid) (block : BlockDefinition).

(** A legal placement, with everything [processLines_spec] says of it. *)
Lemma placement_unfold grid block tx ty combo r :
  wf_grid grid → canPlaceBlock grid block tx ty = Some true →
  placeBlockAndProcess grid block tx ty combo = Some r →
  ∃ stamped fullRows fullCols,
    wf_grid stamped ∧ wf_grid (newGrid r) ∧
    (∀ x y, cellAt stamped x y =
            if decide (covers block tx ty x y)
            then stampCell block <$> cellAt grid x y
            else cellAt grid x y) ∧
    NoDup fullRows ∧ NoDup fullCols ∧
    (∀ y, y ∈ fullRows ↔ 0 ≤ y < GRID_SIZE ∧ rowFull stamped y) ∧
    (∀ x, x ∈ fullCols ↔ 0 ≤ x < GRID_SIZE ∧ colFull stamped x) ∧
    linesCleared r =
      Z.of_nat (length fullRows) + Z.of_nat (length fullCols) ∧
    (linesCleared r > 0 →
       (∀ x y c, cellAt stamped x y = Some c →
          ∃ c', cellAt (newGrid r) x y = Some c' ∧
                clearsTo stamped x y c c') ∧
       junkCreated r =
         Z.of_nat (length (filter (turnedJunk stamped (newGrid r))
                                  allCoords)) ∧
       newCombo r = comboAfterClear (junkCreated r) combo ∧
       points r =
         pointsAfterClear (linesCleared r) (junkCreated r) (newCombo r)) ∧
    (¬ linesCleared r > 0 →
       newGrid r = stamped ∧ junkCreated r = 0 ∧ newCombo r = 0 ∧
       points r = 0 + Z.of_nat (length (cells block)) * 10).
Proof.
  intros Hwf Hfit Hres.
  destruct (placeBlockAndProcess_stamped grid block tx ty combo Hwf Hfit)
    as (stamped & Hs & Hwfs & Hst & Hp).
  destruct (processLines_spec stamped block combo Hwfs)
    as (fr & fc & r' & Hr & Hrest).
  assert (r' = r) as -> by congruence.
  exists stamped, fr, fc. split; [done|].
  destruct Hrest as (? & ? & ? & ? & ? & ? & ? & ?). done.
Qed.

(** Under a legal placement the covered cells were empty. *)
Lemma covered_was_empty grid block tx ty x y :
  canPlaceBlock grid block tx ty = Some true → covers block tx ty x y →
  ∃ c, cellAt grid x y = Some c ∧ status c = empty.
Proof.
  intros Hfit%canPlaceBlock_fits Hcov. destruct (Hfit _ Hcov) as [_ Hc].
  simpl in Hc. by replace (tx + (x - tx)) with x in Hc by lia;
    replace (ty + (y - ty)) with y in Hc by lia.
Qed.

Lemma elem_of_allCoords p : p ∈ allCoords ↔ inBounds p.1 p.2.
Proof.
  unfold allCoords. rewrite list_elem_of_bind. split.
  - intros (y & (x & -> & Hx)%list_elem_of_fmap & Hy).
    apply elem_of_indices in Hx, Hy. done.
  - intros [Hx Hy]. exists p.2. rewrite elem_of_indices. split; [|done].
    apply list_elem_of_fmap. exists p.1. rewrite elem_of_indices.
    by destruct p.
Qed.

(** The line through a filled cell of the returned board is not full. *)
Lemma placement_leaves_no_filled_line grid block tx ty combo r x y c :
  wf_grid grid → canPlaceBlock grid block tx ty = Some true →
  placeBlockAndProcess grid block tx ty combo = Some r →
  cellAt (newGrid r) x y = Some c → status c = filled →
  ¬ rowFull (newGrid r) y ∧ ¬ colFull (newGrid r) x.
Proof.
  intros Hwf Hfit Hres Hc Hst.
  destruct (placement_unfold _ _ _ _ _ _ Hwf Hfit Hres)
    as (stamped & fr & fc & Hwfs & Hwfr & _ & _ & _ & Hfr & Hfc & Hlines &
        Hpos & Hzero).
  pose proof (cellAt_inBounds _ _ _ _ Hwfr Hc) as Hin.
  destruct (decide (linesCleared r > 0)) as [Hgt|Hle].
  - destruct (Hpos Hgt) as (Hcells & _).
    assert (∀ x' y', inBounds x' y' → occupied (newGrid r) x' y' →
                     occupied stamped x' y') as Hocc.
    { intros x' y' Hin' (c' & Hc' & Hne).
      destruct (cellAt_is_Some stamped x' y' Hwfs Hin') as [c0 Hc0].
      exists c0. split; [done|]. intros He.
      destruct (Hcells _ _ _ Hc0) as (c'' & Hc'' & Hto).
      assert (c'' = c') as -> by congruence.
      inversion Hto; subst; congruence. }
    assert (¬ inClearedSet stamped x y) as Hnot.
    { intros Hcl.
      destruct (cellAt_is_Some stamped x y Hwfs Hin) as [c0 Hc0].
      destruct (Hcells _ _ _ Hc0) as (c'' & Hc'' & Hto).
      assert (c'' = c) as -> by congruence.
      inversion Hto; subst; simpl in *; try congruence.
      match goal with H : _ ∨ _ |- _ => destruct H as [?|[? _]] end; done. }
    split; intros Hfull; apply Hnot; (split; [done|]).
    + left. intros x' Hx'. apply Hocc; [split; [done|apply Hin]|].
      by apply Hfull.
    + right. intros y' Hy'. apply Hocc; [split; [apply Hin|done]|].
      by apply Hfull.
  - destruct (Hzero Hle) as (Heq & _). rewrite Heq.
    assert (fr = [] ∧ fc = []) as [-> ->].
    { destruct fr, fc; cbn [length] in Hlines; try done; lia. }
    destruct Hin as [Hx Hy]. split; intros Hfull.
    + eapply not_elem_of_nil, Hfr. split; [exact Hy|exact Hfull].
    + eapply not_elem_of_nil, Hfc. split; [exact Hx|exact Hfull].
Qed.

End placement_results.

(** X6.  On every board of a game, no filled cell lies in a full row or
    in a full column: a line that is full consists of junk only. *)
Theorem no_filled_cell_in_full_line grid x y c :
  reachable grid → cellAt grid x y = Some c → status c = filled →
  ¬ rowFull grid y ∧ ¬ colFull grid x.
Proof.
  intros Hreach. revert x y c.
  induction Hreach as [|grid block tx ty combo r Hreach IH Hfit Hres];
    intros x y c Hc Hst.
  - apply createEmptyGrid_cells in Hc as [He _]. congruence.
  - eapply placement_leaves_no_filled_line; eauto using reachable_wf.
Qed.

Lemma boardFive_reachable : reachable boardFive.
Proof.
  unfold boardFive, boardFour.
  repeat (apply reachable_after; [|by vm_compute]). constructor.
Qed.

Lemma no_filled_cell_in_full_line_witness :
  reachable boardFive ∧
  (status <$> cellAt boardFive 4 0 = Some filled) ∧
  ¬ rowFull boardFive 0 ∧ ¬ colFull boardFive 4.
Proof.
  split; [exact boardFive_reachable|]. split; [by vm_compute|].
  apply (no_filled_cell_in_full_line boardFive 4 0
           (mkCell "cell-4-0" filled (Some "#a855f7"%string)
                   (Some "c9"%string)));
    [exact boardFive_reachable|by vm_compute|done].
Defined.

(** ** The junk counter *)

Section junk_counter.
Implicit Types (grid : Grid) (block : BlockDefinition).

Lemma list6 {A} (l : list A) :
  length l = 6%nat → ∃ a b c d e f, l = [a; b; c; d; e; f].
Proof.
  intros H. do 6 (destruct l as [|? l]; [done|]).
  destruct l; [|done]. by do 6 eexists.
Qed.

(** A board is its cells in the order of the double loop. *)
Lemma concat_allCoords grid :
  wf_grid grid →
  concat grid = omap (fun p => cellAt grid p.1 p.2) allCoords.
Proof.
  intros [Hlen Hrows].
  destruct (list6 _ Hlen) as (r0 & r1 & r2 & r3 & r4 & r5 & ->).
  repeat match goal with
  | H : Forall _ (_ :: _) |- _ =>
      apply Forall_cons in H as [(? & ? & ? & ? & ? & ? & ->)%list6 H]
  end.
  reflexivity.
Qed.

Lemma length_filter_omap {A B} (f : A → option B)
    (P : B → Prop) `{!∀ b, Decision (P b)}
    (Q : A → Prop) `{!∀ a, Decision (Q a)} (l : list A) :
  (∀ a, Q a ↔ ∃ b, f a = Some b ∧ P b) →
  length (filter P (omap f l)) = length (filter Q l).
Proof.
  intros HQ. induction l as [|a l IH]; [done|].
  rewrite filter_cons. cbn [omap list_omap]. destruct (f a) as [b|] eqn:Hf.
  - rewrite filter_cons. destruct (decide (P b)) as [Hp|Hp].
    + rewrite decide_True by (apply HQ; eauto). simpl. by rewrite IH.
    + rewrite decide_False; [done|].
      intros (b' & Hb' & ?)%HQ. congruence.
  - rewrite decide_False; [done|]. intros (b' & Hb' & ?)%HQ. congruence.
Qed.

Lemma length_filter_or {A} (P Q R : A → Prop)
    `{!∀ a, Decision (P a)} `{!∀ a, Decision (Q a)} `{!∀ a, Decision (R a)}
    (l : list A) :
  (∀ a, a ∈ l → (P a ↔ Q a ∨ R a) ∧ ¬ (Q a ∧ R a)) →
  length (filter P l) = (length (filter Q l) + length (filter R l))%nat.
Proof.
  induction l as [|a l IH]; intros Hor; [done|].
  rewrite !filter_cons. destruct (Hor a) as [Hiff Hdisj]; [by left|].
  assert (length (filter P l) =
          (length (filter Q l) + length (filter R l))%nat) as IH'
    by (apply IH; intros a' Ha'; apply Hor; by right).
  destruct (decide (P a)), (decide (Q a)), (decide (R a));
    cbn [length]; try tauto; lia.
Qed.

Lemma junkOnBoard_allCoords grid :
  wf_grid grid →
  junkOnBoard grid = Z.of_nat (length (filter (junkAt grid) allCoords)).
Proof.
  intros Hwf. unfold junkOnBoard. rewrite (concat_allCoords _ Hwf).
  f_equal. apply length_filter_omap. intros p. unfold junkAt.
  destruct (cellAt grid p.1 p.2) as [c|]; simpl.
  - split; [intros [= ?]; eauto|]. intros (b & [= <-] & ->). done.
  - split; [done|]. intros (b & [=] & _).
Qed.

(** X7.  The junk counter of the stats bar grows by exactly
    [junkCreated] at every legal placement: a placement never removes
    junk, and makes no junk that it does not count. *)
Theorem junk_is_conserved grid block tx ty combo r :
  wf_grid grid → canPlaceBlock grid block tx ty = Some true →
  placeBlockAndProcess grid block tx ty combo = Some r →
  junkOnBoard (newGrid r) = junkOnBoard grid + junkCreated r.
Proof.
  intros Hwf Hfit Hres.
  destruct (placement_unfold _ _ _ _ _ _ Hwf Hfit Hres)
    as (stamped & fr & fc & Hwfs & Hwfr & Hst & _ & _ & _ & _ & _ &
        Hpos & Hzero).
  assert (∀ p, junkAt stamped p ↔ junkAt grid p) as Hsj.
  { intros [x y]. unfold junkAt. cbn [fst snd]. rewrite Hst.
    case_decide as Hcov; [|done].
    destruct (covered_was_empty _ _ _ _ _ _ Hfit Hcov) as (c & -> & He).
    simpl. rewrite He. done. }
  rewrite (junkOnBoard_allCoords _ Hwf), (junkOnBoard_allCoords _ Hwfr).
  destruct (decide (linesCleared r > 0)) as [Hgt|Hle].
  - destruct (Hpos Hgt) as (Hcells & -> & _). rewrite <- Nat2Z.inj_add.
    f_equal. apply length_filter_or. intros [x y] Hin%elem_of_allCoords.
    cbn [fst snd] in Hin. rewrite <- Hsj.
    destruct (cellAt_is_Some stamped x y Hwfs Hin) as [c Hc].
    destruct (Hcells _ _ _ Hc) as (c' & Hc' & Hto).
    unfold junkAt, turnedJunk. cbn [fst snd]. rewrite Hc, Hc'.
    cbn [fmap option_fmap option_map].
    clear Hcells Hsj Hpos Hzero Hst Hc Hc'.
    inversion Hto as [Hf Hcl|o Hf Hcl Ho Hne Hown|Hkeep]; subst;
      cbn [status]; try rewrite Hf; intuition congruence.
  - destruct (Hzero Hle) as (-> & -> & _). rewrite Z.add_0_r. f_equal.
    f_equal. apply list_filter_iff. intros p. apply Hsj.
Qed.

Lemma junk_is_conserved_witness :
  wf_grid boardFour ∧ canPlaceBlock boardFour shapeRevL 4 0 = Some true ∧
  ∃ r, placeBlockAndProcess boardFour shapeRevL 4 0 2 = Some r ∧
       junkCreated r = 1 ∧
       junkOnBoard (newGrid r) = junkOnBoard boardFour + junkCreated r.
Proof.
  split; [exact boardFour_wf|]. split; [by vm_compute|].
  destruct (placeBlockAndProcess boardFour shapeRevL 4 0 2) as [r|] eqn:Hr;
    [|by vm_compute in Hr].
  exists r. split; [done|]. split.
  - vm_compute in Hr. by injection Hr as <-.
  - apply (junk_is_conserved boardFour shapeRevL 4 0 2 r);
      [exact boardFour_wf|by vm_compute|exact Hr].
Defined.

End junk_counter.

(** ** Cell identifiers *)

Section cell_keys.
Implicit Types (grid : Grid) (block : BlockDefinition).

Lemma writeCell_sameKeys grid grid' x y f :
  (∀ c, cell_id (f c) = cell_id c) →
  writeCell grid x y f = Some grid' → sameKeys grid grid'.
Proof.
  intros Hf Hw x' y'. rewrite (cellAt_writeCell _ _ _ _ _ x' y' Hw).
  case_decide as Heq; [|done]. destruct Heq as [-> ->].
  destruct (cellAt grid x y); simpl; [|done]. by rewrite Hf.
Qed.

Lemma placeCells_sameKeys grid block cs tx ty stamped :
  placeCells grid block cs tx ty = Some stamped → sameKeys grid stamped.
Proof.
  revert grid. induction cs as [|cell rest IH]; intros grid;
    cbn [placeCells].
  { by intros [= <-]. }
  destruct (writeCell grid _ _ _) as [g1|] eqn:Hw;
    cbn [mbind option_bind]; [|done].
  intros Hrest x y. rewrite (IH _ Hrest x y).
  by apply (writeCell_sameKeys grid g1 _ _ (stampCell block)
              (fun _ => eq_refl) Hw).
Qed.

Lemma applyUpdates_sameKeys grid us grid' :
  applyUpdates grid us = Some grid' → sameKeys grid grid'.
Proof.
  revert grid. induction us as [|u rest IH]; intros grid;
    cbn [applyUpdates].
  { by intros [= <-]. }
  destruct (writeCell grid _ _ _) as [g1|] eqn:Hw;
    cbn [mbind option_bind]; [|done].
  intros Hrest x y. rewrite (IH _ Hrest x y).
  by apply (writeCell_sameKeys grid g1 _ _ (applyUpdate u)
              (fun _ => eq_refl) Hw).
Qed.

Lemma processLines_sameKeys stamped block combo r :
  processLines stamped block combo = Some r → sameKeys stamped (newGrid r).
Proof.
  unfold processLines.
  destruct (collectFull (rowIsFull stamped) indices) as [fr|];
    cbn [mbind option_bind]; [|done].
  destruct (collectFull (colIsFull stamped) indices) as [fc|];
    cbn [mbind option_bind]; [|done].
  case_decide.
  - destruct (leftoverUpdates stamped fr fc) as [[us j]|];
      cbn [mbind option_bind]; [|done].
    destruct (applyUpdates stamped us) as [g|] eqn:Hg;
      cbn [mbind option_bind]; [|done].
    intros [= <-]. cbn [newGrid]. by eapply applyUpdates_sameKeys.
  - intros [= <-]. done.
Qed.

Lemma placeBlockAndProcess_sameKeys grid block tx ty combo r :
  placeBlockAndProcess grid block tx ty combo = Some r →
  sameKeys grid (newGrid r).
Proof.
  unfold placeBlockAndProcess.
  destruct (placeCells grid block (cells block) tx ty) as [stamped|] eqn:Hs;
    cbn [mbind option_bind]; [|done].
  intros Hr x y. rewrite (processLines_sameKeys _ _ _ _ Hr x y).
  by apply (placeCells_sameKeys _ _ _ _ _ _ Hs).
Qed.

(** X8.  A placement that returns never changes the identifier of a
    cell: the returned board has, at every place, a cell with the
    identifier of the cell of the argument, and no cell where the
    argument has none. *)
Theorem placement_keeps_keys grid block tx ty combo r :
  placeBlockAndProcess grid block tx ty combo = Some r →
  ∀ x y, cell_id <$> cellAt (newGrid r) x y = cell_id <$> cellAt grid x y.
Proof. apply placeBlockAndProcess_sameKeys. Qed.

Lemma placement_keeps_keys_witness :
  ∃ r, placeBlockAndProcess boardFour shapeRevL 4 0 2 = Some r ∧
       cell_id <$> cellAt (newGrid r) 5 1 = cell_id <$> cellAt boardFour 5 1.
Proof.
  destruct (placeBlockAndProcess boardFour shapeRevL 4 0 2) as [r|] eqn:Hr;
    [|by vm_compute in Hr].
  exists r. split; [done|].
  apply (placement_keeps_keys boardFour shapeRevL 4 0 2 r Hr).
Defined.

Lemma cellKey_inj x y x' y' :
  inBounds x y → inBounds x' y' → cellKey x y = cellKey x' y' →
  x = x' ∧ y = y'.
Proof.
  unfold inBounds, GRID_SIZE. intros [Hx Hy] [Hx' Hy'].
  assert (x = 0 ∨ x = 1 ∨ x = 2 ∨ x = 3 ∨ x = 4 ∨ x = 5) as Hcx by lia.
  assert (y = 0 ∨ y = 1 ∨ y = 2 ∨ y = 3 ∨ y = 4 ∨ y = 5) as Hcy by lia.
  assert (x' = 0 ∨ x' = 1 ∨ x' = 2 ∨ x' = 3 ∨ x' = 4 ∨ x' = 5) as Hcx' by lia.
  assert (y' = 0 ∨ y' = 1 ∨ y' = 2 ∨ y' = 3 ∨ y' = 4 ∨ y' = 5) as Hcy' by lia.
  clear Hx Hy Hx' Hy'.
  destruct Hcx as [->|[->|[->|[->|[->| ->]]]]];
  destruct Hcx' as [->|[->|[->|[->|[->| ->]]]]];
  destruct Hcy as [->|[->|[->|[->|[->| ->]]]]];
  destruct Hcy' as [->|[->|[->|[->|[->| ->]]]]];
  (intros Hk; vm_compute in Hk; first [done | discriminate Hk]).
Qed.

Lemma createEmptyGrid_keys x y :
  inBounds x y →
  cell_id <$> cellAt createEmptyGrid x y = Some (cellKey x y).
Proof.
  unfold inBounds, GRID_SIZE. intros [Hx Hy].
  assert (x = 0 ∨ x = 1 ∨ x = 2 ∨ x = 3 ∨ x = 4 ∨ x = 5) as Hcx by lia.
  assert (y = 0 ∨ y = 1 ∨ y = 2 ∨ y = 3 ∨ y = 4 ∨ y = 5) as Hcy by lia.
  clear Hx Hy.
  destruct Hcx as [->|[->|[->|[->|[->| ->]]]]];
  destruct Hcy as [->|[->|[->|[->|[->| ->]]]]];
  reflexivity.
Qed.

(** X9.  On every board of a game the cell at (x, y) carries the
    identifier that [createEmptyGrid] gave it, and the identifiers of
    two different places differ: the keys under which the cells are
    rendered are stable and unique throughout a game. *)
Theorem reachable_keys grid :
  reachable grid →
  (∀ x y, inBounds x y →
     cell_id <$> cellAt grid x y = Some (cellKey x y)) ∧
  (∀ x y x' y' k,
     cell_id <$> cellAt grid x y = Some k →
     cell_id <$> cellAt grid x' y' = Some k → x = x' ∧ y = y').
Proof.
  intros Hreach.
  assert (∀ x y, inBounds x y →
     cell_id <$> cellAt grid x y = Some (cellKey x y)) as Hkeys.
  { induction Hreach as [|grid block tx ty combo r Hreach IH Hfit Hres].
    - apply createEmptyGrid_keys.
    - intros x y Hin.
      rewrite (placeBlockAndProcess_sameKeys _ _ _ _ _ _ Hres x y). by apply IH. }
  split; [done|]. intros x y x' y' k Hk Hk'.
  pose proof (reachable_wf _ Hreach) as Hwf.
  assert (inBounds x y) as Hin.
  { destruct (cellAt grid x y) as [c|] eqn:Hc; [|done].
    by eapply cellAt_inBounds. }
  assert (inBounds x' y') as Hin'.
  { destruct (cellAt grid x' y') as [c|] eqn:Hc; [|done].
    by eapply cellAt_inBounds. }
  rewrite Hkeys in Hk, Hk' by done.
  apply cellKey_inj; [done..|congruence].
Qed.

Lemma reachable_keys_witness :
  reachable boardJunk ∧
  cell_id <$> cellAt boardJunk 5 1 = Some "cell-5-1"%string.
Proof.
  split; [exact boardJunk_reachable|].
  destruct (reachable_keys boardJunk boardJunk_reachable) as [Hk _].
  apply (Hk 5 1). by vm_compute.
Defined.

End cell_keys.

(** ** Placements that clear nothing, bounds, and unchecked calls *)

Section placement_edges.
Implicit Types (grid : Grid) (block : BlockDefinition).

(** X10.  A legal placement that completes no line returns the board of
    the argument with exactly the covered cells changed, each to a
    filled cell of the colour and the owner of the block; it makes no
    junk; and the same placement is refused on the returned board. *)
Theorem placement_without_clear grid block tx ty combo r :
  wf_grid grid → canPlaceBlock grid block tx ty = Some true →
  placeBlockAndProcess grid block tx ty combo = Some r →
  linesCleared r = 0 →
  (∀ x y, cellAt (newGrid r) x y =
          if decide (covers block tx ty x y)
          then stampCell block <$> cellAt grid x y
          else cellAt grid x y) ∧
  junkCreated r = 0 ∧
  (cells block ≠ [] → canPlaceBlock (newGrid r) block tx ty = Some false).
Proof.
  intros Hwf Hfit Hres Hlines.
  destruct (placement_unfold _ _ _ _ _ _ Hwf Hfit Hres)
    as (stamped & fr & fc & Hwfs & Hwfr & Hst & _ & _ & _ & _ & _ &
        _ & Hzero).
  destruct Hzero as (Heq & Hj & _); [lia|].
  rewrite Heq. split; [done|]. split; [done|]. intros Hne.
  destruct (canPlaceBlock_total stamped block tx ty Hwfs) as [[] Hb];
    [|done].
  exfalso. apply canPlaceBlock_fits in Hb.
  destruct (cells block) as [|c0 cs] eqn:Hcells; [done|].
  destruct (Hb c0) as [_ (c & Hc & He)]; [rewrite Hcells; by left|].
  rewrite Hst in Hc. rewrite decide_True in Hc.
  - destruct (cellAt grid _ _); [|done]. injection Hc as <-. done.
  - unfold covers. rewrite Hcells. apply elem_of_cons. left.
    destruct c0 as [x0 y0]. simpl. f_equal; lia.
Qed.

Lemma placement_without_clear_witness :
  wf_grid createEmptyGrid ∧
  canPlaceBlock createEmptyGrid dominoA 0 0 = Some true ∧
  ∃ r, placeBlockAndProcess createEmptyGrid dominoA 0 0 5 = Some r ∧
       linesCleared r = 0 ∧
       canPlaceBlock (newGrid r) dominoA 0 0 = Some false.
Proof.
  split; [exact createEmptyGrid_wf|]. split; [by vm_compute|].
  destruct (placeBlockAndProcess createEmptyGrid dominoA 0 0 5)
    as [r|] eqn:Hr; [|by vm_compute in Hr].
  assert (linesCleared r = 0) as Hl
    by (vm_compute in Hr; by injection Hr as <-).
  exists r. split; [done|]. split; [done|].
  destruct (placement_without_clear createEmptyGrid dominoA 0 0 5 r)
    as (_ & _ & Hno); [exact createEmptyGrid_wf|by vm_compute|done..|].
  by apply Hno.
Defined.

Lemma length_fullLines (l : list Z) :
  NoDup l → (∀ i, i ∈ l → 0 ≤ i < GRID_SIZE) → (length l ≤ 6)%nat.
Proof.
  intros Hnd Hin.
  assert (l ⊆+ indices) as Hsub.
  { apply NoDup_submseteq; [done|]. intros i Hi. apply elem_of_indices.
    by apply Hin. }
  apply submseteq_length in Hsub. done.
Qed.

Lemma placement_bounded grid block tx ty combo r :
  wf_grid grid → canPlaceBlock grid block tx ty = Some true →
  placeBlockAndProcess grid block tx ty combo = Some r →
  0 ≤ combo →
  0 ≤ linesCleared r ≤ 12 ∧ 0 ≤ junkCreated r ≤ 36 ∧ 0 ≤ points r ∧
  0 ≤ newCombo r ≤ combo + 1 ∧
  (linesCleared r > 0 → 100 * linesCleared r ≤ points r).
Proof.
  intros Hwf Hfit Hres Hcombo.
  destruct (placement_unfold _ _ _ _ _ _ Hwf Hfit Hres)
    as (stamped & fr & fc & Hwfs & Hwfr & Hst & Hndr & Hndc & Hfr & Hfc &
        Hlines & Hpos & Hzero).
  assert (length fr ≤ 6)%nat as Hlr
    by (apply length_fullLines; [done|]; intros i Hi; by apply Hfr).
  assert (length fc ≤ 6)%nat as Hlc
    by (apply length_fullLines; [done|]; intros i Hi; by apply Hfc).
  split; [lia|].
  destruct (decide (linesCleared r > 0)) as [Hgt|Hle].
  - destruct (Hpos Hgt) as (_ & Hj & Hc & Hp).
    assert (0 ≤ junkCreated r ≤ 36) as Hjb.
    { rewrite Hj. pose proof (length_filter
        (turnedJunk stamped (newGrid r)) allCoords) as Hlen.
      change (length allCoords) with 36%nat in Hlen. lia. }
    assert (0 ≤ newCombo r ≤ combo + 1) as Hcb.
    { rewrite Hc. unfold comboAfterClear. case_decide; lia. }
    split; [done|].
    assert (100 * linesCleared r ≤ points r) as Hpb.
    { rewrite Hp. unfold pointsAfterClear. repeat case_decide; lia. }
    split; [lia|]. split; [done|]. done.
  - destruct (Hzero Hle) as (_ & -> & -> & ->).
    split; [lia|]. split; [lia|]. split; [lia|]. intros ?. done.
Qed.

(** X11.  What a legal placement returns is bounded: at most 12 lines, at
    most 36 new junk cells, and, when the combo counter handed in is not
    negative, points that are not negative and a combo counter between 0
    and the one handed in plus one.  A placement that clears scores at
    least 100 for each line. *)
Theorem placement_bounds grid block tx ty combo r :
  wf_grid grid → canPlaceBlock grid block tx ty = Some true →
  placeBlockAndProcess grid block tx ty combo = Some r →
  0 ≤ combo →
  0 ≤ linesCleared r ≤ 12 ∧ 0 ≤ junkCreated r ≤ 36 ∧ 0 ≤ points r ∧
  0 ≤ newCombo r ≤ combo + 1 ∧
  (linesCleared r > 0 → 100 * linesCleared r ≤ points r).
Proof. apply placement_bounded. Qed.

Lemma placement_bounds_witness :
  wf_grid boardFour ∧ canPlaceBlock boardFour shapeRevL 4 0 = Some true ∧
  ∃ r, placeBlockAndProcess boardFour shapeRevL 4 0 2 = Some r ∧
       0 ≤ 2 ∧ 0 ≤ points r ∧ 0 ≤ newCombo r ≤ 2 + 1.
Proof.
  split; [exact boardFour_wf|]. split; [by vm_compute|].
  destruct (placeBlockAndProcess boardFour shapeRevL 4 0 2) as [r|] eqn:Hr;
    [|by vm_compute in Hr].
  exists r. split; [done|]. split; [lia|].
  destruct (placement_bounds boardFour shapeRevL 4 0 2 r)
    as (_ & _ & Hp & Hc & _);
    [exact boardFour_wf|by vm_compute|exact Hr|lia|].
  done.
Defined.

(** X12.  [placeBlockAndProcess] does not check the placement rule
    itself.  On a board it returns a board whenever every cell of the
    block falls on the board, whatever the cells underneath hold; if no
    line is full afterwards, every covered cell is filled in the result,
    so that junk or another block under the shape is overwritten. *)
Theorem placement_is_unchecked grid block tx ty combo :
  wf_grid grid →
  (∀ cell, cell ∈ cells block →
     inBounds (tx + coord_x cell) (ty + coord_y cell)) →
  ∃ r, placeBlockAndProcess grid block tx ty combo = Some r ∧
       wf_grid (newGrid r) ∧
       (linesCleared r = 0 →
        ∀ x y, covers block tx ty x y →
          cellAt (newGrid r) x y = stampCell block <$> cellAt grid x y ∧
          status <$> cellAt (newGrid r) x y = Some filled).
Proof.
  intros Hwf Hin.
  destruct (placeCells_spec grid block (cells block) tx ty Hwf Hin)
    as (stamped & Hs & Hwfs & Hst).
  destruct (processLines_spec stamped block combo Hwfs)
    as (fr & fc & r & Hr & Hwfr & _ & _ & _ & _ & _ & _ & Hzero).
  exists r. unfold placeBlockAndProcess. rewrite Hs.
  cbn [mbind option_bind]. split; [done|]. split; [done|].
  intros Hl x y Hcov. destruct Hzero as (-> & _); [lia|].
  rewrite Hst. fold (covers block tx ty x y). rewrite decide_True by done.
  split; [done|].
  destruct (cellAt_is_Some grid x y Hwf) as [c ->]; [|done].
  specialize (Hin _ Hcov). simpl in Hin.
  by replace (tx + (x - tx)) with x in Hin by lia;
    replace (ty + (y - ty)) with y in Hin by lia.
Qed.

Lemma placement_is_unchecked_witness :
  wf_grid boardJunk ∧
  (∀ cell, cell ∈ cells shapeDot →
     inBounds (5 + coord_x cell) (1 + coord_y cell)) ∧
  status <$> cellAt boardJunk 5 1 = Some junk ∧
  ∃ r, placeBlockAndProcess boardJunk shapeDot 5 1 0 = Some r ∧
       status <$> cellAt (newGrid r) 5 1 = Some filled.
Proof.
  assert (wf_grid boardJunk) as Hwf
    by exact (reachable_wf _ boardJunk_reachable).
  assert (∀ cell, cell ∈ cells shapeDot →
     inBounds (5 + coord_x cell) (1 + coord_y cell)) as Hin.
  { intros cell Hc. apply list_elem_of_singleton in Hc as ->.
    by vm_compute. }
  split; [exact Hwf|]. split; [exact Hin|]. split; [by vm_compute|].
  destruct (placement_is_unchecked boardJunk shapeDot 5 1 0 Hwf Hin)
    as (r & Hr & _ & Hcov).
  exists r. split; [exact Hr|].
  assert (linesCleared r = 0) as Hl.
  { vm_compute in Hr. by injection Hr as <-. }
  apply (Hcov Hl 5 1). unfold covers. by left.
Defined.

Lemma writeCell_rows grid grid' x y f :
  writeCell grid x y f = Some grid' →
  length grid' = length grid ∧ 0 ≤ y < Z.of_nat (length grid).
Proof.
  unfold writeCell. intros Hw.
  destruct (lookupZ grid y) as [row|] eqn:Hr; simpl in Hw; [|done].
  destruct (lookupZ row x) as [old|] eqn:Ho; simpl in Hw; [|done].
  injection Hw as <-. split; [by rewrite length_insert|].
  apply lookupZ_is_Some. by eexists.
Qed.

Lemma placeCells_outside_rows grid block cs tx ty :
  (∃ cell, cell ∈ cs ∧
     ¬ (0 ≤ ty + coord_y cell < Z.of_nat (length grid))) →
  placeCells grid block cs tx ty = None.
Proof.
  revert grid. induction cs as [|c cs IH]; intros grid (cell & Hc & Hout).
  { by apply elem_of_nil in Hc. }
  cbn [placeCells].
  destruct (writeCell grid _ _ _) as [g1|] eqn:Hw;
    cbn [mbind option_bind]; [|done].
  apply writeCell_rows in Hw as [Hlen Hy].
  apply elem_of_cons in Hc as [->|Hc]; [done|].
  apply IH. exists cell. split; [done|]. by rewrite Hlen.
Qed.

(** X13.  A call in which some cell of the block falls on a row that the
    board does not have throws: nothing is returned. *)
Theorem placement_outside_rows_throws grid block tx ty combo :
  (∃ cell, cell ∈ cells block ∧
     ¬ (0 ≤ ty + coord_y cell < Z.of_nat (length grid))) →
  placeBlockAndProcess grid block tx ty combo = None.
Proof.
  intros Hout. unfold placeBlockAndProcess.
  by rewrite placeCells_outside_rows.
Qed.

Lemma placement_outside_rows_throws_witness :
  (∃ cell, cell ∈ cells shapeI ∧
     ¬ (0 ≤ 4 + coord_y cell < Z.of_nat (length createEmptyGrid))) ∧
  placeBlockAndProcess createEmptyGrid shapeI 0 4 0 = None.
Proof.
  assert (∃ cell, cell ∈ cells shapeI ∧
     ¬ (0 ≤ 4 + coord_y cell < Z.of_nat (length createEmptyGrid))) as Hout.
  { exists (mkCoordinate 0 2). split.
    - unfold shapeI. cbn [cells]. do 2 right. by left.
    - change (length createEmptyGrid) with 6%nat. cbn [coord_y]. lia. }
  split; [exact Hout|].
  apply (placement_outside_rows_throws createEmptyGrid shapeI 0 4 0 Hout).
Defined.

End placement_edges.

(** ** The catalogue and generateHand *)

Section catalogue.
Implicit Types (block : BlockDefinition).

#[local] Existing Instances cellsOrdered_total cellsOrdered_trans
  cellsOrdered_antisymm.

Lemma Math_min_isMin f (l : list Coordinate) m :
  l ≠ [] → Math_min (f <$> l) = m → isMin f l m.
Proof. intros Hne <-. by apply isMin_Math_min. Qed.

Lemma Math_max_le f (l : list Coordinate) c :
  c ∈ l → f c ≤ Math_max (f <$> l).
Proof.
  intros Hc. assert (l ≠ []) as Hne by (intros ->; by apply elem_of_nil in Hc).
  destruct (isMax_exists f l Hne) as [m Hm].
  rewrite (Math_max_isMax _ _ _ Hm). by apply Hm.
Qed.

(** What every entry of [SHAPES] satisfies, checked entry by entry. *)
Lemma SHAPES_checked :
  Forall (fun s =>
    shape_cells s ≠ [] ∧
    Math_min (coord_x <$> shape_cells s) = 0 ∧
    Math_min (coord_y <$> shape_cells s) = 0 ∧
    Sorted cellsOrdered (shape_cells s) ∧
    NoDup (shape_cells s) ∧
    Math_max (coord_x <$> shape_cells s) + 1 ≤ MAX_BLOCK_SIZE ∧
    Math_max (coord_y <$> shape_cells s) + 1 ≤ MAX_BLOCK_SIZE) SHAPES.
Proof. apply (bool_decide_unpack _). by vm_compute. Qed.

Lemma generateHandLoop_spec (rnd : nat → Draw) i n :
  (∀ j, drawInRange (rnd j)) →
  ∃ hand, generateHandLoop rnd i n = Some hand ∧ length hand = n ∧
    ∀ k block, hand !! k = Some block →
      block_id block = draw_id (rnd (i + k)%nat) ∧
      basePoints block = None ∧
      BLOCK_COLORS !! draw_color (rnd (i + k)%nat)
        = Some (block_color block) ∧
      ∃ shape, SHAPES !! draw_shape (rnd (i + k)%nat) = Some shape ∧
               cells block = shape_cells shape.
Proof.
  intros Hrnd. revert i. induction n as [|n IH]; intros i.
  { exists []. split; [done|]. split; [done|]. intros k b. by rewrite lookup_nil. }
  cbn [generateHandLoop]. destruct (Hrnd i) as [Hs Hc].
  apply lookup_lt_is_Some in Hs as [shape Hshape].
  apply lookup_lt_is_Some in Hc as [color Hcolor].
  rewrite Hshape, Hcolor. cbn [mbind option_bind].
  destruct (IH (S i)) as (rest & -> & Hlen & Hrest). cbn [mbind option_bind].
  eexists. split; [reflexivity|]. split; [by rewrite length_cons, Hlen|].
  intros [|k] b.
  - intros [= <-]. rewrite Nat.add_0_r. cbn [block_id basePoints block_color cells].
    do 3 (split; [done|]). by exists shape.
  - intros Hb. replace (i + S k)%nat with (S i + k)%nat by lia.
    by apply Hrest.
Qed.

Lemma generateHand_blocks (rnd : nat → Draw) count difficulty :
  (∀ j, drawInRange (rnd j)) →
  ∃ hand, generateHand rnd count difficulty = Some hand ∧
    length hand = Z.to_nat count ∧
    (∀ k block, hand !! k = Some block →
       block_id block = draw_id (rnd k) ∧
       BLOCK_COLORS !! draw_color (rnd k) = Some (block_color block) ∧
       ∃ shape, SHAPES !! draw_shape (rnd k) = Some shape ∧
                cells block = shape_cells shape) ∧
    Forall (fun block =>
      normalised block ∧ Sorted cellsOrdered (cells block) ∧
      NoDup (cells block) ∧
      blockWidth block ≤ MAX_BLOCK_SIZE ∧
      blockHeight block ≤ MAX_BLOCK_SIZE ∧
      block_color block ∈ BLOCK_COLORS ∧ basePoints block = None) hand.
Proof.
  intros Hrnd. unfold generateHand.
  destruct (generateHandLoop_spec rnd 0 (Z.to_nat count) Hrnd)
    as (hand & -> & Hlen & Hblocks).
  exists hand. split; [done|]. split; [done|]. split.
  - intros k b Hb. destruct (Hblocks k b Hb) as (? & _ & ? & ?). done.
  - apply Forall_lookup. intros k b Hb.
    destruct (Hblocks k b Hb) as (_ & Hbp & Hcol & shape & Hshape & Hcells).
    pose proof SHAPES_checked as Hcat. rewrite Forall_lookup in Hcat.
    destruct (Hcat _ _ Hshape) as (Hne & Hx & Hy & Hsort & Hnd & Hw & Hh).
    unfold normalised, blockWidth, blockHeight. rewrite Hcells.
    split; [split; [done|]; split; by apply Math_min_isMin|].
    do 4 (split; [done|]). split; [|done].
    by eapply list_elem_of_lookup_2.
Qed.

(** X14.  [generateHand] returns as many blocks as asked for (none for a
    negative count), each with the offsets of the entry of [SHAPES] and
    the colour of [BLOCK_COLORS] that its draws index and the identifier
    it drew.  Every block of a hand is therefore a normalised shape with
    its offsets in row-major order and none twice, at most
    MAX_BLOCK_SIZE wide and high, in a colour of the palette, with no
    [basePoints]. *)
Theorem generateHand_draws_from_catalogue (rnd : nat → Draw)
    count difficulty :
  (∀ j, drawInRange (rnd j)) →
  ∃ hand, generateHand rnd count difficulty = Some hand ∧
    length hand = Z.to_nat count ∧
    (∀ k block, hand !! k = Some block →
       block_id block = draw_id (rnd k) ∧
       BLOCK_COLORS !! draw_color (rnd k) = Some (block_color block) ∧
       ∃ shape, SHAPES !! draw_shape (rnd k) = Some shape ∧
                cells block = shape_cells shape) ∧
    Forall (fun block =>
      normalised block ∧ Sorted cellsOrdered (cells block) ∧
      NoDup (cells block) ∧
      blockWidth block ≤ MAX_BLOCK_SIZE ∧
      blockHeight block ≤ MAX_BLOCK_SIZE ∧
      block_color block ∈ BLOCK_COLORS ∧ basePoints block = None) hand.
Proof. apply generateHand_blocks. Qed.

Lemma firstDraw_inRange : ∀ j, drawInRange (firstDraw j).
Proof. intros j. unfold drawInRange, firstDraw. cbn. lia. Qed.

Lemma generateHand_draws_from_catalogue_witness :
  (∀ j, drawInRange (firstDraw j)) ∧
  ∃ hand, generateHand firstDraw 3 1 = Some hand ∧ length hand = 3%nat.
Proof.
  split; [exact firstDraw_inRange|].
  destruct (generateHand_draws_from_catalogue firstDraw 3 1
              firstDraw_inRange) as (hand & Hh & Hlen & _).
  exists hand. split; [exact Hh|exact Hlen].
Defined.

(** A normalised shape that is no wider and no higher than the board
    fits at the corner of the empty board. *)
Lemma fits_empty_board block :
  normalised block →
  blockWidth block ≤ GRID_SIZE → blockHeight block ≤ GRID_SIZE →
  canPlaceBlock createEmptyGrid block 0 0 = Some true.
Proof.
  intros (Hne & [_ Hx] & [_ Hy]) Hw Hh. apply canPlaceBlock_fits.
  intros cell Hc. unfold blockWidth, blockHeight in *.
  pose proof (Math_max_le coord_x _ _ Hc). pose proof (Math_max_le coord_y _ _ Hc).
  specialize (Hx _ Hc). specialize (Hy _ Hc).
  assert (inBounds (0 + coord_x cell) (0 + coord_y cell)) as Hin
    by (unfold inBounds; lia).
  split; [done|].
  destruct (cellAt_is_Some createEmptyGrid _ _ createEmptyGrid_wf Hin)
    as [c Hcell].
  exists c. split; [done|]. by apply createEmptyGrid_cells in Hcell as [? _].
Qed.

Lemma canPlaceAny_total grid hand :
  wf_grid grid → is_Some (canPlaceAny grid hand).
Proof.
  intros Hwf. unfold canPlaceAny. case_decide; [by eexists|].
  destruct (canPlaceAnyLoop_spec grid hand Hwf) as (b & -> & _). by eexists.
Qed.

Lemma fresh_hand_is_playable hand :
  Forall (fun block => normalised block ∧
            blockWidth block ≤ MAX_BLOCK_SIZE ∧
            blockHeight block ≤ MAX_BLOCK_SIZE) hand →
  canPlaceAny createEmptyGrid hand = Some true.
Proof.
  intros Hall. unfold canPlaceAny. case_decide as Hlen; [done|].
  destruct (canPlaceAnyLoop_spec createEmptyGrid hand createEmptyGrid_wf)
    as (b & -> & Hb).
  f_equal. apply Hb. destruct hand as [|block hand]; [done|].
  apply Forall_cons in Hall as [(Hn & Hw & Hh) _].
  exists block, 0%nat, 0, 0. split; [by left|]. split; [lia|].
  split; [by vm_compute|].
  change (rotations 0 block) with block.
  apply fits_empty_board; [done|unfold MAX_BLOCK_SIZE, GRID_SIZE in *; lia..].
Qed.

End catalogue.

(** * Properties of the App component *)

Section app.
Context {Pixel : Type}.
Implicit Types (s : App.State Pixel) (rnd : nat → Draw).

Ltac app_simpl :=
  cbn [App.grid App.score App.highScore App.hand App.turn App.combo
       App.isGameOver App.history App.tutorialOpen App.isMuted
       App.dragBlock App.dragPosition App.ghostPosition
       HistoryState.grid HistoryState.score HistoryState.hand
       HistoryState.turn HistoryState.isGameOver HistoryState.combo
       App.snapshot fst snd].

Lemma pushHistory_length prev h :
  length (App.pushHistory prev h) = Nat.min (S (length prev)) 20.
Proof.
  unfold App.pushHistory. rewrite length_app, length_drop. simpl. lia.
Qed.

Lemma pushHistory_last prev h : last (App.pushHistory prev h) = Some h.
Proof. unfold App.pushHistory. by rewrite last_snoc. Qed.

Lemma pushHistory_take prev h :
  take (length (App.pushHistory prev h) - 1) (App.pushHistory prev h)
  = drop (length prev - 19) prev.
Proof.
  unfold App.pushHistory. rewrite length_app. simpl.
  replace (length (drop (length prev - 19) prev) + 1 - 1)%nat
    with (length (drop (length prev - 19) prev)) by lia.
  by rewrite take_app_length.
Qed.

(** What a drop with a ghost leaves, when it returns. *)
Lemma handleDragEnd_placed rnd s block ghost s1 sounds :
  App.dragBlock s = Some block → App.ghostPosition s = Some ghost →
  App.handleDragEnd rnd s = Some (s1, sounds) →
  ∃ r, placeBlockAndProcess (App.grid s) block (coord_x ghost)
         (coord_y ghost) (App.combo s) = Some r ∧
       App.grid s1 = newGrid r ∧
       App.score s1 = App.score s + points r ∧
       App.combo s1 = newCombo r ∧
       App.history s1 = App.pushHistory (App.history s) (App.snapshot s) ∧
       App.highScore s1 = App.highScore s ∧
       App.dragBlock s1 = None ∧ App.dragPosition s1 = None ∧
       App.ghostPosition s1 = None ∧
       sounds = [App.dropSound (linesCleared r) (junkCreated r)].
Proof.
  intros Hd Hg. unfold App.handleDragEnd. rewrite Hd, Hg.
  destruct (placeBlockAndProcess _ _ _ _ _) as [r|];
    cbn [mbind option_bind]; [|done].
  case_decide.
  - destruct (generateHand rnd 3 (App.turn s)) as [nextHand|];
      cbn [mbind option_bind]; [|done].
    destruct (canPlaceAny (newGrid r) nextHand) as [movable|];
      cbn [mbind option_bind]; [|done].
    intros [= <- <-]. exists r. app_simpl. done.
  - destruct (canPlaceAny (newGrid r) _) as [movable|];
      cbn [mbind option_bind]; [|done].
    intros [= <- <-]. exists r. app_simpl. done.
Qed.

(** X15.  The undo history keeps the last 20 positions: a drop that
    places a block appends the position it started from and forgets
    what is older than the 19 positions before it. *)
Theorem history_keeps_last_twenty rnd s block ghost s1 sounds :
  App.dragBlock s = Some block → App.ghostPosition s = Some ghost →
  App.handleDragEnd rnd s = Some (s1, sounds) →
  length (App.history s1) = Nat.min (S (length (App.history s))) 20 ∧
  last (App.history s1) = Some (App.snapshot s) ∧
  ∀ i h, App.history s1 !! i = Some h →
         (i < length (App.history s1) - 1)%nat →
         App.history s !!
           (length (App.history s) - 19 + i)%nat = Some h.
Proof.
  intros Hd Hg Hend.
  destruct (handleDragEnd_placed _ _ _ _ _ _ Hd Hg Hend)
    as (r & _ & _ & _ & _ & -> & _).
  split; [apply pushHistory_length|]. split; [apply pushHistory_last|].
  intros i h Hi Hlt. unfold App.pushHistory in *.
  rewrite length_app in Hlt. simpl in Hlt.
  rewrite lookup_app_l in Hi by lia. by rewrite lookup_drop in Hi.
Qed.

(** X16.  Undo after a drop gives back the position before the drop:
    board, score, hand, turn, combo counter and game-over flag are those
    the drop started from, the history is the one of before the drop
    (less what the drop forgot of it), and the undo plays the rotate
    sound. *)
Theorem undo_after_drop rnd s block ghost s1 sounds :
  App.dragBlock s = Some block → App.ghostPosition s = Some ghost →
  App.handleDragEnd rnd s = Some (s1, sounds) →
  let s2 := (App.handleUndo s1).1 in
  App.grid s2 = App.grid s ∧ App.score s2 = App.score s ∧
  App.hand s2 = App.hand s ∧ App.turn s2 = App.turn s ∧
  App.combo s2 = App.combo s ∧ App.isGameOver s2 = App.isGameOver s ∧
  App.history s2 =
    drop (length (App.history s) - 19) (App.history s) ∧
  ((length (App.history s) ≤ 19)%nat → App.history s2 = App.history s) ∧
  (App.handleUndo s1).2 = [Sound.rotate].
Proof.
  intros Hd Hg Hend.
  destruct (handleDragEnd_placed _ _ _ _ _ _ Hd Hg Hend)
    as (r & _ & _ & _ & _ & Hh & _).
  assert (last (App.history s1) = Some (App.snapshot s)) as Hlast
    by (rewrite Hh; apply pushHistory_last).
  unfold App.handleUndo. rewrite decide_False.
  2: { rewrite Hh, pushHistory_length. lia. }
  rewrite Hlast. app_simpl.
  do 6 (split; [done|]). rewrite Hh, pushHistory_take.
  split; [done|]. split; [|done]. intros Hle.
  replace (length (App.history s) - 19)%nat with 0%nat by lia.
  by rewrite drop_0.
Qed.


Lemma canPlaceAny_flag grid hand (flag : bool) movable :
  canPlaceAny grid hand = Some movable → flag = false →
  (if movable then flag else true) = true ↔
  canPlaceAny grid hand = Some false.
Proof. intros -> ->. destruct movable; naive_solver. Qed.

Lemma rotateInHand_normalised block hand :
  Forall normalised hand → Forall normalised (App.rotateInHand block hand).
Proof.
  intros Hall. unfold App.rotateInHand. apply Forall_fmap.
  eapply Forall_impl; [exact Hall|]. intros b Hb. simpl.
  case_decide; [|done]. apply rotate_normalised. apply Hb.
Qed.

Lemma handleDragEnd_Inv rnd s :
  (∀ j, drawInRange (rnd j)) → App.Inv s →
  ∃ s' sounds, App.handleDragEnd rnd s = Some (s', sounds) ∧ App.Inv s' ∧
    App.score s ≤ App.score s' ∧
    App.dragBlock s' = None ∧ App.ghostPosition s' = None ∧
    (is_Some (App.dragBlock s) → is_Some (App.ghostPosition s) →
     App.hand s' ≠ []).
Proof.
  intros Hrnd (Hpos & Hhist & Hlen & Hghost & Hdrag).
  unfold App.handleDragEnd.
  destruct (App.dragBlock s) as [block|] eqn:Hd.
  2: { eexists _, _. split; [reflexivity|]. unfold App.Inv. app_simpl.
       split; [|split; [lia|]; do 2 (split; [done|]); by intros [? [=]]].
       do 3 (split; [done|]). split; [|done]. intros p [=]. }
  destruct (App.ghostPosition s) as [ghost|] eqn:Hg.
  2: { eexists _, _. split; [reflexivity|]. unfold App.Inv. app_simpl.
       split; [|split; [lia|]; do 2 (split; [done|]); by intros _ [? [=]]].
       do 3 (split; [done|]). split; [|done]. intros p [=]. }
  destruct (Hdrag block eq_refl) as [Hover Hfit].
  specialize (Hfit ghost eq_refl).
  pose proof Hpos as (Hreach & Hscore & Hcombo & Hnorm & Hflag).
  pose proof (reachable_wf _ Hreach) as Hwf.
  destruct (placeBlockAndProcess_total (App.grid s) block (coord_x ghost)
              (coord_y ghost) (App.combo s) Hwf Hfit) as (r & Hr & Hwfr).
  rewrite Hr. cbn [mbind option_bind].
  destruct (placement_bounded _ _ _ _ _ _ Hwf Hfit Hr Hcombo)
    as (_ & _ & Hpoints & Hnew & _).
  assert (reachable (newGrid r)) as Hreach' by (by eapply reachable_place).
  assert (Forall (fun h =>
    App.soundPosition (HistoryState.grid h) (HistoryState.score h)
      (HistoryState.combo h) (HistoryState.hand h)
      (HistoryState.isGameOver h))
    (App.pushHistory (App.history s) (App.snapshot s))) as Hhist'.
  { unfold App.pushHistory. apply Forall_app. split.
    - by apply Forall_drop.
    - apply Forall_singleton. exact Hpos. }
  assert (length (App.pushHistory (App.history s) (App.snapshot s)) ≤ 20)%nat
    as Hlen' by (rewrite pushHistory_length; lia).
  case_decide as Hempty.
  - destruct (generateHand_blocks rnd 3 (App.turn s) Hrnd)
      as (nextHand & -> & Hthree & _ & Hnext). cbn [mbind option_bind].
    destruct (canPlaceAny_total (newGrid r) nextHand Hwfr) as [movable Hm].
    rewrite Hm. cbn [mbind option_bind].
    eexists _, _. split; [reflexivity|]. unfold App.Inv. app_simpl.
    split; [|split; [lia|]; do 2 (split; [done|]); intros _ _ ->; done].
    split; [|split; [done|]; split; [done|]; split; [by intros p [=]|done]].
    split; [done|]. split; [lia|]. split; [lia|]. split.
    + eapply Forall_impl; [exact Hnext|]. by intros b [? _].
    + by apply canPlaceAny_flag.
  - destruct (canPlaceAny_total (newGrid r)
      (filter (fun b => block_id b ≠ block_id block) (App.hand s)) Hwfr)
      as [movable Hm].
    rewrite Hm. cbn [mbind option_bind].
    eexists _, _. split; [reflexivity|]. unfold App.Inv. app_simpl.
    split; [|split; [lia|]; do 2 (split; [done|]);
             intros _ _ Hnil; by rewrite Hnil in Hempty].
    split; [|split; [done|]; split; [done|]; split; [by intros p [=]|done]].
    split; [done|]. split; [lia|]. split; [lia|]. split.
    + apply Forall_forall. intros b [_ Hb]%list_elem_of_filter.
      rewrite Forall_forall in Hnorm. by apply Hnorm.
    + by apply canPlaceAny_flag.
Qed.


(** X18.  [handleUndo] keeps the invariant of the component when no drag
    is in progress: the position it restores is one the history
    recorded, hence a position of the game. *)
Theorem undo_keeps_invariant s :
  App.Inv s → App.dragBlock s = None → App.Inv (App.handleUndo s).1.
Proof.
  intros HI Hd. pose proof HI as (Hpos & Hhist & Hlen & Hghost & Hdrag).
  unfold App.handleUndo. case_decide; [done|].
  destruct (last (App.history s)) as [prev|] eqn:Hlast; [|done].
  unfold App.Inv. app_simpl.
  split; [|split; [|split; [|split; [done|]]]].
  - rewrite Forall_forall in Hhist. apply Hhist.
    apply last_Some in Hlast as [l' ->]. set_solver.
  - by apply Forall_take.
  - rewrite length_take. lia.
  - intros b Hb. congruence.
Qed.

(** X19.  [handleRotate] keeps the invariant of the component, although
    it does not run the game-over test again: the rotated hand holds
    normalised shapes, and [canPlaceAny] says of it what it said of the
    hand before. *)
Theorem rotate_keeps_invariant block s :
  App.Inv s → App.Inv (App.handleRotate block s).1.
Proof.
  intros (Hpos & Hhist & Hlen & Hghost & Hdrag).
  unfold App.handleRotate, App.Inv. app_simpl.
  split; [|done].
  destruct Hpos as (Hreach & Hscore & Hcombo & Hnorm & Hflag).
  do 3 (split; [done|]). split; [by apply rotateInHand_normalised|].
  rewrite canPlaceAny_rotateInHand; [done|by apply reachable_wf|done].
Qed.


(** X21.  [handleDragStart] keeps the invariant of the component when
    the game is not over and no other drag is in progress, which is when
    the Block component calls it. *)
Theorem drag_start_keeps_invariant block (startX startY : Pixel) s :
  App.Inv s → App.isGameOver s = false → App.dragBlock s = None →
  App.Inv (App.handleDragStart block startX startY s).
Proof.
  intros (Hpos & Hhist & Hlen & Hghost & Hdrag) Hover Hd.
  unfold App.handleDragStart, App.Inv. app_simpl.
  do 3 (split; [done|]). split; [by eexists|].
  intros b [= <-]. split; [done|]. intros p Hp.
  destruct (Hghost p Hp) as [b' Hb']. congruence.
Qed.

(** X22.  [startNewGame], called while no block is dragged, returns a
    state that satisfies the invariant of the component: the empty
    board, score 0, combo 0, turn 1, an empty history, the high score of
    before, and a hand of three blocks of which [canPlaceAny] finds one
    to place, so that a new game is never over at once. *)
Theorem new_game_is_sound rnd s :
  (∀ j, drawInRange (rnd j)) →
  App.dragBlock s = None → App.ghostPosition s = None →
  ∃ s', App.startNewGame rnd s = Some (s', [Sound.rotate]) ∧ App.Inv s' ∧
    App.grid s' = createEmptyGrid ∧ App.score s' = 0 ∧ App.combo s' = 0 ∧
    App.turn s' = 1 ∧ App.isGameOver s' = false ∧ App.history s' = [] ∧
    length (App.hand s') = 3%nat ∧
    canPlaceAny createEmptyGrid (App.hand s') = Some true ∧
    App.highScore s' = App.highScore s.
Proof.
  intros Hrnd Hd Hg. unfold App.startNewGame.
  destruct (generateHand_blocks rnd 3 1 Hrnd)
    as (newHand & -> & Hlen & _ & Hnew). cbn [mbind option_bind].
  assert (canPlaceAny createEmptyGrid newHand = Some true) as Hplay.
  { apply fresh_hand_is_playable. eapply Forall_impl; [exact Hnew|].
    intros b (? & _ & _ & ? & ? & _). done. }
  eexists. split; [reflexivity|]. app_simpl.
  split; [|by rewrite Hlen]. unfold App.Inv. app_simpl.
  rewrite Hd, Hg.
  split; [|split; [constructor|split; [simpl; lia|
           split; [by intros p [=]|by intros b [=]]]]].
  split; [constructor|]. split; [done|]. split; [done|]. split.
  - eapply Forall_impl; [exact Hnew|]. by intros b [? _].
  - rewrite Hplay. done.
Qed.


End app.

Lemma dominoA_normalised : normalised dominoA.
Proof.
  split; [done|]. split; by apply Math_min_isMin.
Qed.

Lemma stateDragging_Inv : App.Inv stateDragging.
Proof.
  split; [|split; [constructor|split; [simpl; lia|split]]].
  - split; [constructor|]. split; [done|]. split; [done|]. split.
    + apply Forall_cons. split; [exact dominoA_normalised|].
      exact shapeL_hand_normalised.
    + split; [done|]. intros H. by vm_compute in H.
  - intros p _. by eexists.
  - intros b [= <-]. split; [done|]. intros p [= <-]. by vm_compute.
Qed.

Lemma statePlaced_Inv : App.Inv statePlaced.
Proof.
  destruct (handleDragEnd_Inv firstDraw stateDragging firstDraw_inRange
              stateDragging_Inv) as (s' & sounds & Hs & HI & _).
  unfold statePlaced. rewrite Hs. exact HI.
Qed.

Lemma history_keeps_last_twenty_witness :
  App.dragBlock stateDragging = Some dominoA ∧
  App.ghostPosition stateDragging = Some (mkCoordinate 0 0) ∧
  ∃ s1 sounds,
    App.handleDragEnd firstDraw stateDragging = Some (s1, sounds) ∧
    length (App.history s1) = 1%nat ∧
    last (App.history s1) = Some (App.snapshot stateDragging).
Proof.
  split; [reflexivity|]. split; [reflexivity|].
  destruct (App.handleDragEnd firstDraw stateDragging) as [[s1 sounds]|]
    eqn:Hend; [|by vm_compute in Hend].
  exists s1, sounds. split; [reflexivity|].
  destruct (history_keeps_last_twenty firstDraw stateDragging dominoA
              (mkCoordinate 0 0) s1 sounds eq_refl eq_refl Hend)
    as (Hlen & Hlast & _).
  split; [exact Hlen|exact Hlast].
Defined.

Lemma undo_after_drop_witness :
  App.dragBlock stateDragging = Some dominoA ∧
  App.ghostPosition stateDragging = Some (mkCoordinate 0 0) ∧
  ∃ s1 sounds,
    App.handleDragEnd firstDraw stateDragging = Some (s1, sounds) ∧
    App.grid (App.handleUndo s1).1 = App.grid stateDragging ∧
    App.hand (App.handleUndo s1).1 = App.hand stateDragging.
Proof.
  split; [reflexivity|]. split; [reflexivity|].
  destruct (App.handleDragEnd firstDraw stateDragging) as [[s1 sounds]|]
    eqn:Hend; [|by vm_compute in Hend].
  exists s1, sounds. split; [reflexivity|].
  destruct (undo_after_drop firstDraw stateDragging dominoA
              (mkCoordinate 0 0) s1 sounds eq_refl eq_refl Hend)
    as (Hg & _ & Hh & _).
  split; [exact Hg|exact Hh].
Defined.


Lemma undo_keeps_invariant_witness :
  App.Inv statePlaced ∧ App.dragBlock statePlaced = None ∧
  App.history statePlaced ≠ [] ∧
  App.Inv (App.handleUndo statePlaced).1.
Proof.
  split; [exact statePlaced_Inv|]. split; [by vm_compute|].
  split; [by vm_compute|].
  apply (undo_keeps_invariant statePlaced);
    [exact statePlaced_Inv|by vm_compute].
Defined.

Lemma rotate_keeps_invariant_witness :
  App.Inv stateDragging ∧
  App.Inv (App.handleRotate shapeL stateDragging).1.
Proof.
  split; [exact stateDragging_Inv|].
  apply (rotate_keeps_invariant shapeL stateDragging).
  exact stateDragging_Inv.
Defined.


Lemma drag_start_keeps_invariant_witness :
  App.Inv statePlaced ∧ App.isGameOver statePlaced = false ∧
  App.dragBlock statePlaced = None ∧
  App.Inv (App.handleDragStart shapeL 40 500 statePlaced).
Proof.
  split; [exact statePlaced_Inv|]. split; [by vm_compute|].
  split; [by vm_compute|].
  apply (drag_start_keeps_invariant shapeL 40 500 statePlaced);
    [exact statePlaced_Inv|by vm_compute..].
Defined.

Lemma new_game_is_sound_witness :
  (∀ j, drawInRange (firstDraw j)) ∧
  App.dragBlock (App.initial (Pixel := Z)) = None ∧
  App.ghostPosition (App.initial (Pixel := Z)) = None ∧
  ∃ s' : App.State Z,
    App.startNewGame firstDraw App.initial = Some (s', [Sound.rotate]) ∧
    App.Inv s' ∧ App.isGameOver s' = false.
Proof.
  split; [exact firstDraw_inRange|]. split; [reflexivity|].
  split; [reflexivity|].
  destruct (new_game_is_sound firstDraw (App.initial (Pixel := Z))
              firstDraw_inRange eq_refl eq_refl)
    as (s' & Hs & HI & _ & _ & _ & _ & Hover & _).
  exists s'. split; [exact Hs|]. split; [exact HI|exact Hover].
Defined.

(** ** Colours and the ghost *)

Lemma placement_keeps_colours grid block tx ty combo r :
  wf_grid grid → Forall (Forall colourFitsStatus) grid →
  canPlaceBlock grid block tx ty = Some true →
  placeBlockAndProcess grid block tx ty combo = Some r →
  Forall (Forall colourFitsStatus) (newGrid r).
Proof.
  intros Hwf Hinv Hfit Hres.
  destruct (placement_unfold _ _ _ _ _ _ Hwf Hfit Hres)
    as (stamped & fr & fc & Hwfs & Hwfr & Hst & _ & _ & _ & _ & _ &
        Hpos & Hzero).
  rewrite Forall_cells in Hinv.
  assert (∀ x y c, cellAt stamped x y = Some c → colourFitsStatus c)
    as Hinvs.
  { intros x y c. rewrite Hst. case_decide.
    - destruct (cellAt grid x y) as [c0|]; [|done]. intros [= <-].
      unfold colourFitsStatus. simpl. by eexists.
    - apply Hinv. }
  apply Forall_cells. intros x y c' Hc'.
  destruct (decide (linesCleared r > 0)) as [Hgt|Hle].
  - destruct (Hpos Hgt) as (Hcells & _).
    destruct (cellAt_is_Some stamped x y Hwfs) as [c Hc].
    { by eapply cellAt_inBounds. }
    destruct (Hcells x y c Hc) as (c'' & Hc'' & Hto).
    assert (c'' = c') as -> by congruence.
    inversion Hto; subst; unfold colourFitsStatus; simpl; try done.
    by eapply Hinvs.
  - destruct (Hzero Hle) as (Heq & _). rewrite Heq in Hc'. by eapply Hinvs.
Qed.

Lemma reachable_colourFits grid :
  reachable grid → Forall (Forall colourFitsStatus) grid.
Proof.
  induction 1 as [|grid block x y combo r Hreach IH Hfit Hres].
  - unfold createEmptyGrid. apply Forall_fmap, Forall_forall. intros y' _.
    apply Forall_fmap, Forall_forall. intros x' _. done.
  - eapply placement_keeps_colours; eauto using reachable_wf.
Qed.

(** X23.  On every board of a game the colour of a cell goes with its
    status: an empty cell has no colour, a junk cell has the junk
    colour, and a filled cell has a colour. *)
Theorem reachable_colours grid :
  reachable grid → Forall (Forall colourFitsStatus) grid.
Proof. apply reachable_colourFits. Qed.

Lemma reachable_colours_witness :
  reachable boardJunk ∧
  cellAt boardJunk 5 1
    = Some (mkCell "cell-5-1" junk (Some JUNK_COLOR) None) ∧
  Forall (Forall colourFitsStatus) boardJunk.
Proof.
  split; [exact boardJunk_reachable|]. split; [by vm_compute|].
  apply (reachable_colours boardJunk). exact boardJunk_reachable.
Defined.

Section ghost.
Context {Pixel : Type}.
Implicit Types (s : App.State Pixel).

Lemma isGhost_true s x y :
  App.isGhost s x y = true ↔
  ∃ ghost block, App.ghostPosition s = Some ghost ∧
    App.dragBlock s = Some block ∧
    covers block (coord_x ghost) (coord_y ghost) x y.
Proof.
  unfold App.isGhost.
  destruct (App.ghostPosition s) as [ghost|]; [|naive_solver].
  destruct (App.dragBlock s) as [block|]; [|naive_solver].
  rewrite existsb_exists. setoid_rewrite <- list_elem_of_In.
  unfold covers. split.
  - intros (c & Hc & Hxy). exists ghost, block. do 2 (split; [done|]).
    apply andb_prop in Hxy as [Hx%bool_decide_eq_true Hy%bool_decide_eq_true].
    destruct c as [cx cy]. simpl in *.
    by replace (x - coord_x ghost) with cx by lia;
      replace (y - coord_y ghost) with cy by lia.
  - intros (g & b & [= <-] & [= <-] & Hc). eexists. split; [exact Hc|].
    simpl. apply andb_true_intro. split; apply bool_decide_eq_true; lia.
Qed.

(** X24.  In a state that satisfies the invariant of the component,
    the ghost of the dragged block is drawn over empty cells of the
    board only, in the colour of the block; and a cell that is not under
    the ghost gets a background colour from [getCellStyle] exactly when
    it is filled. *)
Theorem ghost_covers_empty_cells s x y :
  App.Inv s →
  (App.isGhost s x y = true →
     ∃ cell block, cellAt (App.grid s) x y = Some cell ∧
       status cell = empty ∧ App.dragBlock s = Some block ∧
       App.getCellStyle s cell x y = Some (block_color block)) ∧
  (App.isGhost s x y = false →
     ∀ cell, cellAt (App.grid s) x y = Some cell →
       (is_Some (App.getCellStyle s cell x y) ↔ status cell = filled)).
Proof.
  intros (Hpos & _ & _ & _ & Hdrag). split.
  - intros Hg. pose proof Hg as (ghost & block & Hgh & Hd & Hcov)%isGhost_true.
    destruct (Hdrag block Hd) as [_ Hfit]. specialize (Hfit ghost Hgh).
    destruct (covered_was_empty _ _ _ _ _ _ Hfit Hcov) as (cell & Hc & He).
    exists cell, block. do 3 (split; [done|]).
    unfold App.getCellStyle. by rewrite Hg, Hd.
  - intros Hg cell Hc. unfold App.getCellStyle. rewrite Hg.
    destruct Hpos as (Hreach & _).
    pose proof (reachable_colourFits _ Hreach) as Hcol.
    rewrite Forall_cells in Hcol. specialize (Hcol _ _ _ Hc).
    unfold colourFitsStatus in Hcol. case_decide as Hst.
    + rewrite Hst in Hcol. done.
    + split; [by intros [? [=]]|done].
Qed.

End ghost.

Lemma ghost_covers_empty_cells_witness :
  App.Inv stateDragging ∧ App.isGhost stateDragging 1 0 = true ∧
  ∃ cell, cellAt (App.grid stateDragging) 1 0 = Some cell ∧
          status cell = empty ∧
          App.getCellStyle stateDragging cell 1 0 = Some "#f97316"%string.
Proof.
  split; [exact stateDragging_Inv|]. split; [reflexivity|].
  destruct (ghost_covers_empty_cells stateDragging 1 0 stateDragging_Inv)
    as [Hg _].
  destruct (Hg eq_refl) as (cell & block & Hc & He & Hd & Hs).
  exists cell. split; [exact Hc|]. split; [exact He|].
  injection Hd as <-. exact Hs.
Defined.

(** ** The box of a block and the hand after a drop *)

(** X25.  The box that the Block component computes for a shape whose
    least x and least y are 0 holds every cell of the shape and is
    tight: every offset has 0 <= x < width and 0 <= y < height, some
    offset has x = width - 1 and some offset has y = height - 1. *)
Theorem block_box_contains_cells (block : BlockDefinition) :
  normalised block →
  (∀ c, c ∈ cells block →
     0 ≤ coord_x c < blockWidth block ∧ 0 ≤ coord_y c < blockHeight block) ∧
  (∃ c, c ∈ cells block ∧ coord_x c = blockWidth block - 1) ∧
  (∃ c, c ∈ cells block ∧ coord_y c = blockHeight block - 1).
Proof.
  intros (Hne & [_ Hx] & [_ Hy]).
  destruct (isMax_exists coord_x _ Hne) as [A HA].
  destruct (isMax_exists coord_y _ Hne) as [B HB].
  unfold blockWidth, blockHeight.
  rewrite (Math_max_isMax _ _ _ HA), (Math_max_isMax _ _ _ HB).
  destruct HA as [(cA & HcA & HAeq) HAle], HB as [(cB & HcB & HBeq) HBle].
  split; [|split].
  - intros c Hc. specialize (Hx _ Hc). specialize (Hy _ Hc).
    specialize (HAle _ Hc). specialize (HBle _ Hc). lia.
  - exists cA. split; [done|lia].
  - exists cB. split; [done|lia].
Qed.

Lemma block_box_contains_cells_witness :
  normalised shapeL ∧
  (∀ c, c ∈ cells shapeL →
     0 ≤ coord_x c < blockWidth shapeL ∧ 0 ≤ coord_y c < blockHeight shapeL).
Proof.
  split; [exact shapeL_is_normalised|].
  destruct (block_box_contains_cells shapeL shapeL_is_normalised) as [H _].
  exact H.
Defined.

Section hand_after_drop.
Context {Pixel : Type}.
Implicit Types (s : App.State Pixel) (rnd : nat → Draw).

Lemma filter_other_all {A B} `{EqDecision B} (f : A → B) (l : list A) a :
  a ∉ f <$> l → filter (fun b => f b ≠ a) l = l.
Proof.
  induction l as [|x l IH]; [done|]. rewrite fmap_cons, not_elem_of_cons.
  intros [Hne Hnot]. rewrite filter_cons_True by done. by rewrite IH.
Qed.

Lemma length_filter_other {A B} `{EqDecision B} (f : A → B) (l : list A) a :
  NoDup (f <$> l) → a ∈ f <$> l →
  length (filter (fun b => f b ≠ a) l) = (length l - 1)%nat.
Proof.
  induction l as [|x l IH]; [by intros _ ?%elem_of_nil|].
  rewrite fmap_cons, NoDup_cons. intros [Hnot Hnd] Hin.
  destruct (decide (f x = a)) as [Heq|Hne].
  - rewrite filter_cons_False by naive_solver. subst a.
    rewrite filter_other_all by done. simpl. lia.
  - rewrite filter_cons_True by done.
    apply elem_of_cons in Hin as [?|Hin]; [congruence|].
    simpl. rewrite IH by done.
    destruct l; [by apply elem_of_nil in Hin|simpl; lia].
Qed.

(** X26.  A drop that places a block takes this block, and no other,
    out of the hand when the identifiers of the hand are pairwise
    different: the new hand is the old one without the block of that
    identifier, one shorter, in the same turn.  Only when the block was
    the last of the hand is the hand refilled with three new blocks and
    the turn counted up. *)
Theorem drop_takes_block_from_hand rnd s block ghost s1 sounds :
  App.dragBlock s = Some block → App.ghostPosition s = Some ghost →
  NoDup (block_id <$> App.hand s) →
  block_id block ∈ block_id <$> App.hand s →
  App.handleDragEnd rnd s = Some (s1, sounds) →
  if decide (length (App.hand s) = 1%nat) then
    generateHand rnd 3 (App.turn s) = Some (App.hand s1) ∧
    App.turn s1 = App.turn s + 1
  else
    (∀ b, b ∈ App.hand s1 ↔ b ∈ App.hand s ∧ block_id b ≠ block_id block) ∧
    length (App.hand s1) = (length (App.hand s) - 1)%nat ∧
    App.turn s1 = App.turn s.
Proof.
  intros Hd Hg Hnd Hin.
  pose proof (length_filter_other block_id (App.hand s) (block_id block)
                Hnd Hin) as Hlen.
  assert (1 ≤ length (App.hand s))%nat as Hone.
  { destruct (App.hand s); [by apply elem_of_nil in Hin|simpl; lia]. }
  unfold App.handleDragEnd. rewrite Hd, Hg.
  destruct (placeBlockAndProcess _ _ _ _ _) as [r|];
    cbn [mbind option_bind]; [|done].
  case_decide as Hempty.
  - destruct (generateHand rnd 3 (App.turn s)) as [nextHand|];
      cbn [mbind option_bind]; [|done].
    destruct (canPlaceAny (newGrid r) nextHand) as [movable|];
      cbn [mbind option_bind]; [|done].
    intros [= <- <-]. cbn [App.hand App.turn].
    rewrite decide_True by lia. done.
  - destruct (canPlaceAny (newGrid r) _) as [movable|];
      cbn [mbind option_bind]; [|done].
    intros [= <- <-]. cbn [App.hand App.turn].
    rewrite decide_False by lia. split; [|done].
    intros b. rewrite list_elem_of_filter. tauto.
Qed.

End hand_after_drop.

Lemma drop_takes_block_from_hand_witness :
  App.dragBlock stateDragging = Some dominoA ∧
  App.ghostPosition stateDragging = Some (mkCoordinate 0 0) ∧
  NoDup (block_id <$> App.hand stateDragging) ∧
  block_id dominoA ∈ block_id <$> App.hand stateDragging ∧
  ∃ s1 sounds,
    App.handleDragEnd firstDraw stateDragging = Some (s1, sounds) ∧
    length (App.hand s1) = 1%nat ∧ App.turn s1 = 1.
Proof.
  assert (NoDup (block_id <$> App.hand stateDragging)) as Hnd
    by (apply (bool_decide_unpack _); by vm_compute).
  assert (block_id dominoA ∈ block_id <$> App.hand stateDragging) as Hin
    by (apply (bool_decide_unpack _); by vm_compute).
  split; [reflexivity|]. split; [reflexivity|].
  split; [exact Hnd|]. split; [exact Hin|].
  destruct (App.handleDragEnd firstDraw stateDragging) as [[s1 sounds]|]
    eqn:Hend; [|by vm_compute in Hend].
  exists s1, sounds. split; [reflexivity|].
  pose proof (drop_takes_block_from_hand firstDraw stateDragging dominoA
                (mkCoordinate 0 0) s1 sounds eq_refl eq_refl Hnd Hin Hend)
    as Hdrop.
  rewrite decide_False in Hdrop by (by vm_compute).
  destruct Hdrop as (_ & Hlen & Hturn). split; [exact Hlen|exact Hturn].
Defined.
